(** * The indexing control loop of [danswer/background/update.py]

    A shallow embedding of the supervisor that schedules, dispatches and
    reaps indexing attempts and that swaps the secondary embedding model in.

    The Python code talks to three kinds of collaborators: the relational
    store (through the functions imported from [danswer.db]), the job handles
    and clients, and the logger.  The store is a record of tables, the
    tracked-jobs dictionary is a finite map from attempt identifiers to job
    handles, and every call that leaves the process (a store write, a call on
    a job handle or on a client, a log record, a sleep) is appended to a list
    of effects, in the order the code performs it.  Python exceptions are an
    explicit outcome; the world reached when an exception is raised is kept,
    because the store writes made before the raise are committed. *)

From Stdlib Require Import ZArith String.
From stdpp Require Import base decidable option list gmap strings.

Local Open Scope Z_scope.

#[local] Set Warnings "-clear-no-such-hyp".

(** ** Enumerations of [danswer.db.models] *)

Inductive IndexingStatus := NOT_STARTED | IN_PROGRESS | SUCCESS | FAILED.
Inductive IndexModelStatus := PAST | PRESENT | FUTURE.

#[global] Instance IndexingStatus_eq_dec : EqDecision IndexingStatus.
Proof. solve_decision. Defined.
#[global] Instance IndexModelStatus_eq_dec : EqDecision IndexModelStatus.
Proof. solve_decision. Defined.

(** ** Rows of the store *)

Module EmbeddingModel.
Record t := mk { id : Z; status : IndexModelStatus }.
Definition with_status (s : IndexModelStatus) (m : t) : t :=
  {| id := id m; status := s |}.
End EmbeddingModel.

Module Connector.
(** [credentials] lists [association.credential.id] for the associations of
    the connector, in the order the relationship yields them.  The name and
    the connector specific configuration only occur in log messages. *)
Record t := mk {
  id : Z;
  disabled : bool;
  refresh_freq : option Z;
  credentials : list Z
}.
End Connector.

Module Credential.
Record t := mk { id : Z }.
End Credential.

Module ConnectorCredentialPair.
Record t := mk {
  connector_id : Z;
  credential_id : Z;
  last_attempt_status : option IndexingStatus
}.
Definition with_status (s : option IndexingStatus) (p : t) : t :=
  {| connector_id := connector_id p; credential_id := credential_id p;
     last_attempt_status := s |}.
End ConnectorCredentialPair.

Module IndexAttempt.
(** Times are counts of microseconds, the resolution of [datetime]. *)
Record t := mk {
  id : Z;
  connector_id : option Z;
  credential_id : option Z;
  embedding_model_id : Z;
  status : IndexingStatus;
  time_updated : Z;
  failure_reason : option string
}.
End IndexAttempt.

#[global] Instance EmbeddingModel_eq_dec : EqDecision EmbeddingModel.t.
Proof. solve_decision. Defined.
#[global] Instance IndexAttempt_eq_dec : EqDecision IndexAttempt.t.
Proof. solve_decision. Defined.

(** ** The store *)

(** [index_attempts] is kept in creation order: a new attempt is appended. *)
Record Store := mkStore {
  connectors : list Connector.t;
  credentials : list Credential.t;
  cc_pairs : list ConnectorCredentialPair.t;
  embedding_models : list EmbeddingModel.t;
  index_attempts : list IndexAttempt.t;
  db_time : Z
}.

Definition set_cc_pairs (f : list ConnectorCredentialPair.t → list ConnectorCredentialPair.t)
    (s : Store) : Store :=
  {| connectors := connectors s; credentials := credentials s;
     cc_pairs := f (cc_pairs s); embedding_models := embedding_models s;
     index_attempts := index_attempts s; db_time := db_time s |}.

Definition set_embedding_models (f : list EmbeddingModel.t → list EmbeddingModel.t)
    (s : Store) : Store :=
  {| connectors := connectors s; credentials := credentials s;
     cc_pairs := cc_pairs s; embedding_models := f (embedding_models s);
     index_attempts := index_attempts s; db_time := db_time s |}.

Definition set_index_attempts (f : list IndexAttempt.t → list IndexAttempt.t)
    (s : Store) : Store :=
  {| connectors := connectors s; credentials := credentials s;
     cc_pairs := cc_pairs s; embedding_models := embedding_models s;
     index_attempts := f (index_attempts s); db_time := db_time s |}.

(** ** Job handles and clients *)

Inductive JobStatus := pending | running | finished | error.

#[global] Instance JobStatus_eq_dec : EqDecision JobStatus.
Proof. solve_decision. Defined.

(** A handle as the loop observes it during one call.  [cancel] and
    [release] act on the worker pool, outside the store: they are recorded as
    effects. *)
Module Job.
Record t := mk { status : JobStatus }.
(** Modelled from the spec: the job client module
    ([danswer.background.indexing.job_client]) is not part of the sources;
    "[handle.done()] is true iff [finished] or [error]". *)
Definition done (j : t) : bool :=
  bool_decide (status j = finished) || bool_decide (status j = error).
End Job.

Inductive ClientRef := client_primary | client_secondary.

#[global] Instance ClientRef_eq_dec : EqDecision ClientRef.
Proof. solve_decision. Defined.

(** A client answers a submission with a handle or with a falsy value; the
    answer may depend on everything submitted to it before.  [submitted] is
    that history, oldest first. *)
Record Client := mkClient {
  submitted : list Z;
  respond : list Z → Z → option Job.t
}.

(** ** Effects *)

Inductive LogLevel := INFO | WARNING | ERROR | EXCEPTION.

Inductive LogRecord :=
| marking_attempt_as_failed (connector_id credential_id : option Z) (failure_reason : string)
| unable_to_find_attempt_when_creating (attempt_id : Z)
| job_exception (attempt_id : Z)
| unable_to_find_attempt_when_cleaning (attempt_id : Z)
| found_new_indexing_tasks (n : nat)
| skipping_connector_deleted (attempt_id : Z)
| skipping_credential_deleted (attempt_id : Z)
| kicked_off (secondary : bool) (attempt_id : Z)
| running_update
| found_existing_jobs (attempt_ids : list Z)
| failed_to_run_update.

Inductive Exn :=
| RuntimeError (msg : string)
| AttributeError (msg : string).

Inductive Event :=
| Log (level : LogLevel) (record : LogRecord)
| MarkAttemptFailed (attempt_id : Z) (failure_reason : string)
| UpdateConnectorCredentialPair (connector_id credential_id : Z) (attempt_status : IndexingStatus)
| CreateIndexAttempt (connector_id credential_id embedding_model_id : Z)
| UpdateEmbeddingModelStatus (embedding_model_id : Z) (new_status : IndexModelStatus)
| ResyncCCPair (connector_id credential_id : Z)
| MarkAllInProgressCCPairsFailed
| JobRelease (attempt_id : Z)
| JobCancel (attempt_id : Z)
| Submit (client : ClientRef) (attempt_id num_threads : Z) (accepted : bool)
| Sleep (microseconds : Z).

#[global] Instance LogLevel_eq_dec : EqDecision LogLevel.
Proof. solve_decision. Defined.
#[global] Instance LogRecord_eq_dec : EqDecision LogRecord.
Proof. solve_decision. Defined.
#[global] Instance Exn_eq_dec : EqDecision Exn.
Proof. solve_decision. Defined.
#[global] Instance Event_eq_dec : EqDecision Event.
Proof. solve_decision. Defined.

(** ** The world and the monad of the loop *)

(** The two configuration values the code reads, and what
    [torch.get_num_threads()] answers. *)
Record Config := mkConfig {
  MIN_THREADS_ML_MODELS : Z;
  torch_get_num_threads : Z
}.

Record World := mkWorld {
  db : Store;
  config : Config;
  primary : Client;
  secondary : Client;
  effects : list Event
}.

Inductive Outcome (A : Type) :=
| Returned (a : A)
| Raised (e : Exn).
Arguments Returned {A} a.
Arguments Raised {A} e.

Definition M (A : Type) : Type := World → Outcome A * World.

#[global] Instance M_ret : MRet M := λ A a w, (Returned a, w).
#[global] Instance M_bind : MBind M := λ A B f m w,
  match m w with
  | (Returned a, w') => f a w'
  | (Raised e, w') => (Raised e, w')
  end.

Definition raise {A} (e : Exn) : M A := λ w, (Raised e, w).

Definition gets {A} (f : Store → A) : M A := λ w, (Returned (f (db w)), w).

Definition emit (e : Event) : M unit := λ w,
  (Returned (),
   {| db := db w; config := config w; primary := primary w;
      secondary := secondary w; effects := effects w ++ [e] |}).

Definition write (f : Store → Store) : M unit := λ w,
  (Returned (),
   {| db := f (db w); config := config w; primary := primary w;
      secondary := secondary w; effects := effects w |}).

Definition logger (level : LogLevel) (record : LogRecord) : M unit :=
  emit (Log level record).

(** [for x in xs: body], with the local variables the body assigns as the
    accumulator; [continue] is the body returning early. *)
Fixpoint for_fold {A S} (xs : list A) (acc : S) (body : A → S → M S) : M S :=
  match xs with
  | [] => mret acc
  | x :: xs' => acc' ← body x acc; for_fold xs' acc' body
  end.

Definition for_ {A} (xs : list A) (body : A → M unit) : M unit :=
  for_fold xs () (λ x _, body x).

(** What a computation appends to the effects. *)
Definition outcome {A} (m : M A) (w : World) : Outcome A := fst (m w).
Definition after {A} (m : M A) (w : World) : World := snd (m w).

(** ** The store gateway

    The functions of [danswer.db] are imported by [update.py] and are not part
    of the sources; each one below follows its contract in the
    specification. *)

Definition terminal (s : IndexingStatus) : bool :=
  bool_decide (s = SUCCESS) || bool_decide (s = FAILED).

(** Modelled from the spec: [danswer.db.engine.get_db_current_time] is not in
    the sources; "[db_now() → timestamp] — server-side, authoritative clock".
    The clock does not advance during one call of a component. *)
Definition get_db_current_time (db_session : Store) : Z := db_time db_session.

(** Modelled from the spec: [fetch_connectors] is not in the sources;
    "[list_connectors() → [Connector]]". *)
Definition fetch_connectors : M (list Connector.t) := gets connectors.

(** Modelled from the spec: [get_connector_credential_pairs] is not in the
    sources; "[list_cc_pairs() → [CCPair]]". *)
Definition get_connector_credential_pairs : M (list ConnectorCredentialPair.t) :=
  gets cc_pairs.

Definition find_model_with_status (s : IndexModelStatus) (db_session : Store)
    : option EmbeddingModel.t :=
  head (filter (λ m, EmbeddingModel.status m = s) (embedding_models db_session)).

(** Modelled from the spec: [get_secondary_db_embedding_model] is not in the
    sources; "[secondary_model() → EmbeddingModel?]", the model whose status
    is FUTURE, if any. *)
Definition get_secondary_db_embedding_model : M (option EmbeddingModel.t) :=
  gets (find_model_with_status FUTURE).

(** Modelled from the spec: [get_current_db_embedding_model] is not in the
    sources; "[current_model()]", the model whose status is PRESENT.  The
    specification promises exactly one such model at any moment; a store
    without one makes the call fail. *)
Definition get_current_db_embedding_model : M EmbeddingModel.t := λ w,
  match find_model_with_status PRESENT (db w) with
  | Some m => (Returned m, w)
  | None => (Raised (RuntimeError "No PRESENT embedding model in the store"), w)
  end.

(** Modelled from the spec: [update_embedding_model_status] is not in the
    sources; "[set_model_status(model, new_status)]". *)
Definition update_embedding_model_status (embedding_model : EmbeddingModel.t)
    (new_status : IndexModelStatus) : M unit :=
  emit (UpdateEmbeddingModelStatus (EmbeddingModel.id embedding_model) new_status);;
  write (set_embedding_models
    (fmap (λ m, if bool_decide (EmbeddingModel.id m = EmbeddingModel.id embedding_model)
                then EmbeddingModel.with_status new_status m else m))).

Definition lookup_index_attempt (index_attempt_id : Z) (db_session : Store)
    : option IndexAttempt.t :=
  head (filter (λ a, IndexAttempt.id a = index_attempt_id) (index_attempts db_session)).

(** Modelled from the spec: [get_index_attempt] is not in the sources;
    "[get_attempt(id)]", the row with that identifier, if any. *)
Definition get_index_attempt (index_attempt_id : Z) : M (option IndexAttempt.t) :=
  gets (lookup_index_attempt index_attempt_id).

Definition attempts_of_triple (connector_id credential_id embedding_model_id : Z)
    (db_session : Store) : list IndexAttempt.t :=
  filter (λ a, IndexAttempt.connector_id a = Some connector_id
             ∧ IndexAttempt.credential_id a = Some credential_id
             ∧ IndexAttempt.embedding_model_id a = embedding_model_id)
         (index_attempts db_session).

(** Modelled from the spec: [get_last_attempt] is not in the sources;
    "[last_attempt(connector_id, credential_id, model_id)]", the most
    recently created attempt of the triple, if any. *)
Definition get_last_attempt (connector_id credential_id embedding_model_id : Z)
    : M (option IndexAttempt.t) :=
  gets (λ s, last (attempts_of_triple connector_id credential_id embedding_model_id s)).

(** Modelled from the spec: [get_not_started_index_attempts] is not in the
    sources; "[attempts_not_started() → [IndexAttempt]]". *)
Definition get_not_started_index_attempts : M (list IndexAttempt.t) :=
  gets (λ s, filter (λ a, IndexAttempt.status a = NOT_STARTED) (index_attempts s)).

Definition inprogress_of (connector_id : Z) (db_session : Store) : list IndexAttempt.t :=
  filter (λ a, IndexAttempt.connector_id a = Some connector_id
             ∧ IndexAttempt.status a = IN_PROGRESS)
         (index_attempts db_session).

(** Modelled from the spec: [get_inprogress_index_attempts] is not in the
    sources; "[attempts_in_progress(connector_id) → [IndexAttempt]]". *)
Definition get_inprogress_index_attempts (connector_id : Z) : M (list IndexAttempt.t) :=
  gets (inprogress_of connector_id).

Definition cc_pair_of_attempt (a : IndexAttempt.t) : option Z * option Z :=
  (IndexAttempt.connector_id a, IndexAttempt.credential_id a).

Definition unique_cc_pairs_with_index_attempts (embedding_model_id : Z)
    (db_session : Store) : list (option Z * option Z) :=
  remove_dups (cc_pair_of_attempt <$>
    filter (λ a, IndexAttempt.embedding_model_id a = embedding_model_id)
           (index_attempts db_session)).

(** Modelled from the spec: [count_unique_cc_pairs_with_index_attempts] is not
    in the sources; "[count_distinct_cc_pairs_attempted(model_id) → int]",
    the number of distinct (connector, credential) pairs among the attempts
    against the model, whatever their status. *)
Definition count_unique_cc_pairs_with_index_attempts (embedding_model_id : Z) : M Z :=
  gets (λ s, Z.of_nat (length (unique_cc_pairs_with_index_attempts embedding_model_id s))).

Definition fresh_attempt_id (db_session : Store) : Z :=
  1 + foldr Z.max 0 (IndexAttempt.id <$> index_attempts db_session).

(** Modelled from the spec: [create_index_attempt] is not in the sources;
    "[create_attempt(connector_id, credential_id, model_id)] — inserts
    NOT_STARTED". *)
Definition create_index_attempt (connector_id credential_id embedding_model_id : Z)
    : M unit :=
  emit (CreateIndexAttempt connector_id credential_id embedding_model_id);;
  write (λ s, set_index_attempts (λ rows, rows ++ [
    {| IndexAttempt.id := fresh_attempt_id s;
       IndexAttempt.connector_id := Some connector_id;
       IndexAttempt.credential_id := Some credential_id;
       IndexAttempt.embedding_model_id := embedding_model_id;
       IndexAttempt.status := NOT_STARTED;
       IndexAttempt.time_updated := db_time s;
       IndexAttempt.failure_reason := None |} ]) s).

Definition fail_row (failure_reason : string) (now : Z) (a : IndexAttempt.t)
    : IndexAttempt.t :=
  if terminal (IndexAttempt.status a) then a
  else {| IndexAttempt.id := IndexAttempt.id a;
          IndexAttempt.connector_id := IndexAttempt.connector_id a;
          IndexAttempt.credential_id := IndexAttempt.credential_id a;
          IndexAttempt.embedding_model_id := IndexAttempt.embedding_model_id a;
          IndexAttempt.status := FAILED;
          IndexAttempt.time_updated := now;
          IndexAttempt.failure_reason := Some failure_reason |}.

(** Modelled from the spec: [mark_attempt_failed] is not in the sources;
    "[mark_attempt_failed(attempt, reason)] — idempotent: if already
    terminal, no-op". *)
Definition mark_attempt_failed (index_attempt : IndexAttempt.t)
    (failure_reason : string) : M unit :=
  emit (MarkAttemptFailed (IndexAttempt.id index_attempt) failure_reason);;
  write (λ s, set_index_attempts
    (fmap (λ a, if bool_decide (IndexAttempt.id a = IndexAttempt.id index_attempt)
                then fail_row failure_reason (db_time s) a else a)) s).

(** Modelled from the spec: [update_connector_credential_pair] is not in the
    sources; "[update_cc_pair_status(connector_id, credential_id, status)]". *)
Definition update_connector_credential_pair (connector_id credential_id : Z)
    (attempt_status : IndexingStatus) : M unit :=
  emit (UpdateConnectorCredentialPair connector_id credential_id attempt_status);;
  write (set_cc_pairs
    (fmap (λ p, if bool_decide (ConnectorCredentialPair.connector_id p = connector_id
                              ∧ ConnectorCredentialPair.credential_id p = credential_id)
                then ConnectorCredentialPair.with_status (Some attempt_status) p
                else p))).

(** The relationships of an attempt, resolved against the store: a
    reference whose row is gone reads as [None]. *)
Definition attempt_connector (a : IndexAttempt.t) (db_session : Store)
    : option Connector.t :=
  c ← IndexAttempt.connector_id a;
  head (filter (λ r, Connector.id r = c) (connectors db_session)).

Definition attempt_credential (a : IndexAttempt.t) (db_session : Store)
    : option Credential.t :=
  k ← IndexAttempt.credential_id a;
  head (filter (λ r, Credential.id r = k) (credentials db_session)).

Definition attempt_embedding_model (a : IndexAttempt.t) (db_session : Store)
    : option EmbeddingModel.t :=
  head (filter (λ m, EmbeddingModel.id m = IndexAttempt.embedding_model_id a)
               (embedding_models db_session)).

Definition attempts_against_present (connector_id credential_id : Z)
    (db_session : Store) : list IndexAttempt.t :=
  filter (λ a, IndexAttempt.connector_id a = Some connector_id
             ∧ IndexAttempt.credential_id a = Some credential_id
             ∧ EmbeddingModel.status <$> attempt_embedding_model a db_session
               = Some PRESENT)
         (index_attempts db_session).

(** Modelled from the spec: [resync_cc_pair] is not in the sources;
    "[resync_cc_pair(cc_pair)] — recomputes aggregates after a swap", the
    aggregate being the status of the pair's most recent attempt against the
    PRESENT model. *)
Definition resync_cc_pair (cc_pair : ConnectorCredentialPair.t) : M unit :=
  let c := ConnectorCredentialPair.connector_id cc_pair in
  let k := ConnectorCredentialPair.credential_id cc_pair in
  emit (ResyncCCPair c k);;
  write (λ s, set_cc_pairs
    (fmap (λ p, if bool_decide (ConnectorCredentialPair.connector_id p = c
                              ∧ ConnectorCredentialPair.credential_id p = k)
                then ConnectorCredentialPair.with_status
                       (IndexAttempt.status <$> last (attempts_against_present c k s)) p
                else p)) s).

(** Modelled from the spec: [mark_all_in_progress_cc_pairs_failed] is not in
    the sources; it "recovers from supervisor crashes that left CC-pair
    aggregates claiming IN_PROGRESS with no live handle". *)
Definition mark_all_in_progress_cc_pairs_failed : M unit :=
  emit MarkAllInProgressCCPairsFailed;;
  write (set_cc_pairs
    (fmap (λ p, if bool_decide (ConnectorCredentialPair.last_attempt_status p
                              = Some IN_PROGRESS)
                then ConnectorCredentialPair.with_status (Some FAILED) p
                else p))).

(** Modelled from the spec: the job client is not in the sources;
    "[submit(fn, args…) → JobHandle] — non-blocking", and a submission may be
    answered with a falsy handle. *)
Definition submit (client : ClientRef) (attempt_id num_threads : Z)
    : M (option Job.t) := λ w,
  let cl := match client with
            | client_primary => primary w
            | client_secondary => secondary w
            end in
  let run := respond cl (submitted cl) attempt_id in
  let cl' := {| submitted := submitted cl ++ [attempt_id]; respond := respond cl |} in
  (Returned run,
   {| db := db w; config := config w;
      primary := match client with client_primary => cl' | _ => primary w end;
      secondary := match client with client_secondary => cl' | _ => secondary w end;
      effects := effects w
        ++ [Submit client attempt_id num_threads (bool_decide (is_Some run))] |}).

(** Modelled from the spec: "[handle.cancel()] — best-effort" and
    "[handle.release()] — releases client-side resources"; the handle is the
    one tracked under the attempt identifier. *)
Definition job_cancel (attempt_id : Z) : M unit := emit (JobCancel attempt_id).
Definition job_release (attempt_id : Z) : M unit := emit (JobRelease attempt_id).

(** ** [update.py] *)

Definition _UNEXPECTED_STATE_FAILURE_REASON : string :=
  "Stopped mid run, likely due to the background process being killed".

Definition _FROZEN_FAILURE_REASON : string :=
  String.append "Indexing run frozen - no updates in the last three hours. "
                "The run will be re-attempted at next scheduled indexing time.".

(** [timedelta.total_seconds()].  A timedelta is a count of microseconds, and
    [total_seconds()] is the true division [microseconds / 10**6] of two
    Python integers: the binary64 float nearest to the quotient, a tie going
    to the even significand ("for very large time intervals (greater than 270
    years on most platforms) this method will lose microsecond accuracy").
    A float is kept as a significand and a binary exponent; the significand
    of a quotient that is not zero has 53 bits, or is [2 ^ 53] when the
    quotient rounds up to a power of two.  Such a quotient is at least
    [10**-6 > 2**-20] in magnitude, so 72 fractional bits hold every
    significand; a [timedelta] is below [10**9] days, so the exponents of
    binary64 are never exceeded. *)
Record float := { significand : Z; exponent : Z }.

(** The integer nearest to [a / b], a tie going to the even one. *)
Definition round_half_even (a b : Z) : Z :=
  let q := a / b in
  let r := a mod b in
  if decide (2 * r < b) then q
  else if decide (b < 2 * r) then q + 1
  else if Z.even q then q else q + 1.

(** [a / 10**6] for a positive [a]: [shift - 72] is the exponent that leaves
    53 bits before the binary point. *)
Definition int_truediv_us (a : Z) : float :=
  let scaled := a * 2 ^ 72 in
  let shift := Z.log2 (scaled / 1000000) - 52 in
  {| significand := round_half_even scaled (1000000 * 2 ^ shift);
     exponent := shift - 72 |}.

Definition total_seconds (timedelta : Z) : float :=
  match timedelta with
  | 0 => {| significand := 0; exponent := 0 |}
  | Z.pos _ => int_truediv_us timedelta
  | Z.neg _ =>
    let x := int_truediv_us (- timedelta) in
    {| significand := - significand x; exponent := exponent x |}
  end.

(** Python compares a float with an integer by value, without rounding the
    integer. *)
Definition float_ge_int (x : float) (n : Z) : bool :=
  bool_decide (n * 2 ^ Z.max 0 (- exponent x)
               ≤ significand x * 2 ^ Z.max 0 (exponent x)).
Definition float_gt_int (x : float) (n : Z) : bool :=
  bool_decide (n * 2 ^ Z.max 0 (- exponent x)
               < significand x * 2 ^ Z.max 0 (exponent x)).

(** [timedelta.total_seconds() >= n] and [timedelta.total_seconds() > n]. *)
Definition total_seconds_ge (timedelta n : Z) : bool :=
  float_ge_int (total_seconds timedelta) n.
Definition total_seconds_gt (timedelta n : Z) : bool :=
  float_gt_int (total_seconds timedelta) n.

Definition _get_num_threads : M Z := λ w,
  (Returned (Z.max (MIN_THREADS_ML_MODELS (config w)) (torch_get_num_threads (config w))), w).

Definition _should_create_new_indexing (connector : Connector.t)
    (last_index : option IndexAttempt.t) (model : EmbeddingModel.t)
    (db_session : Store) : bool :=
  if bool_decide (EmbeddingModel.status model = FUTURE)
     && bool_decide (last_index = None)
  then
    if bool_decide (Connector.id connector = 0) then false else true
  else if Connector.disabled connector then false
  else
    match Connector.refresh_freq connector with
    | None => false
    | Some refresh_freq =>
      match last_index with
      | None => true
      | Some last_index =>
        if bool_decide (IndexAttempt.status last_index = NOT_STARTED) then false
        else
          let current_db_time := get_db_current_time db_session in
          let time_since_index :=
            current_db_time - IndexAttempt.time_updated last_index in
          total_seconds_ge time_since_index refresh_freq
      end
    end.

Definition _is_indexing_job_marked_as_finished (index_attempt : option IndexAttempt.t)
    : bool :=
  match index_attempt with
  | None => false
  | Some index_attempt =>
    bool_decide (IndexAttempt.status index_attempt = FAILED)
    || bool_decide (IndexAttempt.status index_attempt = SUCCESS)
  end.

Definition _mark_run_failed (index_attempt : IndexAttempt.t) (failure_reason : string)
    : M unit :=
  logger WARNING (marking_attempt_as_failed (IndexAttempt.connector_id index_attempt)
                    (IndexAttempt.credential_id index_attempt) failure_reason);;
  mark_attempt_failed index_attempt failure_reason;;
  match IndexAttempt.connector_id index_attempt,
        IndexAttempt.credential_id index_attempt with
  | Some connector_id, Some credential_id =>
    embedding_model ← gets (attempt_embedding_model index_attempt);
    match embedding_model with
    | None => raise (AttributeError "'NoneType' object has no attribute 'status'")
    | Some embedding_model =>
      if bool_decide (EmbeddingModel.status embedding_model = PRESENT)
      then update_connector_credential_pair connector_id credential_id FAILED
      else mret ()
    end
  | _, _ => mret ()
  end.

Abbreviation Jobs := (gmap Z Job.t).
Abbreviation Triple := (option Z * option Z * Z)%type.

Definition triple_of (attempt : IndexAttempt.t) : Triple :=
  (IndexAttempt.connector_id attempt,
   IndexAttempt.credential_id attempt,
   IndexAttempt.embedding_model_id attempt).

(** One turn of the first loop of [create_indexing_jobs]. *)
Definition create_indexing_jobs_track (attempt_id : Z) (ongoing : gset Triple)
    : M (gset Triple) :=
  attempt ← get_index_attempt attempt_id;
  match attempt with
  | None =>
    logger ERROR (unable_to_find_attempt_when_creating attempt_id);;
    mret ongoing
  | Some attempt => mret (ongoing ∪ {[ triple_of attempt ]})
  end.

(** The first loop of [create_indexing_jobs]: the set [ongoing]. *)
Definition create_indexing_jobs_ongoing (existing_jobs : Jobs) : M (gset Triple) :=
  for_fold (map_to_list existing_jobs).*1 (∅ : gset Triple)
    create_indexing_jobs_track.

Definition create_indexing_jobs (existing_jobs : Jobs) : M unit :=
  ongoing ← create_indexing_jobs_ongoing existing_jobs;
  current ← get_current_db_embedding_model;
  secondary_embedding_model ← get_secondary_db_embedding_model;
  let embedding_models :=
    [current] ++ match secondary_embedding_model with
                 | Some m => [m]
                 | None => []
                 end in
  all_connectors ← fetch_connectors;
  for_ all_connectors (λ connector,
    for_ (Connector.credentials connector) (λ credential_id,
      for_ embedding_models (λ model,
        if bool_decide ((Some (Connector.id connector), Some credential_id,
                         EmbeddingModel.id model) ∈ ongoing)
        then mret ()
        else
          last_attempt ← get_last_attempt (Connector.id connector) credential_id
                           (EmbeddingModel.id model);
          db_session ← gets id;
          if negb (_should_create_new_indexing connector last_attempt model db_session)
          then mret ()
          else
            create_index_attempt (Connector.id connector) credential_id
              (EmbeddingModel.id model);;
            if bool_decide (EmbeddingModel.status model = PRESENT)
            then update_connector_credential_pair (Connector.id connector)
                   credential_id NOT_STARTED
            else mret ()))).

(** The tracked sweep of [cleanup_indexing_jobs]: one turn of the first loop.
    [del existing_jobs_copy[attempt_id]] finds its key: the copy starts with
    the keys of [existing_jobs] and each key is visited once. *)
Definition cleanup_tracked_job (attempt_id : Z) (job : Job.t)
    (existing_jobs_copy : Jobs) : M Jobs :=
  index_attempt ← get_index_attempt attempt_id;
  if negb (Job.done job) && negb (_is_indexing_job_marked_as_finished index_attempt)
  then mret existing_jobs_copy
  else
    (if bool_decide (Job.status job = error)
     then logger ERROR (job_exception attempt_id) else mret ());;
    job_release attempt_id;;
    let existing_jobs_copy := delete attempt_id existing_jobs_copy in
    match index_attempt with
    | None =>
      logger ERROR (unable_to_find_attempt_when_cleaning attempt_id);;
      mret existing_jobs_copy
    | Some index_attempt =>
      (if bool_decide (IndexAttempt.status index_attempt = IN_PROGRESS)
          || bool_decide (Job.status job = error)
       then _mark_run_failed index_attempt _UNEXPECTED_STATE_FAILURE_REASON
       else mret ());;
      mret existing_jobs_copy
    end.

(** One turn of the innermost loop of the in-progress sweep. *)
Definition cleanup_inprogress_attempt (existing_jobs : Jobs) (timeout_hours : Z)
    (index_attempt : IndexAttempt.t) : M unit :=
  if bool_decide (is_Some (existing_jobs !! IndexAttempt.id index_attempt))
  then
    current_db_time ← gets get_db_current_time;
    let time_since_update :=
      current_db_time - IndexAttempt.time_updated index_attempt in
    if total_seconds_gt time_since_update (60 * 60 * timeout_hours)
    then
      job_cancel (IndexAttempt.id index_attempt);;
      _mark_run_failed index_attempt _FROZEN_FAILURE_REASON
    else mret ()
  else _mark_run_failed index_attempt _UNEXPECTED_STATE_FAILURE_REASON.

Definition cleanup_indexing_jobs (existing_jobs : Jobs) (timeout_hours : Z)
    : M Jobs :=
  let existing_jobs_copy := existing_jobs in
  existing_jobs_copy ← for_fold (map_to_list existing_jobs) existing_jobs_copy
    (λ '(attempt_id, job), cleanup_tracked_job attempt_id job);
  connectors ← fetch_connectors;
  for_ connectors (λ connector,
    in_progress_indexing_attempts ←
      get_inprogress_index_attempts (Connector.id connector);
    for_ in_progress_indexing_attempts
      (cleanup_inprogress_attempt existing_jobs timeout_hours));;
  mret existing_jobs_copy.

(** One turn of the loop of [kickoff_indexing_jobs]. *)
Definition kickoff_attempt (client secondary_client : ClientRef)
    (attempt : IndexAttempt.t) (embedding_model : option EmbeddingModel.t)
    (existing_jobs_copy : Jobs) : M Jobs :=
  let use_secondary_index :=
    match embedding_model with
    | Some embedding_model => bool_decide (EmbeddingModel.status embedding_model = FUTURE)
    | None => false
    end in
  connector ← gets (attempt_connector attempt);
  match connector with
  | None =>
    logger WARNING (skipping_connector_deleted (IndexAttempt.id attempt));;
    mark_attempt_failed attempt "Connector is null";;
    mret existing_jobs_copy
  | Some _ =>
    credential ← gets (attempt_credential attempt);
    match credential with
    | None =>
      logger WARNING (skipping_credential_deleted (IndexAttempt.id attempt));;
      mark_attempt_failed attempt "Credential is null";;
      mret existing_jobs_copy
    | Some _ =>
      num_threads ← _get_num_threads;
      run ← (if use_secondary_index
             then submit secondary_client (IndexAttempt.id attempt) num_threads
             else submit client (IndexAttempt.id attempt) num_threads);
      match run with
      | Some run =>
        logger INFO (kicked_off use_secondary_index (IndexAttempt.id attempt));;
        mret (<[IndexAttempt.id attempt := run]> existing_jobs_copy)
      | None => mret existing_jobs_copy
      end
    end
  end.

Definition kickoff_indexing_jobs (existing_jobs : Jobs)
    (client secondary_client : ClientRef) : M Jobs :=
  let existing_jobs_copy := existing_jobs in
  not_started ← get_not_started_index_attempts;
  db_session ← gets id;
  let new_indexing_attempts :=
    (λ attempt, (attempt, attempt_embedding_model attempt db_session))
    <$> filter (λ attempt, existing_jobs !! IndexAttempt.id attempt = None)
               not_started in
  logger INFO (found_new_indexing_tasks (length new_indexing_attempts));;
  match new_indexing_attempts with
  | [] => mret existing_jobs
  | _ =>
    for_fold new_indexing_attempts existing_jobs_copy
      (λ '(attempt, embedding_model),
         kickoff_attempt client secondary_client attempt embedding_model)
  end.

Definition check_index_swap : M unit :=
  all_cc_pairs ← get_connector_credential_pairs;
  let cc_pair_count := Z.of_nat (length all_cc_pairs) - 1 in
  embedding_model ← get_secondary_db_embedding_model;
  match embedding_model with
  | None => mret ()
  | Some embedding_model =>
    unique_cc_indexings ←
      count_unique_cc_pairs_with_index_attempts (EmbeddingModel.id embedding_model);
    if bool_decide (cc_pair_count < unique_cc_indexings)
    then raise (RuntimeError "More unique indexings than cc pairs, should not occur")
    else if bool_decide (cc_pair_count = unique_cc_indexings)
    then
      now_old_embedding_model ← get_current_db_embedding_model;
      update_embedding_model_status now_old_embedding_model PAST;;
      update_embedding_model_status embedding_model PRESENT;;
      for_ all_cc_pairs resync_cc_pair
    else mret ()
  end.

(** [try: body / except Exception: ...]: the exception becomes a value. *)
Definition try_ {A} (body : M A) : M (Exn + A) := λ w,
  match body w with
  | (Returned a, w') => (Returned (inr a), w')
  | (Raised e, w') => (Returned (inl e), w')
  end.

Section supervisor.
(** The four components of a tick.  [update_loop] below runs the loop with
    the functions above; the loop itself depends on nothing but their
    outcomes. *)
Variable swap : M unit.
Variable reap : Jobs → M Jobs.
Variable schedule : Jobs → M unit.
Variable dispatch : Jobs → M Jobs.

(** What the loop does not control: [environment n] is what the workers and
    the other flows did to the store before tick [n] starts, [poll n] how a
    tracked handle looks from then on, and [elapsed n] what
    [time.time() - start] measures at the end of tick [n], in microseconds. *)
Variable environment : nat → Store → Store.
Variable poll : nat → Z → Job.t → Job.t.
Variable elapsed : nat → Z.

Variable delay : Z.

Definition except_ (existing_jobs : Jobs) : M Jobs :=
  logger EXCEPTION failed_to_run_update;;
  mret existing_jobs.

(** The body of [try], with [existing_jobs] as the code leaves it when a
    component raises: the assignments made before the raise stay. *)
Definition try_tick (existing_jobs : Jobs) : M Jobs :=
  r ← try_ swap;
  match r with
  | inl _ => except_ existing_jobs
  | inr _ =>
    r ← try_ (reap existing_jobs);
    match r with
    | inl _ => except_ existing_jobs
    | inr existing_jobs =>
      r ← try_ (schedule existing_jobs);
      match r with
      | inl _ => except_ existing_jobs
      | inr _ =>
        r ← try_ (dispatch existing_jobs);
        match r with
        | inl _ => except_ existing_jobs
        | inr existing_jobs => mret existing_jobs
        end
      end
    end
  end.

Definition tick (n : nat) (existing_jobs : Jobs) : M Jobs :=
  logger INFO running_update;;
  (if bool_decide (existing_jobs = ∅) then mret ()
   else logger INFO (found_existing_jobs (map_to_list existing_jobs).*1));;
  existing_jobs ← try_tick existing_jobs;
  let sleep_time := delay * 1000000 - elapsed n in
  (if bool_decide (0 < sleep_time) then emit (Sleep sleep_time) else mret ());;
  mret existing_jobs.

(** [fuel] turns of [while True], starting with tick [n]. *)
Fixpoint ticks (fuel n : nat) (existing_jobs : Jobs) : M Jobs :=
  match fuel with
  | O => mret existing_jobs
  | S fuel' =>
    write (environment n);;
    existing_jobs ← tick n (map_imap (λ k j, Some (poll n k j)) existing_jobs);
    ticks fuel' (S n) existing_jobs
  end.

Definition supervise (fuel : nat) : M Jobs :=
  let existing_jobs : Jobs := ∅ in
  mark_all_in_progress_cc_pairs_failed;;
  ticks fuel 0%nat existing_jobs.
End supervisor.

(** [update_loop], cut after [fuel] ticks: the value returned is the
    tracked-jobs map the next tick would start from.  The clients are the two
    of the world; [timeout_hours] is [CLEANUP_INDEXING_JOBS_TIMEOUT], the
    default of [cleanup_indexing_jobs]. *)
Definition update_loop (timeout_hours : Z) (environment : nat → Store → Store)
    (poll : nat → Z → Job.t → Job.t) (elapsed : nat → Z) (delay : Z)
    (fuel : nat) : M Jobs :=
  supervise check_index_swap
    (λ existing_jobs, cleanup_indexing_jobs existing_jobs timeout_hours)
    create_indexing_jobs
    (λ existing_jobs, kickoff_indexing_jobs existing_jobs client_primary client_secondary)
    environment poll elapsed delay fuel.

(** ** The vocabulary of the properties *)

(** The embedding model of the attempt is the PRESENT one. *)
Definition model_is_present (a : IndexAttempt.t) (db_session : Store) : bool :=
  bool_decide (EmbeddingModel.status <$> attempt_embedding_model a db_session
               = Some PRESENT).

Definition fail_cc_pair (c k : Z) (db_session : Store) : Store :=
  set_cc_pairs (fmap (λ p,
    if bool_decide (ConnectorCredentialPair.connector_id p = c
                  ∧ ConnectorCredentialPair.credential_id p = k)
    then ConnectorCredentialPair.with_status (Some FAILED) p else p)) db_session.

(** What [_mark_run_failed] emits. *)
Definition mark_run_failed_effects (a : IndexAttempt.t) (failure_reason : string)
    (db_session : Store) : list Event :=
  [Log WARNING (marking_attempt_as_failed (IndexAttempt.connector_id a)
                  (IndexAttempt.credential_id a) failure_reason);
   MarkAttemptFailed (IndexAttempt.id a) failure_reason]
  ++ match IndexAttempt.connector_id a, IndexAttempt.credential_id a with
     | Some c, Some k =>
       if model_is_present a db_session
       then [UpdateConnectorCredentialPair c k FAILED] else []
     | _, _ => []
     end.

Definition mark_rows (attempt_id : Z) (failure_reason : string) (now : Z)
    (rows : list IndexAttempt.t) : list IndexAttempt.t :=
  (λ r, if bool_decide (IndexAttempt.id r = attempt_id)
        then fail_row failure_reason now r else r) <$> rows.

(** What [_mark_run_failed] does to the pairs. *)
Definition mark_run_failed_cc (a : IndexAttempt.t) (db_session : Store)
    : Store → Store :=
  match IndexAttempt.connector_id a, IndexAttempt.credential_id a with
  | Some c, Some k =>
    if model_is_present a db_session then fail_cc_pair c k else id
  | _, _ => id
  end.

(** What a computation appends to the effects of the world it starts in. *)
Definition emitted {A} (m : M A) (w : World) : list Event :=
  drop (length (effects w)) (effects (after m w)).

Definition resync_event (p : ConnectorCredentialPair.t) : Event :=
  ResyncCCPair (ConnectorCredentialPair.connector_id p)
               (ConnectorCredentialPair.credential_id p).

Definition resync_store (p : ConnectorCredentialPair.t) (s : Store) : Store :=
  let c := ConnectorCredentialPair.connector_id p in
  let k := ConnectorCredentialPair.credential_id p in
  set_cc_pairs
    (fmap (λ q, if bool_decide (ConnectorCredentialPair.connector_id q = c
                              ∧ ConnectorCredentialPair.credential_id q = k)
                then ConnectorCredentialPair.with_status
                       (IndexAttempt.status <$> last (attempts_against_present c k s)) q
                else q)) s.

(** The models after the swap: [secondary] is PRESENT, [current] is PAST. *)
Definition swapped (current secondary : EmbeddingModel.t) (m : EmbeddingModel.t)
    : EmbeddingModel.t :=
  if bool_decide (EmbeddingModel.id m = EmbeddingModel.id secondary)
  then EmbeddingModel.with_status PRESENT m
  else if bool_decide (EmbeddingModel.id m = EmbeddingModel.id current)
  then EmbeddingModel.with_status PAST m
  else m.

(** The attempts with their statuses rewritten by [f], everything else kept. *)
Definition restatus (f : IndexAttempt.t → IndexingStatus) (s : Store) : Store :=
  set_index_attempts (fmap (λ a,
    {| IndexAttempt.id := IndexAttempt.id a;
       IndexAttempt.connector_id := IndexAttempt.connector_id a;
       IndexAttempt.credential_id := IndexAttempt.credential_id a;
       IndexAttempt.embedding_model_id := IndexAttempt.embedding_model_id a;
       IndexAttempt.status := f a;
       IndexAttempt.time_updated := IndexAttempt.time_updated a;
       IndexAttempt.failure_reason := IndexAttempt.failure_reason a |})) s.

Definition swap_decision (db_session : Store) : Outcome () :=
  match find_model_with_status FUTURE db_session with
  | None => Returned ()
  | Some secondary =>
    let eligible := Z.of_nat (length (cc_pairs db_session)) - 1 in
    let attempted := Z.of_nat (length (unique_cc_pairs_with_index_attempts
                                         (EmbeddingModel.id secondary) db_session)) in
    if bool_decide (eligible < attempted)
    then Raised (RuntimeError "More unique indexings than cc pairs, should not occur")
    else if bool_decide (eligible = attempted)
    then match find_model_with_status PRESENT db_session with
         | Some _ => Returned ()
         | None => Raised (RuntimeError "No PRESENT embedding model in the store")
         end
    else Returned ()
  end.

Definition set_db (f : Store → Store) (w : World) : World :=
  {| db := f (db w); config := config w; primary := primary w;
     secondary := secondary w; effects := effects w |}.

(** The events that act on the attempt [i] or on its handle. *)
Definition about (i : Z) (e : Event) : bool :=
  match e with
  | MarkAttemptFailed j _ | JobRelease j | JobCancel j | Submit _ j _ _ =>
    bool_decide (j = i)
  | _ => false
  end.

Definition rows_of (i : Z) (db_session : Store) : list IndexAttempt.t :=
  filter (λ r, IndexAttempt.id r = i) (index_attempts db_session).

(** [frame i w w']: from [w] to [w'] the rows of attempt [i] are untouched,
    nothing was emitted about [i], and the tables the loop never writes are
    the same. *)
Record frame (i : Z) (w w' : World) : Prop := mk_frame {
  frame_connectors : connectors (db w') = connectors (db w);
  frame_credentials : credentials (db w') = credentials (db w);
  frame_models : embedding_models (db w') = embedding_models (db w);
  frame_time : db_time (db w') = db_time (db w);
  frame_config : config w' = config w;
  frame_ids : IndexAttempt.id <$> index_attempts (db w')
              = IndexAttempt.id <$> index_attempts (db w);
  frame_rows : rows_of i (db w') = rows_of i (db w);
  frame_effects : ∃ es, effects w' = effects w ++ es
                      ∧ Forall (λ e, about i e = false) es
}.

(** Identifiers are unique across the store. *)
Definition unique_ids (db_session : Store) : Prop :=
  NoDup (IndexAttempt.id <$> index_attempts db_session).

(** Nothing in [es] acts on the attempt [i]. *)
Definition quiet (i : Z) (es : list Event) : Prop :=
  Forall (λ e, about i e = false) es.

(** [triple P m Q]: run in a world where [P] holds, [m] returns a value and
    a world related by [Q], or it raises. *)
Definition triple {A} (P : World → Prop) (m : M A) (Q : A → World → Prop) : Prop :=
  ∀ w, P w → match m w with
             | (Returned a, w') => Q a w'
             | (Raised _, _) => True
             end.

(** A float counted in units of [2 ^ -72]; an integer for every result of
    [total_seconds]. *)
Definition units (x : float) : Z := significand x * 2 ^ (exponent x + 72).

(** The attempt had no update for more than [timeout_hours] hours, on the
    comparison the stall check makes:
    [time_since_update.total_seconds() > 60 * 60 * timeout_hours]. *)
Definition stalled (timeout_hours : Z) (db_session : Store) (a : IndexAttempt.t)
    : Prop :=
  total_seconds_gt (get_db_current_time db_session - IndexAttempt.time_updated a)
                   (60 * 60 * timeout_hours) = true.

(** The error [create_indexing_jobs] logs for a tracked identifier without a
    row. *)
Definition missing_attempt_error (attempt_id : Z) : Event :=
  Log ERROR (unable_to_find_attempt_when_creating attempt_id).

(** A store in which attempt 7, of connector 1, credential 1 and the PRESENT
    model 10, is IN_PROGRESS and was last updated 1000 seconds ago, and the
    same store after the row of the attempt was deleted. *)
Definition store_with_attempt_7 : Store :=
  {| connectors := [Connector.mk 1 false (Some 60) [1]];
     credentials := [Credential.mk 1];
     cc_pairs := [ConnectorCredentialPair.mk 0 0 None;
                  ConnectorCredentialPair.mk 1 1 (Some IN_PROGRESS)];
     embedding_models := [EmbeddingModel.mk 10 PRESENT];
     index_attempts := [IndexAttempt.mk 7 (Some 1) (Some 1) 10 IN_PROGRESS 0 None];
     db_time := 1000000000 |}.

Definition store_without_attempt_7 : Store :=
  set_index_attempts (λ _, []) store_with_attempt_7.

(** A client that answers every submission with a pending handle. *)
Definition willing_client : Client :=
  {| submitted := []; respond := λ _ _, Some (Job.mk pending) |}.

Definition world_of (db_session : Store) : World :=
  {| db := db_session;
     config := {| MIN_THREADS_ML_MODELS := 1; torch_get_num_threads := 4 |};
     primary := willing_client; secondary := willing_client; effects := [] |}.

(** Attempt 7 is tracked by a handle that is still running. *)
Definition tracking_7 : Jobs := {[ 7 := Job.mk running ]}.

(** The events a component of the tick can emit: all but the startup call,
    the log records of the loop itself and the sleep. *)
Definition component_event (e : Event) : bool :=
  match e with
  | MarkAllInProgressCCPairsFailed | Sleep _
  | Log INFO running_update | Log INFO (found_existing_jobs _)
  | Log EXCEPTION _ => false
  | _ => true
  end.

(** [m] only appends to the effects, and only events that satisfy [P],
    whether it returns or raises. *)
Definition emits_only {A} (P : Event → bool) (m : M A) : Prop :=
  ∀ w, ∃ es, effects (after m w) = effects w ++ es ∧ Forall (λ e, P e = true) es.

(** The worlds a tick goes through besides those of its components: after the
    log records that open it, after the log record of [except], after the
    sleep that closes tick [n], and after the environment acted before tick
    [n]. *)
Definition tick_started (existing_jobs : Jobs) (w : World) : World :=
  after (logger INFO running_update;;
         if bool_decide (existing_jobs = ∅) then mret ()
         else logger INFO (found_existing_jobs (map_to_list existing_jobs).*1)) w.

Definition excepted (w : World) : World :=
  after (logger EXCEPTION failed_to_run_update) w.

Definition slept (elapsed : nat → Z) (delay : Z) (n : nat) (w : World) : World :=
  let sleep_time := delay * 1000000 - elapsed n in
  after (if bool_decide (0 < sleep_time) then emit (Sleep sleep_time) else mret ()) w.

Definition arrived (environment : nat → Store → Store) (n : nat) (w : World) : World :=
  after (write (environment n)) w.

Definition polled (poll : nat → Z → Job.t → Job.t) (n : nat) (existing_jobs : Jobs)
    : Jobs :=
  map_imap (λ k j, Some (poll n k j)) existing_jobs.

(** What a tick does from the world [w0] in which its [try] starts: the
    components in order, each in the world its predecessor left, and
    [existing_jobs] as last assigned when one of them raises. *)
Definition tick_in_order (swap : M unit) (reap : Jobs → M Jobs)
    (schedule : Jobs → M unit) (dispatch : Jobs → M Jobs)
    (existing_jobs : Jobs) (w0 : World) : Outcome Jobs * World :=
  match outcome swap w0 with
  | Raised _ => (Returned existing_jobs, excepted (after swap w0))
  | Returned _ =>
    let w1 := after swap w0 in
    match outcome (reap existing_jobs) w1 with
    | Raised _ => (Returned existing_jobs, excepted (after (reap existing_jobs) w1))
    | Returned reaped_jobs =>
      let w2 := after (reap existing_jobs) w1 in
      match outcome (schedule reaped_jobs) w2 with
      | Raised _ => (Returned reaped_jobs, excepted (after (schedule reaped_jobs) w2))
      | Returned _ =>
        let w3 := after (schedule reaped_jobs) w2 in
        match outcome (dispatch reaped_jobs) w3 with
        | Raised _ => (Returned reaped_jobs, excepted (after (dispatch reaped_jobs) w3))
        | Returned dispatched_jobs =>
          (Returned dispatched_jobs, after (dispatch reaped_jobs) w3)
        end
      end
    end
  end.

(** The number of ticks that started, as the log tells it. *)
Definition ticks_logged (es : list Event) : nat :=
  length (filter (λ e, e = Log INFO running_update) es).

(** The events that occur inside a tick after the log record that opens it. *)
Definition within_tick (e : Event) : bool :=
  match e with
  | MarkAllInProgressCCPairsFailed | Log INFO running_update => false
  | _ => true
  end.

Definition not_sleep (e : Event) : bool :=
  match e with
  | Sleep _ => false
  | _ => true
  end.

(** A store four hours after the last update of its two IN_PROGRESS attempts:
    attempt 7 has lost its connector and its credential, attempt 8 belongs to
    connector 1 and credential 1. *)
Definition store_with_orphans : Store :=
  {| connectors := [Connector.mk 1 false (Some 60) [1]];
     credentials := [Credential.mk 1];
     cc_pairs := [ConnectorCredentialPair.mk 0 0 None;
                  ConnectorCredentialPair.mk 1 1 (Some IN_PROGRESS)];
     embedding_models := [EmbeddingModel.mk 10 PRESENT];
     index_attempts := [IndexAttempt.mk 7 None None 10 IN_PROGRESS 0 None;
                        IndexAttempt.mk 8 (Some 1) (Some 1) 10 IN_PROGRESS 0 None];
     db_time := 14400000000 |}.

Definition attempt_7 : IndexAttempt.t :=
  IndexAttempt.mk 7 None None 10 IN_PROGRESS 0 None.

Definition attempt_8 : IndexAttempt.t :=
  IndexAttempt.mk 8 (Some 1) (Some 1) 10 IN_PROGRESS 0 None.

(** Both attempts are tracked by handles that are still running. *)
Definition tracking_7_and_8 : Jobs := {[ 7 := Job.mk running; 8 := Job.mk running ]}.

(** Every attempt refers to an embedding model of the store. *)
Definition attempts_have_models (db_session : Store) : Prop :=
  ∀ r, r ∈ index_attempts db_session →
       is_Some (attempt_embedding_model r db_session).

(** The cadence rule as the specification words it: an enabled connector
    with a [refresh_freq], whose last attempt is not NOT_STARTED and was
    updated in the past, is scheduled exactly when the time since that update
    is at least [refresh_freq] seconds. *)
Definition cadence_as_stated : Prop :=
  ∀ (connector : Connector.t) (last : IndexAttempt.t) (model : EmbeddingModel.t)
    (db_session : Store) (refresh_freq : Z),
    Connector.disabled connector = false →
    Connector.refresh_freq connector = Some refresh_freq →
    IndexAttempt.status last ≠ NOT_STARTED →
    IndexAttempt.time_updated last ≤ get_db_current_time db_session →
    (_should_create_new_indexing connector (Some last) model db_session = true
     ↔ refresh_freq * 1000000
       ≤ get_db_current_time db_session - IndexAttempt.time_updated last).

(** A connector refreshed every 20 000 000 000 seconds, some 634 years, and
    a store whose clock is one microsecond short of that. *)
Definition connector_of_centuries : Connector.t :=
  Connector.mk 1 false (Some 20000000000) [1].

Definition store_of_centuries : Store :=
  {| connectors := [connector_of_centuries];
     credentials := [Credential.mk 1];
     cc_pairs := [ConnectorCredentialPair.mk 0 0 None;
                  ConnectorCredentialPair.mk 1 1 (Some SUCCESS)];
     embedding_models := [EmbeddingModel.mk 10 PRESENT];
     index_attempts := [IndexAttempt.mk 4 (Some 1) (Some 1) 10 SUCCESS 0 None];
     db_time := 19999999999999999 |}.

(** [_mark_run_failed] as the specification words it: the row of the attempt
    is FAILED afterwards. *)
Definition mark_run_failed_as_stated : Prop :=
  ∀ (index_attempt : IndexAttempt.t) (failure_reason : string) (w : World),
    unique_ids (db w) →
    index_attempt ∈ index_attempts (db w) →
    ∃ r, lookup_index_attempt (IndexAttempt.id index_attempt)
           (db (after (_mark_run_failed index_attempt failure_reason) w))
         = Some r
       ∧ IndexAttempt.status r = FAILED.

(** A store in which attempt 5, of connector 1, credential 1 and the PRESENT
    model, has succeeded. *)
Definition attempt_5 : IndexAttempt.t :=
  IndexAttempt.mk 5 (Some 1) (Some 1) 10 SUCCESS 0 None.

Definition store_with_finished_attempt : Store :=
  {| connectors := [Connector.mk 1 false (Some 60) [1]];
     credentials := [Credential.mk 1];
     cc_pairs := [ConnectorCredentialPair.mk 0 0 None;
                  ConnectorCredentialPair.mk 1 1 (Some SUCCESS)];
     embedding_models := [EmbeddingModel.mk 10 PRESENT];
     index_attempts := [attempt_5];
     db_time := 1000000 |}.

(** The orphan sweep as the specification words it: every IN_PROGRESS attempt
    that is not tracked is FAILED, with the reason of the sweep, when
    [cleanup_indexing_jobs] returns. *)
Definition orphan_sweep_as_stated : Prop :=
  ∀ (existing_jobs : Jobs) (timeout_hours : Z) (w : World)
    (attempt : IndexAttempt.t),
    let cleanup := cleanup_indexing_jobs existing_jobs timeout_hours in
    unique_ids (db w) →
    attempts_have_models (db w) →
    attempt ∈ index_attempts (db w) →
    IndexAttempt.status attempt = IN_PROGRESS →
    existing_jobs !! IndexAttempt.id attempt = None →
    ∃ r, lookup_index_attempt (IndexAttempt.id attempt) (db (after cleanup w)) = Some r
       ∧ IndexAttempt.status r = FAILED
       ∧ IndexAttempt.failure_reason r = Some _UNEXPECTED_STATE_FAILURE_REASON.

(** The stall check as the specification words it: the handle of every
    tracked IN_PROGRESS attempt is cancelled exactly when the time since its
    last update exceeds [timeout_hours] hours. *)
Definition stall_check_as_stated : Prop :=
  ∀ (existing_jobs : Jobs) (timeout_hours : Z) (w : World)
    (attempt : IndexAttempt.t) (job : Job.t),
    let cleanup := cleanup_indexing_jobs existing_jobs timeout_hours in
    unique_ids (db w) →
    attempts_have_models (db w) →
    attempt ∈ index_attempts (db w) →
    IndexAttempt.status attempt = IN_PROGRESS →
    existing_jobs !! IndexAttempt.id attempt = Some job →
    Job.done job = false →
    (JobCancel (IndexAttempt.id attempt) ∈ emitted cleanup w
     ∧ MarkAttemptFailed (IndexAttempt.id attempt) _FROZEN_FAILURE_REASON
         ∈ emitted cleanup w
     ↔ 60 * 60 * timeout_hours * 1000000
       < get_db_current_time (db w) - IndexAttempt.time_updated attempt).

(** A store during a model migration: model 10 is PRESENT, model 20 FUTURE;
    besides the pair of the ingestion API there is one pair, which has a
    failed attempt against model 20.  Attempt 99 has lost its connector,
    attempt 98 its credential, and the embedding model of attempt 97 is
    missing. *)
Definition store_in_migration : Store :=
  {| connectors := [Connector.mk 1 true None [1]];
     credentials := [Credential.mk 1];
     cc_pairs := [ConnectorCredentialPair.mk 0 0 None;
                  ConnectorCredentialPair.mk 1 1 (Some SUCCESS)];
     embedding_models := [EmbeddingModel.mk 10 PRESENT; EmbeddingModel.mk 20 FUTURE];
     index_attempts :=
       [IndexAttempt.mk 3 (Some 1) (Some 1) 20 FAILED 0 (Some "boom"%string)];
     db_time := 1000000 |}.

Definition attempt_99 : IndexAttempt.t :=
  IndexAttempt.mk 99 (Some 5) (Some 1) 10 NOT_STARTED 0 None.
Definition attempt_98 : IndexAttempt.t :=
  IndexAttempt.mk 98 (Some 1) (Some 6) 10 NOT_STARTED 0 None.
Definition attempt_97 : IndexAttempt.t :=
  IndexAttempt.mk 97 (Some 1) (Some 1) 30 NOT_STARTED 0 None.
Definition attempt_96 : IndexAttempt.t :=
  IndexAttempt.mk 96 (Some 1) (Some 1) 20 NOT_STARTED 0 None.

Definition store_to_dispatch : Store :=
  set_index_attempts (λ _, [attempt_99; attempt_98; attempt_97; attempt_96])
    store_in_migration.

(** The world after the cancellation, if any, and the marking of [a]. *)
Definition reap_step (cancel : bool) (a : IndexAttempt.t) (failure_reason : string)
    (w : World) : World :=
  after (_mark_run_failed a failure_reason)
        (if cancel then after (job_cancel (IndexAttempt.id a)) w else w).

(** [a] was reaped on the way from [w0] to [w']: only that step was about it. *)
Definition reaped (cancel : bool) (a : IndexAttempt.t) (failure_reason : string)
    (w0 w' : World) : Prop :=
  ∃ w1, frame (IndexAttempt.id a) w0 w1
      ∧ frame (IndexAttempt.id a) (reap_step cancel a failure_reason w1) w'.

(** [returns P m Q]: run in a world where [P] holds, [m] does not raise: it
    returns a value and a world related by [Q]. *)
Definition returns {A} (P : World → Prop) (m : M A) (Q : A → World → Prop) : Prop :=
  ∀ w, P w → ∃ a w', m w = (Returned a, w') ∧ Q a w'.

(** The invariant under which the reaper does not raise: the table of models
    is [models] and every attempt refers to one of them. *)
Definition models_kept (models : list EmbeddingModel.t) (w : World) : Prop :=
  embedding_models (db w) = models ∧ attempts_have_models (db w).

Definition model_known (models : list EmbeddingModel.t) (a : IndexAttempt.t)
    : Prop :=
  is_Some (head (filter (λ m, EmbeddingModel.id m = IndexAttempt.embedding_model_id a)
                        models)).

(** The events of each component of a tick. *)
Definition swap_event (e : Event) : bool :=
  match e with
  | UpdateEmbeddingModelStatus _ _ | ResyncCCPair _ _ => true
  | _ => false
  end.

Definition reaper_event (e : Event) : bool :=
  match e with
  | Log ERROR (job_exception _)
  | Log ERROR (unable_to_find_attempt_when_cleaning _)
  | JobRelease _ | JobCancel _ => true
  | Log WARNING (marking_attempt_as_failed _ _ failure_reason)
  | MarkAttemptFailed _ failure_reason =>
    bool_decide (failure_reason = _UNEXPECTED_STATE_FAILURE_REASON
                 ∨ failure_reason = _FROZEN_FAILURE_REASON)
  | UpdateConnectorCredentialPair _ _ attempt_status =>
    bool_decide (attempt_status = FAILED)
  | _ => false
  end.

Definition scheduler_event (e : Event) : bool :=
  match e with
  | Log ERROR (unable_to_find_attempt_when_creating _)
  | CreateIndexAttempt _ _ _ => true
  | UpdateConnectorCredentialPair _ _ attempt_status =>
    bool_decide (attempt_status = NOT_STARTED)
  | _ => false
  end.

Definition dispatcher_event (e : Event) : bool :=
  match e with
  | Log INFO (found_new_indexing_tasks _)
  | Log INFO (kicked_off _ _)
  | Log WARNING (skipping_connector_deleted _)
  | Log WARNING (skipping_credential_deleted _)
  | Submit _ _ _ _ => true
  | MarkAttemptFailed _ failure_reason =>
    bool_decide (failure_reason = "Connector is null"%string
                 ∨ failure_reason = "Credential is null"%string)
  | _ => false
  end.

(** [m] takes the store along [S], whether it returns or raises. *)
Definition changes {A} (S : Store → Store → Prop) (m : M A) : Prop :=
  ∀ w, S (db w) (db (after m w)).

(** A row as the loop may leave it: as it was or, when it was not terminal,
    FAILED, with the identifiers it had. *)
Definition kept_or_failed (r r' : IndexAttempt.t) : Prop :=
  r' = r
  ∨ (terminal (IndexAttempt.status r) = false
     ∧ IndexAttempt.status r' = FAILED
     ∧ IndexAttempt.id r' = IndexAttempt.id r
     ∧ IndexAttempt.connector_id r' = IndexAttempt.connector_id r
     ∧ IndexAttempt.credential_id r' = IndexAttempt.credential_id r
     ∧ IndexAttempt.embedding_model_id r' = IndexAttempt.embedding_model_id r).

(** A pair as it was, or with the status [s]. *)
Definition kept_or_set (s : IndexingStatus) (p p' : ConnectorCredentialPair.t) : Prop :=
  p' = p ∨ p' = ConnectorCredentialPair.with_status (Some s) p.

(** From [s] to [s'] no row was created or deleted, rows only went to FAILED,
    pairs were only set to FAILED, and the other tables are the same. *)
Record only_fails (s s' : Store) : Prop := mk_only_fails {
  only_fails_connectors : connectors s' = connectors s;
  only_fails_credentials : credentials s' = credentials s;
  only_fails_models : embedding_models s' = embedding_models s;
  only_fails_time : db_time s' = db_time s;
  only_fails_rows : Forall2 kept_or_failed (index_attempts s) (index_attempts s');
  only_fails_pairs : Forall2 (kept_or_set FAILED) (cc_pairs s) (cc_pairs s')
}.

(** From [s] to [s'] rows were only appended, all NOT_STARTED, pairs were
    only set to NOT_STARTED, and the other tables are the same. *)
Record only_creates (s s' : Store) : Prop := mk_only_creates {
  only_creates_connectors : connectors s' = connectors s;
  only_creates_credentials : credentials s' = credentials s;
  only_creates_models : embedding_models s' = embedding_models s;
  only_creates_time : db_time s' = db_time s;
  only_creates_rows :
    ∃ created, index_attempts s' = index_attempts s ++ created
             ∧ Forall (λ r, IndexAttempt.status r = NOT_STARTED) created;
  only_creates_pairs : Forall2 (kept_or_set NOT_STARTED) (cc_pairs s) (cc_pairs s')
}.

(** From [s] to [s'] only statuses of models and of pairs changed. *)
Record only_restatuses (s s' : Store) : Prop := mk_only_restatuses {
  only_restatuses_connectors : connectors s' = connectors s;
  only_restatuses_credentials : credentials s' = credentials s;
  only_restatuses_rows : index_attempts s' = index_attempts s;
  only_restatuses_time : db_time s' = db_time s;
  only_restatuses_models :
    EmbeddingModel.id <$> embedding_models s' = EmbeddingModel.id <$> embedding_models s;
  only_restatuses_pairs :
    (λ p, (ConnectorCredentialPair.connector_id p,
           ConnectorCredentialPair.credential_id p)) <$> cc_pairs s'
    = (λ p, (ConnectorCredentialPair.connector_id p,
             ConnectorCredentialPair.credential_id p)) <$> cc_pairs s
}.

(** As [only_fails], and the pairs are the same. *)
Definition only_fails_attempts (s s' : Store) : Prop :=
  only_fails s s' ∧ cc_pairs s' = cc_pairs s.

(** An event of the dispatcher that acts on an attempt acts on one of [ids],
    and a submission carries the number of threads of the configuration. *)
Definition dispatched_among (ids : list Z) (cfg : Config) (e : Event) : Prop :=
  match e with
  | Submit _ attempt_id num_threads _ =>
    attempt_id ∈ ids
    ∧ num_threads = Z.max (MIN_THREADS_ML_MODELS cfg) (torch_get_num_threads cfg)
  | MarkAttemptFailed attempt_id _ => attempt_id ∈ ids
  | _ => True
  end.

Definition not_release (e : Event) : bool :=
  match e with
  | JobRelease _ => false
  | _ => true
  end.

(** The in-progress sweep of [cleanup_indexing_jobs], over the connectors
    [cs]. *)
Definition cleanup_inprogress_sweep (existing_jobs : Jobs) (timeout_hours : Z)
    (cs : list Connector.t) : M unit :=
  for_ cs (λ connector,
    in_progress_indexing_attempts ←
      get_inprogress_index_attempts (Connector.id connector);
    for_ in_progress_indexing_attempts
      (cleanup_inprogress_attempt existing_jobs timeout_hours)).

(** Whether the tracked sweep keeps the handle [job] of the attempt
    [attempt_id]: the condition of its [continue]. *)
Definition kept (attempt_id : Z) (job : Job.t) (db_session : Store) : bool :=
  negb (Job.done job)
  && negb (_is_indexing_job_marked_as_finished
             (lookup_index_attempt attempt_id db_session)).

(** The body of the innermost loop of [create_indexing_jobs]: the visit of
    one connector, credential and model. *)
Definition create_indexing_jobs_visit (ongoing : gset Triple)
    (connector : Connector.t) (credential_id : Z) (model : EmbeddingModel.t)
    : M unit :=
  if bool_decide ((Some (Connector.id connector), Some credential_id,
                   EmbeddingModel.id model) ∈ ongoing)
  then mret ()
  else
    last_attempt ← get_last_attempt (Connector.id connector) credential_id
                     (EmbeddingModel.id model);
    db_session ← gets id;
    if negb (_should_create_new_indexing connector last_attempt model db_session)
    then mret ()
    else
      create_index_attempt (Connector.id connector) credential_id
        (EmbeddingModel.id model);;
      if bool_decide (EmbeddingModel.status model = PRESENT)
      then update_connector_credential_pair (Connector.id connector)
             credential_id NOT_STARTED
      else mret ().

(** The three loops of [create_indexing_jobs] over the connectors [cs] and
    the models [models]. *)
Definition create_indexing_jobs_visits (ongoing : gset Triple)
    (cs : list Connector.t) (models : list EmbeddingModel.t) : M unit :=
  for_ cs (λ connector,
    for_ (Connector.credentials connector) (λ credential_id,
      for_ models (λ model,
        create_indexing_jobs_visit ongoing connector credential_id model))).

(** The list [embedding_models] of [create_indexing_jobs]: the current model,
    then the secondary one if there is one. *)
Definition scheduled_models (db_session : Store) : list EmbeddingModel.t :=
  match find_model_with_status PRESENT db_session with
  | Some current =>
    [current] ++ match find_model_with_status FUTURE db_session with
                 | Some m => [m]
                 | None => []
                 end
  | None => []
  end.

(** The triples of the tracked attempts that have a row: the set [ongoing]
    of [create_indexing_jobs], as a predicate. *)
Definition tracked_triple (existing_jobs : Jobs) (db_session : Store) (t : Triple)
    : Prop :=
  ∃ attempt_id attempt,
    is_Some (existing_jobs !! attempt_id)
    ∧ lookup_index_attempt attempt_id db_session = Some attempt
    ∧ t = triple_of attempt.

(** The visit of the connector, credential and model would create nothing
    in the store [db_session]. *)
Definition settled (ongoing : gset Triple) (db_session : Store)
    (connector : Connector.t) (credential_id : Z) (model : EmbeddingModel.t)
    : Prop :=
  (Some (Connector.id connector), Some credential_id, EmbeddingModel.id model)
    ∈ ongoing
  ∨ _should_create_new_indexing connector
      (last (attempts_of_triple (Connector.id connector) credential_id
               (EmbeddingModel.id model) db_session))
      model db_session = false.

(** What the scheduler may emit for the connectors [cs] and the models
    [models] with the set [ongoing]: an attempt is created for a connector of
    [cs], one of its credentials and a model of [models], for a triple that
    is not in [ongoing], and for a disabled connector only against a FUTURE
    model; a pair is set to NOT_STARTED only, and only for a model that is
    PRESENT. *)
Definition scheduled (ongoing : gset Triple) (cs : list Connector.t)
    (models : list EmbeddingModel.t) (e : Event) : Prop :=
  match e with
  | CreateIndexAttempt c k m =>
    ((Some c, Some k, m) ∉ ongoing)
    ∧ ∃ connector model,
        connector ∈ cs ∧ Connector.id connector = c
        ∧ k ∈ Connector.credentials connector
        ∧ model ∈ models ∧ EmbeddingModel.id model = m
        ∧ (Connector.disabled connector = true →
           EmbeddingModel.status model = FUTURE ∧ c ≠ 0)
  | UpdateConnectorCredentialPair c k s =>
    s = NOT_STARTED
    ∧ ∃ connector model,
        connector ∈ cs ∧ Connector.id connector = c
        ∧ k ∈ Connector.credentials connector
        ∧ model ∈ models ∧ EmbeddingModel.status model = PRESENT
  | _ => True
  end.

(** [m] only appends to the effects, and only events that satisfy [P],
    whether it returns or raises. *)
Definition emits_in {A} (P : Event → Prop) (m : M A) : Prop :=
  ∀ w, ∃ es, effects (after m w) = effects w ++ es ∧ Forall P es.

(** The row [create_index_attempt] appends. *)
Definition created_row (connector_id credential_id embedding_model_id : Z)
    (db_session : Store) : IndexAttempt.t :=
  {| IndexAttempt.id := fresh_attempt_id db_session;
     IndexAttempt.connector_id := Some connector_id;
     IndexAttempt.credential_id := Some credential_id;
     IndexAttempt.embedding_model_id := embedding_model_id;
     IndexAttempt.status := NOT_STARTED;
     IndexAttempt.time_updated := db_time db_session;
     IndexAttempt.failure_reason := None |}.

(** The triples for which [es] records the creation of an attempt. *)
Definition created_triples (es : list Event) : list (Z * Z * Z) :=
  omap (λ e, match e with
             | CreateIndexAttempt c k m => Some (c, k, m)
             | _ => None
             end) es.

(** The last attempt of the triple is NOT_STARTED. *)
Definition queued (db_session : Store) (t : Z * Z * Z) : Prop :=
  ∃ r, last (attempts_of_triple t.1.1 t.1.2 t.2 db_session) = Some r
     ∧ IndexAttempt.status r = NOT_STARTED.

(** [m] raises no exception but those of [E]. *)
Definition raises_only {A} (E : Exn → Prop) (m : M A) : Prop :=
  ∀ w e, outcome m w = Raised e → E e.

(** The store during a migration, with the ingestion pseudo-connector: the
    connector 0, enabled, with the credential 0. *)
Definition store_with_ingestion : Store :=
  {| connectors := [Connector.mk 0 false (Some 60) [0]; Connector.mk 1 true None [1]];
     credentials := [Credential.mk 0; Credential.mk 1];
     cc_pairs := cc_pairs store_in_migration;
     embedding_models := embedding_models store_in_migration;
     index_attempts := index_attempts store_in_migration;
     db_time := db_time store_in_migration |}.

(** * Properties *)

(** ** [timedelta.total_seconds()] *)

(** Three quotients as Python prints them with [float.hex]:
    [(1 / 10**6).hex()] is [0x1.0c6f7a0b5ed8dp-20], [(100000 / 10**6).hex()]
    is [0x1.999999999999ap-4], and [(19999999999999999 / 10**6).hex()] is
    [0x1.2a05f20000000p+34], the float [20000000000.0]. *)
Lemma total_seconds_examples :
  total_seconds 1 = {| significand := 0x10c6f7a0b5ed8d; exponent := -72 |}
  ∧ total_seconds 100000 = {| significand := 0x1999999999999a; exponent := -56 |}
  ∧ total_seconds 19999999999999999
    = {| significand := 0x12a05f20000000; exponent := -18 |}.
Proof. by vm_compute. Qed.

(** *** Rounding to the nearest float *)

Ltac euclid a b :=
  let Hdm := fresh "Hdm" in
  let Hrem := fresh "Hrem" in
  pose proof (Z.div_mod a b ltac:(lia)) as Hdm;
  pose proof (Z.mod_pos_bound a b ltac:(lia)) as Hrem;
  unfold round_half_even;
  generalize dependent (a mod b); generalize dependent (a / b).

Lemma round_half_even_bounds a b :
  0 < b → a / b ≤ round_half_even a b ≤ a / b + 1.
Proof.
  intros Hb. unfold round_half_even. repeat case_decide; try lia.
  destruct (Z.even _); lia.
Qed.

Lemma round_half_even_ge a b c : 0 < b → c * b ≤ a → c ≤ round_half_even a b.
Proof.
  intros Hb Hc. pose proof (round_half_even_bounds a b Hb).
  assert (c ≤ a / b) by (by apply Z.div_le_lower_bound; lia). lia.
Qed.

Lemma round_half_even_le a b c : 0 < b → a ≤ c * b → round_half_even a b ≤ c.
Proof.
  intros Hb Hc. euclid a b. intros q r Hdm Hrem.
  repeat case_decide; try destruct (Z.even q); nia.
Qed.

Lemma round_half_even_lt a b c :
  0 < b → 2 * a < (2 * c - 1) * b → round_half_even a b < c.
Proof.
  intros Hb Hc. euclid a b. intros q r Hdm Hrem.
  repeat case_decide; try destruct (Z.even q); nia.
Qed.

Lemma round_half_even_gt a b c :
  0 < b → (2 * c + 1) * b < 2 * a → c < round_half_even a b.
Proof.
  intros Hb Hc. euclid a b. intros q r Hdm Hrem.
  repeat case_decide; try destruct (Z.even q); nia.
Qed.

Lemma round_half_even_mono a a' b :
  0 < b → a ≤ a' → round_half_even a b ≤ round_half_even a' b.
Proof.
  intros Hb Ha.
  destruct (decide (a / b = a' / b)) as [Heq|Hne].
  - pose proof (Z.div_mod a b ltac:(lia)) as Hdm.
    pose proof (Z.div_mod a' b ltac:(lia)) as Hdm'.
    unfold round_half_even. rewrite <- Heq in *.
    assert (a mod b ≤ a' mod b) by lia.
    repeat case_decide; try destruct (Z.even _); lia.
  - pose proof (Z.div_le_mono a a' b Hb Ha).
    pose proof (round_half_even_bounds a b Hb).
    pose proof (round_half_even_bounds a' b Hb). lia.
Qed.

(** The binade of a positive quotient. *)
Lemma int_truediv_us_binade a :
  0 < a →
  let shift := Z.log2 (a * 2 ^ 72 / 1000000) - 52 in
  0 ≤ shift
  ∧ 2 ^ 52 * (1000000 * 2 ^ shift) ≤ a * 2 ^ 72 < 2 ^ 53 * (1000000 * 2 ^ shift).
Proof.
  intros Ha.
  pose proof (Z.div_mod (a * 2 ^ 72) 1000000 ltac:(lia)) as Hdm.
  pose proof (Z.mod_pos_bound (a * 2 ^ 72) 1000000 ltac:(lia)) as Hrem.
  set (y := a * 2 ^ 72 / 1000000) in *. simpl.
  assert (Hy : 2 ^ 52 ≤ y).
  { apply Z.div_le_lower_bound; [lia|].
    change (2 ^ 72) with (2 ^ 52 * 1048576). nia. }
  pose proof (Z.log2_le_mono _ _ Hy) as Hl.
  rewrite Z.log2_pow2 in Hl by lia.
  split; [lia|].
  destruct (Z.log2_spec y) as [Hlo Hhi]; [lia|].
  replace (Z.succ (Z.log2 y)) with (53 + (Z.log2 y - 52)) in Hhi by lia.
  replace (Z.log2 y) with (52 + (Z.log2 y - 52)) in Hlo at 1 by lia.
  rewrite Z.pow_add_r in Hlo, Hhi by lia.
  generalize dependent (2 ^ (Z.log2 y - 52)). intros p Hlo Hhi.
  change (2 ^ 52) with 4503599627370496 in *.
  change (2 ^ 53) with 9007199254740992 in *.
  lia.
Qed.

Lemma units_int_truediv_us a :
  0 < a →
  let shift := Z.log2 (a * 2 ^ 72 / 1000000) - 52 in
  units (int_truediv_us a)
  = round_half_even (a * 2 ^ 72) (1000000 * 2 ^ shift) * 2 ^ shift.
Proof.
  intros Ha shift. unfold units, int_truediv_us. simpl. fold shift.
  by replace (shift - 72 + 72) with shift by lia.
Qed.

(** The significand has 53 bits, or is [2 ^ 53]. *)
Lemma significand_int_truediv_us a :
  0 < a →
  2 ^ 52 ≤ significand (int_truediv_us a) ≤ 2 ^ 53.
Proof.
  intros Ha. destruct (int_truediv_us_binade a Ha) as [Hshift [Hlo Hhi]].
  unfold int_truediv_us. simpl.
  set (shift := Z.log2 (a * 2 ^ 72 / 1000000) - 52) in *.
  assert (0 < 2 ^ shift) by (apply Z.pow_pos_nonneg; lia).
  split.
  - apply round_half_even_ge; lia.
  - apply round_half_even_le; lia.
Qed.

Lemma round_half_even_cancel a b p :
  0 < b → 0 < p → round_half_even (a * p) (b * p) = round_half_even a b.
Proof.
  intros Hb Hp. unfold round_half_even.
  rewrite Z.div_mul_cancel_r, Z.mul_mod_distr_r by lia.
  repeat case_decide; try done; nia.
Qed.

(** Below [2 ^ 34] seconds the float decides as the count of microseconds
    does: there the floats are less than a microsecond apart. *)
Lemma units_int_truediv_us_exact a n :
  0 < a → n < 2 ^ 34 →
  (n * 2 ^ 72 ≤ units (int_truediv_us a) ↔ n * 1000000 ≤ a)
  ∧ (n * 2 ^ 72 < units (int_truediv_us a) ↔ n * 1000000 < a).
Proof.
  intros Ha Hn.
  rewrite units_int_truediv_us by done.
  destruct (int_truediv_us_binade a Ha) as [Hshift [Hlo Hhi]].
  set (shift := Z.log2 (a * 2 ^ 72 / 1000000) - 52) in *.
  assert (Hp : 0 < 2 ^ shift) by (apply Z.pow_pos_nonneg; lia).
  assert (Hm : 2 ^ 52 ≤ round_half_even (a * 2 ^ 72) (1000000 * 2 ^ shift))
    by (apply round_half_even_ge; lia).
  destruct (decide (shift ≤ 53)) as [Hsmall|Hlarge].
  - assert (Hq : 2 ^ 72 = 2 ^ (72 - shift) * 2 ^ shift)
      by (rewrite <- Z.pow_add_r by lia; f_equal; lia).
    assert (Hq19 : 2 ^ 19 ≤ 2 ^ (72 - shift))
      by (apply Z.pow_le_mono_r; lia).
    rewrite Hq, !Z.mul_assoc, round_half_even_cancel by lia.
    clear Hlo Hhi Hm Hq.
    generalize dependent (2 ^ (72 - shift)). intros q Hq19.
    generalize dependent (2 ^ shift). intros p Hp.
    change (2 ^ 19) with 524288 in Hq19.
    rewrite <- Z.mul_le_mono_pos_r, <- Z.mul_lt_mono_pos_r by done.
    split; split.
    + intros Hle. apply Z.nlt_ge. intros Hlt.
      assert (round_half_even (a * q) 1000000 < n * q)
        by (apply round_half_even_lt; nia).
      lia.
    + intros Hle. apply round_half_even_ge; nia.
    + intros Hlt. apply Z.nle_gt. intros Hle.
      assert (round_half_even (a * q) 1000000 ≤ n * q)
        by (apply round_half_even_le; nia).
      lia.
    + intros Hlt. apply round_half_even_gt; nia.
  - assert (Hp54 : 2 ^ 54 ≤ 2 ^ shift) by (apply Z.pow_le_mono_r; lia).
    generalize dependent (round_half_even (a * 2 ^ 72) (1000000 * 2 ^ shift)).
    generalize dependent (2 ^ shift). intros p Hp Hlo Hhi Hp54 m Hm.
    change (2 ^ 72) with 4722366482869645213696 in *.
    change (2 ^ 52) with 4503599627370496 in *.
    change (2 ^ 54) with 18014398509481984 in *.
    change (2 ^ 34) with 17179869184 in *.
    split; split; intros _; nia.
Qed.

Lemma units_int_truediv_us_mono a a' :
  0 < a → a ≤ a' → units (int_truediv_us a) ≤ units (int_truediv_us a').
Proof.
  intros Ha Hle.
  rewrite !units_int_truediv_us by lia.
  destruct (int_truediv_us_binade a Ha) as [Hshift [Hlo Hhi]].
  destruct (int_truediv_us_binade a' ltac:(lia)) as [Hshift' [Hlo' Hhi']].
  assert (Hmono : Z.log2 (a * 2 ^ 72 / 1000000) - 52
                  ≤ Z.log2 (a' * 2 ^ 72 / 1000000) - 52).
  { apply Z.sub_le_mono_r, Z.log2_le_mono, Z.div_le_mono; [lia|].
    apply Z.mul_le_mono_nonneg_r; lia. }
  set (shift := Z.log2 (a * 2 ^ 72 / 1000000) - 52) in *.
  set (shift' := Z.log2 (a' * 2 ^ 72 / 1000000) - 52) in *.
  assert (Hp : 0 < 2 ^ shift) by (apply Z.pow_pos_nonneg; lia).
  assert (Hp' : 0 < 2 ^ shift') by (apply Z.pow_pos_nonneg; lia).
  destruct (decide (shift = shift')) as [<-|Hne].
  - apply Z.mul_le_mono_nonneg_r; [lia|].
    apply round_half_even_mono; [lia|].
    apply Z.mul_le_mono_nonneg_r; lia.
  - assert (Hm : round_half_even (a * 2 ^ 72) (1000000 * 2 ^ shift) ≤ 2 ^ 53)
      by (apply round_half_even_le; lia).
    assert (Hm' : 2 ^ 52 ≤ round_half_even (a' * 2 ^ 72) (1000000 * 2 ^ shift'))
      by (apply round_half_even_ge; lia).
    assert (Hpp : 2 * 2 ^ shift ≤ 2 ^ shift').
    { change (2 * 2 ^ shift) with (2 ^ 1 * 2 ^ shift).
      rewrite <- Z.pow_add_r by lia. apply Z.pow_le_mono_r; lia. }
    generalize dependent (round_half_even (a * 2 ^ 72) (1000000 * 2 ^ shift)).
    generalize dependent (round_half_even (a' * 2 ^ 72) (1000000 * 2 ^ shift')).
    generalize dependent (2 ^ shift). generalize dependent (2 ^ shift').
    change (2 ^ 52) with 4503599627370496 in *.
    change (2 ^ 53) with 9007199254740992 in *.
    intros. nia.
Qed.

Lemma exponent_total_seconds timedelta : -72 ≤ exponent (total_seconds timedelta).
Proof.
  destruct timedelta as [|a|a]; [simpl; lia| |];
    pose proof (int_truediv_us_binade (Z.pos a) eq_refl) as [Hshift _];
    cbn [total_seconds exponent int_truediv_us];
    change (- Z.neg a) with (Z.pos a); lia.
Qed.

Lemma units_total_seconds timedelta :
  units (total_seconds timedelta)
  = if decide (0 < timedelta) then units (int_truediv_us timedelta)
    else if decide (timedelta < 0) then - units (int_truediv_us (- timedelta))
    else 0.
Proof.
  destruct timedelta as [|a|a]; simpl; [done|done|].
  unfold units. simpl. lia.
Qed.

(** A comparison of a float with an integer, in units of [2 ^ -72]. *)
Lemma float_cmp_int_units x n :
  -72 ≤ exponent x →
  (float_ge_int x n = true ↔ n * 2 ^ 72 ≤ units x)
  ∧ (float_gt_int x n = true ↔ n * 2 ^ 72 < units x).
Proof.
  intros He. unfold float_ge_int, float_gt_int, units.
  rewrite !bool_decide_eq_true.
  destruct (decide (0 ≤ exponent x)) as [Hpos|Hneg].
  - rewrite Z.max_l, Z.max_r by lia. rewrite Z.pow_add_r by lia.
    change (2 ^ 0) with 1. rewrite Z.mul_1_r, Z.mul_assoc.
    by rewrite <- Z.mul_le_mono_pos_r, <- Z.mul_lt_mono_pos_r by lia.
  - rewrite Z.max_r, Z.max_l by lia. change (2 ^ 0) with 1. rewrite Z.mul_1_r.
    assert (Hq : 2 ^ 72 = 2 ^ (- exponent x) * 2 ^ (exponent x + 72))
      by (rewrite <- Z.pow_add_r by lia; f_equal; lia).
    assert (0 < 2 ^ (exponent x + 72)) by (apply Z.pow_pos_nonneg; lia).
    rewrite Hq, Z.mul_assoc.
    by rewrite <- Z.mul_le_mono_pos_r, <- Z.mul_lt_mono_pos_r by lia.
Qed.

Lemma units_int_truediv_us_pos a : 0 < a → 0 < units (int_truediv_us a).
Proof.
  intros Ha. apply (units_int_truediv_us_exact a 0); lia.
Qed.

Lemma total_seconds_ge_units timedelta n :
  total_seconds_ge timedelta n = true ↔ n * 2 ^ 72 ≤ units (total_seconds timedelta).
Proof. apply float_cmp_int_units, exponent_total_seconds. Qed.

Lemma total_seconds_gt_units timedelta n :
  total_seconds_gt timedelta n = true ↔ n * 2 ^ 72 < units (total_seconds timedelta).
Proof. apply float_cmp_int_units, exponent_total_seconds. Qed.

(** Below [2 ^ 34] seconds, about 544 years, [total_seconds()] compares with
    an integer number of seconds as the count of microseconds does. *)
Lemma total_seconds_exact timedelta n :
  Z.abs n < 2 ^ 34 →
  (total_seconds_ge timedelta n = true ↔ n * 1000000 ≤ timedelta)
  ∧ (total_seconds_gt timedelta n = true ↔ n * 1000000 < timedelta).
Proof.
  intros Hn. rewrite total_seconds_ge_units, total_seconds_gt_units, units_total_seconds.
  destruct (decide (0 < timedelta)) as [Hpos|Hnpos].
  - apply units_int_truediv_us_exact; lia.
  - destruct (decide (timedelta < 0)) as [Hneg|Hnneg]; [|lia].
    destruct (units_int_truediv_us_exact (- timedelta) (- n)) as [Hge Hgt]; lia.
Qed.

Lemma total_seconds_ge_spec timedelta n :
  Z.abs n < 2 ^ 34 →
  total_seconds_ge timedelta n = true ↔ n * 1000000 ≤ timedelta.
Proof. intros Hn. by apply total_seconds_exact. Qed.

Lemma total_seconds_gt_spec timedelta n :
  Z.abs n < 2 ^ 34 →
  total_seconds_gt timedelta n = true ↔ n * 1000000 < timedelta.
Proof. intros Hn. by apply total_seconds_exact. Qed.

(** Rounding keeps the order. *)
Lemma units_total_seconds_mono timedelta timedelta' :
  timedelta ≤ timedelta' →
  units (total_seconds timedelta) ≤ units (total_seconds timedelta').
Proof.
  intros Hle. rewrite !units_total_seconds.
  repeat case_decide; try lia.
  - by apply units_int_truediv_us_mono.
  - pose proof (units_int_truediv_us_pos (- timedelta)).
    pose proof (units_int_truediv_us_pos timedelta'). lia.
  - pose proof (units_int_truediv_us_mono (- timedelta') (- timedelta)). lia.
  - pose proof (units_int_truediv_us_pos (- timedelta)). lia.
  - pose proof (units_int_truediv_us_pos timedelta'). lia.
Qed.

Lemma total_seconds_ge_mono timedelta timedelta' n :
  timedelta ≤ timedelta' →
  total_seconds_ge timedelta n = true → total_seconds_ge timedelta' n = true.
Proof.
  intros Hle. rewrite !total_seconds_ge_units.
  pose proof (units_total_seconds_mono _ _ Hle). lia.
Qed.

Lemma total_seconds_gt_mono timedelta timedelta' n :
  timedelta ≤ timedelta' →
  total_seconds_gt timedelta n = true → total_seconds_gt timedelta' n = true.
Proof.
  intros Hle. rewrite !total_seconds_gt_units.
  pose proof (units_total_seconds_mono _ _ Hle). lia.
Qed.

(** ** The scheduling decision *)

Lemma should_create_no_last connector model db_session :
  EmbeddingModel.status model = FUTURE →
  _should_create_new_indexing connector None model db_session
  = negb (bool_decide (Connector.id connector = 0)).
Proof.
  intros Hfuture. unfold _should_create_new_indexing.
  rewrite (bool_decide_eq_true_2 _ Hfuture).
  rewrite (bool_decide_eq_true_2 (None = None) eq_refl). simpl.
  by case_bool_decide.
Qed.

Lemma should_create_with_last connector last model db_session :
  _should_create_new_indexing connector (Some last) model db_session
  = negb (Connector.disabled connector)
    && match Connector.refresh_freq connector with
       | None => false
       | Some refresh_freq =>
         negb (bool_decide (IndexAttempt.status last = NOT_STARTED))
         && total_seconds_ge
              (get_db_current_time db_session - IndexAttempt.time_updated last)
              refresh_freq
       end.
Proof.
  unfold _should_create_new_indexing.
  rewrite (bool_decide_eq_false_2 (Some last = None)) by done.
  rewrite andb_false_r.
  destruct (Connector.disabled connector); [done|]. simpl.
  destruct (Connector.refresh_freq connector); [|done].
  by case_bool_decide.
Qed.

(** C2. Against a FUTURE model and without a prior attempt, a connector is
    scheduled exactly when it is not the ingestion pseudo-connector (id 0),
    whatever its [disabled] flag and [refresh_freq]: a disabled connector is
    scheduled, the pseudo-connector is not. *)
Theorem should_create_future_first_build
    (connector : Connector.t) (model : EmbeddingModel.t) (db_session : Store) :
  EmbeddingModel.status model = FUTURE →
  (_should_create_new_indexing connector None model db_session = true
   ↔ Connector.id connector ≠ 0)
  ∧ (Connector.disabled connector = true → Connector.id connector ≠ 0 →
     _should_create_new_indexing connector None model db_session = true)
  ∧ (Connector.id connector = 0 →
     _should_create_new_indexing connector None model db_session = false).
Proof.
  intros Hfuture. rewrite (should_create_no_last _ _ _ Hfuture).
  case_bool_decide; simpl; naive_solver.
Qed.

(** C3. With a last attempt, a NOT_STARTED one never schedules; for an enabled
    connector with a [refresh_freq] and a last attempt in another status, the
    connector is scheduled exactly when [total_seconds()] of the time since
    the last update is at least [refresh_freq].  For a [refresh_freq] below
    [2 ^ 34] seconds that is: exactly when the time since the last update is
    at least [refresh_freq] seconds, so that equality schedules; and
    [refresh_freq = 0] schedules whenever the last update is not in the
    future. *)
Theorem should_create_cadence
    (connector : Connector.t) (last : IndexAttempt.t) (model : EmbeddingModel.t)
    (db_session : Store) :
  let time_since_index :=
    get_db_current_time db_session - IndexAttempt.time_updated last in
  let scheduled :=
    _should_create_new_indexing connector (Some last) model db_session in
  (IndexAttempt.status last = NOT_STARTED → scheduled = false)
  ∧ (∀ refresh_freq : Z,
       Connector.disabled connector = false →
       Connector.refresh_freq connector = Some refresh_freq →
       IndexAttempt.status last ≠ NOT_STARTED →
         scheduled = float_ge_int (total_seconds time_since_index) refresh_freq
       ∧ (Z.abs refresh_freq < 2 ^ 34 →
          (scheduled = true ↔ refresh_freq * 1000000 ≤ time_since_index)
          ∧ (time_since_index = refresh_freq * 1000000 → scheduled = true))
       ∧ (refresh_freq = 0 →
          IndexAttempt.time_updated last ≤ get_db_current_time db_session →
          scheduled = true)).
Proof.
  intros time_since_index scheduled. unfold scheduled.
  rewrite should_create_with_last. split.
  - intros Hns. destruct (Connector.disabled connector); [done|]. simpl.
    destruct (Connector.refresh_freq connector); [|done].
    by rewrite (bool_decide_eq_true_2 _ Hns).
  - intros refresh_freq Henabled Hfreq Hns. rewrite Henabled, Hfreq. simpl.
    rewrite (bool_decide_eq_false_2 _ Hns). simpl.
    fold time_since_index. split_and!.
    + done.
    + intros Hbound. rewrite total_seconds_ge_spec by done. split; [done|lia].
    + intros -> Hpast. apply total_seconds_ge_spec; [done|].
      unfold time_since_index. lia.
Qed.

(** ** Running computations *)

Lemma run_bind {A B} (m : M A) (f : A → M B) (w : World) :
  (m ≫= f) w = match m w with
               | (Returned a, w') => f a w'
               | (Raised e, w') => (Raised e, w')
               end.
Proof. reflexivity. Qed.

Lemma run_ret {A} (a : A) (w : World) : (mret a : M A) w = (Returned a, w).
Proof. reflexivity. Qed.

Lemma for_fold_cons {A S} (x : A) (xs : list A) (acc : S) (body : A → S → M S) :
  for_fold (x :: xs) acc body = (body x acc ≫= λ acc', for_fold xs acc' body).
Proof. reflexivity. Qed.

Lemma for_fold_app {A S} (xs ys : list A) (acc : S) (body : A → S → M S) (w : World) :
  for_fold (xs ++ ys) acc body w
  = match for_fold xs acc body w with
    | (Returned acc', w') => for_fold ys acc' body w'
    | (Raised e, w') => (Raised e, w')
    end.
Proof.
  revert acc w. induction xs as [|x xs IH]; intros acc w; [done|].
  simpl. rewrite !run_bind. destruct (body x acc w) as [[acc'|e] w']; [|done].
  apply IH.
Qed.

(** A loop invariant: [I] holds of the accumulator and the world as long as
    the loop runs, and [J] of the world in which a turn raises. *)
Lemma for_fold_invariant {A S} (I : S → World → Prop) (J : World → Prop)
    (xs : list A) (body : A → S → M S) (acc : S) (w : World) :
  I acc w →
  (∀ x acc w, x ∈ xs → I acc w →
     match body x acc w with
     | (Returned acc', w') => I acc' w'
     | (Raised _, w') => J w'
     end) →
  match for_fold xs acc body w with
  | (Returned acc', w') => I acc' w'
  | (Raised _, w') => J w'
  end.
Proof.
  revert acc w. induction xs as [|x xs IH]; intros acc w HI Hbody; [done|].
  rewrite for_fold_cons, run_bind.
  pose proof (Hbody x acc w (list_elem_of_here _ _) HI) as Hx.
  destruct (body x acc w) as [[acc'|e] w']; [|done].
  apply IH; [done|]. intros y acc1 w1 Hy. apply Hbody. by apply list_elem_of_further.
Qed.

Ltac run :=
  unfold after, outcome, logger, emit, write, gets, raise;
  repeat (rewrite ?run_bind, ?run_ret; simpl).

(** ** Marking a run as failed *)

Lemma fail_row_idemp failure_reason now r :
  fail_row failure_reason now (fail_row failure_reason now r)
  = fail_row failure_reason now r.
Proof. unfold fail_row. by destruct (terminal (IndexAttempt.status r)) eqn:E; simpl; rewrite ?E. Qed.

Lemma fail_row_id failure_reason now r :
  IndexAttempt.id (fail_row failure_reason now r) = IndexAttempt.id r.
Proof. unfold fail_row. by destruct (terminal _). Qed.

Lemma fail_row_model failure_reason now r :
  IndexAttempt.embedding_model_id (fail_row failure_reason now r)
  = IndexAttempt.embedding_model_id r.
Proof. unfold fail_row. by destruct (terminal _). Qed.

Lemma fail_row_connector failure_reason now r :
  IndexAttempt.connector_id (fail_row failure_reason now r)
  = IndexAttempt.connector_id r.
Proof. unfold fail_row. by destruct (terminal _). Qed.

Lemma fail_row_credential failure_reason now r :
  IndexAttempt.credential_id (fail_row failure_reason now r)
  = IndexAttempt.credential_id r.
Proof. unfold fail_row. by destruct (terminal _). Qed.

Lemma mark_rows_idemp attempt_id failure_reason now rows :
  mark_rows attempt_id failure_reason now (mark_rows attempt_id failure_reason now rows)
  = mark_rows attempt_id failure_reason now rows.
Proof.
  unfold mark_rows. rewrite <- list_fmap_compose. apply list_fmap_ext.
  intros _ r _. simpl.
  destruct (decide (IndexAttempt.id r = attempt_id)) as [Hid|Hid].
  - rewrite (bool_decide_eq_true_2 _ Hid), fail_row_id, (bool_decide_eq_true_2 _ Hid).
    apply fail_row_idemp.
  - by rewrite !(bool_decide_eq_false_2 _ Hid).
Qed.

Lemma mark_run_failed_cc_fields a st x :
  connectors (mark_run_failed_cc a st x) = connectors x
  ∧ credentials (mark_run_failed_cc a st x) = credentials x
  ∧ embedding_models (mark_run_failed_cc a st x) = embedding_models x
  ∧ index_attempts (mark_run_failed_cc a st x) = index_attempts x
  ∧ db_time (mark_run_failed_cc a st x) = db_time x.
Proof.
  unfold mark_run_failed_cc.
  destruct (IndexAttempt.connector_id a), (IndexAttempt.credential_id a); try done.
  by destruct (model_is_present a st).
Qed.

(** The world [_mark_run_failed] leaves, whether it returns or raises. *)
Lemma mark_run_failed_after a failure_reason w :
  after (_mark_run_failed a failure_reason) w
  = {| db := mark_run_failed_cc a (db w)
         (set_index_attempts
            (mark_rows (IndexAttempt.id a) failure_reason (db_time (db w))) (db w));
       config := config w; primary := primary w; secondary := secondary w;
       effects := effects w ++ mark_run_failed_effects a failure_reason (db w) |}.
Proof.
  unfold _mark_run_failed, mark_attempt_failed, update_connector_credential_pair,
    mark_run_failed_effects, mark_run_failed_cc, model_is_present,
    attempt_embedding_model.
  run.
  destruct (IndexAttempt.connector_id a) as [c|], (IndexAttempt.credential_id a) as [k|];
    run; rewrite <- ?(assoc_L (++)); simpl; try done.
  destruct (head _) as [em|] eqn:Hem; run; [|done].
  destruct (decide (EmbeddingModel.status em = PRESENT)) as [Hp|Hp].
  - rewrite (bool_decide_eq_true_2 _ Hp), bool_decide_eq_true_2 by (by rewrite Hp).
    run. by rewrite <- ?(assoc_L (++)).
  - rewrite (bool_decide_eq_false_2 _ Hp), bool_decide_eq_false_2 by congruence.
    done.
Qed.

(** [_mark_run_failed] raises exactly when the attempt has both identifiers
    and its embedding model is gone. *)
Lemma mark_run_failed_outcome a failure_reason w :
  outcome (_mark_run_failed a failure_reason) w
  = match IndexAttempt.connector_id a, IndexAttempt.credential_id a,
          attempt_embedding_model a (db w) with
    | Some _, Some _, None =>
      Raised (AttributeError "'NoneType' object has no attribute 'status'")
    | _, _, _ => Returned ()
    end.
Proof.
  unfold _mark_run_failed, mark_attempt_failed, update_connector_credential_pair,
    attempt_embedding_model.
  run.
  destruct (IndexAttempt.connector_id a) as [c|], (IndexAttempt.credential_id a) as [k|];
    run; try done.
  destruct (head _) as [em|] eqn:Hem; run; [|done]. by case_bool_decide.
Qed.

Lemma emitted_eq {A} (m : M A) (w : World) (es : list Event) :
  effects (after m w) = effects w ++ es → emitted m w = es.
Proof. intros E. unfold emitted. rewrite E. apply drop_app_length. Qed.

Lemma mark_attempt_failed_after a failure_reason w :
  after (mark_attempt_failed a failure_reason) w
  = {| db := set_index_attempts
               (mark_rows (IndexAttempt.id a) failure_reason (db_time (db w))) (db w);
       config := config w; primary := primary w; secondary := secondary w;
       effects := effects w ++ [MarkAttemptFailed (IndexAttempt.id a) failure_reason] |}.
Proof. reflexivity. Qed.

Lemma mark_rows_elem attempt_id failure_reason now rows r :
  r ∈ rows → IndexAttempt.id r = attempt_id →
  fail_row failure_reason now r ∈ mark_rows attempt_id failure_reason now rows.
Proof.
  intros Hr Hid. unfold mark_rows. apply list_elem_of_fmap.
  exists r. by rewrite (bool_decide_eq_true_2 _ Hid).
Qed.

Lemma fail_cc_pair_idemp c k s : fail_cc_pair c k (fail_cc_pair c k s) = fail_cc_pair c k s.
Proof.
  unfold fail_cc_pair, set_cc_pairs. simpl. f_equal.
  rewrite <- list_fmap_compose. apply list_fmap_ext. intros _ p _. simpl.
  destruct (decide (ConnectorCredentialPair.connector_id p = c
                  ∧ ConnectorCredentialPair.credential_id p = k)) as [H|H].
  - rewrite (bool_decide_eq_true_2 _ H). simpl. by rewrite (bool_decide_eq_true_2 _ H).
  - by rewrite !(bool_decide_eq_false_2 _ H).
Qed.

Lemma update_in_mark_run_failed_effects a failure_reason st c k s :
  UpdateConnectorCredentialPair c k s ∈ mark_run_failed_effects a failure_reason st
  ↔ s = FAILED
    ∧ IndexAttempt.connector_id a = Some c
    ∧ IndexAttempt.credential_id a = Some k
    ∧ EmbeddingModel.status <$> attempt_embedding_model a st = Some PRESENT.
Proof.
  unfold mark_run_failed_effects, model_is_present.
  rewrite elem_of_app, !elem_of_cons, elem_of_nil.
  destruct (IndexAttempt.connector_id a) as [c0|], (IndexAttempt.credential_id a) as [k0|].
  1: case_bool_decide.
  all: rewrite ?elem_of_cons, ?elem_of_nil; naive_solver.
Qed.

Lemma mark_run_failed_cc_idemp a st x :
  mark_run_failed_cc a st (mark_run_failed_cc a st x) = mark_run_failed_cc a st x.
Proof.
  unfold mark_run_failed_cc.
  destruct (IndexAttempt.connector_id a), (IndexAttempt.credential_id a); try done.
  destruct (model_is_present a st); [apply fail_cc_pair_idemp|done].
Qed.

Lemma mark_run_failed_cc_set a st st' f x :
  embedding_models st' = embedding_models st →
  mark_run_failed_cc a st' (set_index_attempts f (mark_run_failed_cc a st x))
  = mark_run_failed_cc a st (set_index_attempts f x).
Proof.
  intros Hm. unfold mark_run_failed_cc, model_is_present, attempt_embedding_model.
  rewrite Hm.
  destruct (IndexAttempt.connector_id a), (IndexAttempt.credential_id a); try done.
  case_bool_decide; [|done].
  unfold fail_cc_pair, set_cc_pairs, set_index_attempts. simpl. f_equal.
  rewrite <- list_fmap_compose. apply list_fmap_ext. intros _ p _. simpl.
  destruct (decide (ConnectorCredentialPair.connector_id p = z
                  ∧ ConnectorCredentialPair.credential_id p = z0)) as [H1|H1].
  - rewrite (bool_decide_eq_true_2 _ H1). simpl. by rewrite (bool_decide_eq_true_2 _ H1).
  - by rewrite !(bool_decide_eq_false_2 _ H1).
Qed.

Lemma mark_rows_same i failure_reason now rows :
  filter (λ r, IndexAttempt.id r = i) (mark_rows i failure_reason now rows)
  = fail_row failure_reason now <$> filter (λ r, IndexAttempt.id r = i) rows.
Proof.
  unfold mark_rows. induction rows as [|r rows IH]; [done|].
  rewrite fmap_cons, !filter_cons.
  destruct (decide (IndexAttempt.id r = i)) as [E|E].
  - rewrite (bool_decide_eq_true_2 _ E), fail_row_id, decide_True by done.
    rewrite fmap_cons. by f_equal.
  - rewrite (bool_decide_eq_false_2 _ E), decide_False by done. apply IH.
Qed.

(** C7. [_mark_run_failed] always marks the attempt through the gateway: the
    rows of attempts are what [mark_attempt_failed] makes them.  A row of the
    attempt that was not terminal is FAILED with the reason; a row that was
    terminal, SUCCESS or FAILED, is left as it was, so the attempt is not
    always FAILED afterwards.  Running it again changes nothing in the store.
    It updates the connector-credential pair, to FAILED, exactly when the
    attempt has a connector, a credential and the PRESENT embedding model,
    whatever the status of the row; otherwise, and so for an attempt of the
    FUTURE model, the pairs are left as they were. *)
Theorem mark_run_failed_frame
    (index_attempt : IndexAttempt.t) (failure_reason : string) (w : World) :
  let run_failed := _mark_run_failed index_attempt failure_reason in
  let w' := after run_failed w in
  index_attempts (db w')
    = index_attempts (db (after (mark_attempt_failed index_attempt failure_reason) w))
  ∧ MarkAttemptFailed (IndexAttempt.id index_attempt) failure_reason
      ∈ emitted run_failed w
  ∧ (∀ r, r ∈ index_attempts (db w) →
       IndexAttempt.id r = IndexAttempt.id index_attempt →
       terminal (IndexAttempt.status r) = false →
       ∃ r', r' ∈ index_attempts (db w')
           ∧ IndexAttempt.id r' = IndexAttempt.id index_attempt
           ∧ IndexAttempt.status r' = FAILED
           ∧ IndexAttempt.failure_reason r' = Some failure_reason)
  ∧ (∀ r, r ∈ index_attempts (db w) →
       IndexAttempt.id r = IndexAttempt.id index_attempt →
       terminal (IndexAttempt.status r) = true →
       r ∈ index_attempts (db w'))
  ∧ (∀ r, lookup_index_attempt (IndexAttempt.id index_attempt) (db w) = Some r →
       ∃ r', lookup_index_attempt (IndexAttempt.id index_attempt) (db w') = Some r'
           ∧ (terminal (IndexAttempt.status r) = true → r' = r)
           ∧ (terminal (IndexAttempt.status r) = false →
              IndexAttempt.status r' = FAILED
              ∧ IndexAttempt.failure_reason r' = Some failure_reason))
  ∧ db (after run_failed w') = db w'
  ∧ (∀ c k s, UpdateConnectorCredentialPair c k s ∈ emitted run_failed w
       ↔ s = FAILED
         ∧ IndexAttempt.connector_id index_attempt = Some c
         ∧ IndexAttempt.credential_id index_attempt = Some k
         ∧ EmbeddingModel.status <$> attempt_embedding_model index_attempt (db w)
           = Some PRESENT)
  ∧ (∀ c k, IndexAttempt.connector_id index_attempt = Some c →
       IndexAttempt.credential_id index_attempt = Some k →
       EmbeddingModel.status <$> attempt_embedding_model index_attempt (db w)
         = Some PRESENT →
       cc_pairs (db w')
         = cc_pairs (db (after (update_connector_credential_pair c k FAILED) w)))
  ∧ (¬ (is_Some (IndexAttempt.connector_id index_attempt)
        ∧ is_Some (IndexAttempt.credential_id index_attempt)
        ∧ EmbeddingModel.status <$> attempt_embedding_model index_attempt (db w)
          = Some PRESENT) →
     cc_pairs (db w') = cc_pairs (db w)).
Proof.
  intros run_failed w'.
  assert (Hem : emitted run_failed w
                = mark_run_failed_effects index_attempt failure_reason (db w)).
  { apply emitted_eq. unfold run_failed. by rewrite mark_run_failed_after. }
  rewrite Hem. clear Hem. subst w' run_failed.
  rewrite !mark_run_failed_after, mark_attempt_failed_after. simpl.
  pose proof (mark_run_failed_cc_fields index_attempt (db w)
    (set_index_attempts (mark_rows (IndexAttempt.id index_attempt) failure_reason
                           (db_time (db w))) (db w)))
    as (_ & _ & Hmodels & Hrows & Htime).
  split_and!.
  - by rewrite Hrows.
  - unfold mark_run_failed_effects. set_solver.
  - intros r Hr Hid Hnt. rewrite Hrows. simpl.
    exists (fail_row failure_reason (db_time (db w)) r).
    split; [by apply mark_rows_elem|].
    rewrite fail_row_id. unfold fail_row. by rewrite Hnt.
  - intros r Hr Hid Ht. rewrite Hrows. simpl.
    replace r with (fail_row failure_reason (db_time (db w)) r) at 1
      by (unfold fail_row; by rewrite Ht).
    by apply mark_rows_elem.
  - intros r Hr. unfold lookup_index_attempt in *. rewrite Hrows. simpl.
    rewrite mark_rows_same.
    destruct (filter _ (index_attempts (db w))) as [|r0 rows]; [done|].
    injection Hr as ->. eexists. split; [done|]. unfold fail_row.
    split; intros Ht; by rewrite Ht.
  - rewrite Htime. simpl.
    rewrite mark_run_failed_cc_set by (by rewrite Hmodels).
    unfold set_index_attempts. simpl. by rewrite mark_rows_idemp.
  - intros c k s. apply update_in_mark_run_failed_effects.
  - intros c k Hc Hk Hp. unfold mark_run_failed_cc, model_is_present.
    by rewrite Hc, Hk, (bool_decide_eq_true_2 _ Hp).
  - intros Hn. unfold mark_run_failed_cc, model_is_present.
    destruct (IndexAttempt.connector_id index_attempt),
             (IndexAttempt.credential_id index_attempt); try done.
    case_bool_decide; [|done]. destruct Hn. eauto.
Qed.

(** ** The swap *)

Lemma for_cons {A} (x : A) (xs : list A) (body : A → M unit) (w : World) :
  for_ (x :: xs) body w
  = match body x w with
    | (Returned _, w') => for_ xs body w'
    | (Raised e, w') => (Raised e, w')
    end.
Proof.
  unfold for_. rewrite for_fold_cons, run_bind.
  by destruct (body x w) as [[[]|e] w'].
Qed.

Lemma for_nil {A} (body : A → M unit) (w : World) :
  for_ [] body w = (Returned (), w).
Proof. reflexivity. Qed.

Lemma resync_cc_pair_run p w :
  resync_cc_pair p w
  = (Returned (),
     {| db := resync_store p (db w); config := config w; primary := primary w;
        secondary := secondary w; effects := effects w ++ [resync_event p] |}).
Proof. reflexivity. Qed.

Lemma for_resync_cc_pair (pairs : list ConnectorCredentialPair.t) (w : World) :
  outcome (for_ pairs resync_cc_pair) w = Returned ()
  ∧ effects (after (for_ pairs resync_cc_pair) w)
    = effects w ++ (resync_event <$> pairs)
  ∧ embedding_models (db (after (for_ pairs resync_cc_pair) w))
    = embedding_models (db w)
  ∧ index_attempts (db (after (for_ pairs resync_cc_pair) w))
    = index_attempts (db w)
  ∧ length (cc_pairs (db (after (for_ pairs resync_cc_pair) w)))
    = length (cc_pairs (db w)).
Proof.
  revert w. induction pairs as [|p pairs IH]; intros w.
  - unfold outcome, after. rewrite for_nil. simpl. by rewrite app_nil_r.
  - unfold outcome, after in *. rewrite for_cons, resync_cc_pair_run.
    match goal with |- context [for_ pairs resync_cc_pair ?w1] =>
      destruct (IH w1) as (Ho & He & Hm & Ha & Hc) end.
    split_and!; [done|..].
    + rewrite He. simpl. by rewrite <- (assoc_L (++)).
    + by rewrite Hm.
    + by rewrite Ha.
    + rewrite Hc. simpl. by rewrite length_fmap.
Qed.

Lemma unique_cc_pairs_restatus f embedding_model_id s :
  unique_cc_pairs_with_index_attempts embedding_model_id (restatus f s)
  = unique_cc_pairs_with_index_attempts embedding_model_id s.
Proof.
  unfold unique_cc_pairs_with_index_attempts, restatus. simpl. f_equal.
  induction (index_attempts s) as [|a rows IH]; [done|].
  rewrite fmap_cons, !filter_cons. simpl.
  destruct (decide (IndexAttempt.embedding_model_id a = embedding_model_id));
    [rewrite !fmap_cons; f_equal|]; apply IH.
Qed.

Lemma check_index_swap_outcome w : outcome check_index_swap w = swap_decision (db w).
Proof.
  unfold check_index_swap, swap_decision, get_connector_credential_pairs,
    get_secondary_db_embedding_model, count_unique_cc_pairs_with_index_attempts,
    get_current_db_embedding_model, update_embedding_model_status.
  run. destruct (find_model_with_status FUTURE (db w)) as [secondary|]; [|done].
  run. case_bool_decide; [done|]. case_bool_decide; [|done].
  run. destruct (find_model_with_status PRESENT (db w)) as [current|]; [|done].
  run. match goal with |- context [for_ ?l resync_cc_pair ?w1] =>
    destruct (for_resync_cc_pair l w1) as (Ho & _) end.
  unfold outcome in Ho. by destruct (for_ _ _ _) as [[[]|] ?].
Qed.

Lemma find_model_with_status_elem s db_session m :
  find_model_with_status s db_session = Some m →
  m ∈ embedding_models db_session ∧ EmbeddingModel.status m = s.
Proof.
  unfold find_model_with_status. intros H.
  apply head_Some_elem_of, list_elem_of_filter in H. naive_solver.
Qed.

Lemma swap_decision_restatus f db_session :
  swap_decision (restatus f db_session) = swap_decision db_session.
Proof.
  unfold swap_decision.
  change (find_model_with_status FUTURE (restatus f db_session))
    with (find_model_with_status FUTURE db_session).
  change (find_model_with_status PRESENT (restatus f db_session))
    with (find_model_with_status PRESENT db_session).
  change (cc_pairs (restatus f db_session)) with (cc_pairs db_session).
  destruct (find_model_with_status FUTURE db_session); [|done].
  by rewrite unique_cc_pairs_restatus.
Qed.

Lemma check_index_swap_run_swap w secondary_model current :
  find_model_with_status FUTURE (db w) = Some secondary_model →
  find_model_with_status PRESENT (db w) = Some current →
  Z.of_nat (length (cc_pairs (db w))) - 1
  = Z.of_nat (length (unique_cc_pairs_with_index_attempts
                        (EmbeddingModel.id secondary_model) (db w))) →
  effects (after check_index_swap w)
  = effects w
    ++ [UpdateEmbeddingModelStatus (EmbeddingModel.id current) PAST;
        UpdateEmbeddingModelStatus (EmbeddingModel.id secondary_model) PRESENT]
    ++ (resync_event <$> cc_pairs (db w))
  ∧ embedding_models (db (after check_index_swap w))
    = swapped current secondary_model <$> embedding_models (db w)
  ∧ index_attempts (db (after check_index_swap w)) = index_attempts (db w).
Proof.
  intros Hsec Hcur Hcount.
  unfold check_index_swap, get_connector_credential_pairs,
    get_secondary_db_embedding_model, count_unique_cc_pairs_with_index_attempts,
    get_current_db_embedding_model, update_embedding_model_status.
  run. rewrite Hsec. run.
  rewrite bool_decide_eq_false_2 by lia. rewrite (bool_decide_eq_true_2 _ Hcount).
  run. rewrite Hcur. run.
  match goal with |- context [for_ ?l resync_cc_pair ?w1] =>
    destruct (for_resync_cc_pair l w1) as (_ & He & Hm & Ha & _) end.
  unfold after in *. rewrite He, Hm, Ha. simpl. split_and!.
  - by rewrite <- !(assoc_L (++)).
  - rewrite <- list_fmap_compose. apply list_fmap_ext. intros _ m _. simpl.
    unfold swapped.
    destruct (decide (EmbeddingModel.id m = EmbeddingModel.id current)) as [E1|E1];
      rewrite ?(bool_decide_eq_true_2 _ E1), ?(bool_decide_eq_false_2 _ E1); simpl;
      destruct (decide (EmbeddingModel.id m = EmbeddingModel.id secondary_model))
        as [E2|E2];
      by rewrite ?(bool_decide_eq_true_2 _ E2), ?(bool_decide_eq_false_2 _ E2).
  - done.
Qed.

(** C1. Without a secondary (FUTURE) model [check_index_swap] returns and
    changes nothing.  With one, let [eligible] be the number of
    connector-credential pairs minus one and [attempted] the number of
    distinct pairs with an attempt against it: if [attempted > eligible] the
    function raises and changes nothing; if [attempted < eligible] it returns
    and changes nothing; if [attempted = eligible] it sets the current
    PRESENT model to PAST, then the secondary model to PRESENT, then calls
    [resync_cc_pair] on every pair, in order.  The statuses of the attempts
    play no part in the decision. *)
Theorem check_index_swap_spec (w : World) :
  let eligible := Z.of_nat (length (cc_pairs (db w))) - 1 in
  (find_model_with_status FUTURE (db w) = None →
   check_index_swap w = (Returned (), w))
  ∧ (∀ secondary_model,
       find_model_with_status FUTURE (db w) = Some secondary_model →
       let attempted :=
         Z.of_nat (length (unique_cc_pairs_with_index_attempts
                             (EmbeddingModel.id secondary_model) (db w))) in
       (eligible < attempted →
        check_index_swap w
        = (Raised (RuntimeError "More unique indexings than cc pairs, should not occur"),
           w))
       ∧ (attempted < eligible → check_index_swap w = (Returned (), w))
       ∧ (attempted = eligible →
          ∀ current, find_model_with_status PRESENT (db w) = Some current →
            outcome check_index_swap w = Returned ()
            ∧ emitted check_index_swap w
              = [UpdateEmbeddingModelStatus (EmbeddingModel.id current) PAST;
                 UpdateEmbeddingModelStatus (EmbeddingModel.id secondary_model) PRESENT]
                ++ (resync_event <$> cc_pairs (db w))
            ∧ embedding_models (db (after check_index_swap w))
              = swapped current secondary_model <$> embedding_models (db w)
            ∧ EmbeddingModel.with_status PRESENT secondary_model
                ∈ embedding_models (db (after check_index_swap w))
            ∧ (EmbeddingModel.id current ≠ EmbeddingModel.id secondary_model →
               EmbeddingModel.with_status PAST current
                 ∈ embedding_models (db (after check_index_swap w)))))
  ∧ (∀ f : IndexAttempt.t → IndexingStatus,
       outcome check_index_swap (set_db (restatus f) w) = outcome check_index_swap w).
Proof.
  intros eligible. split_and!.
  - intros Hnone.
    unfold check_index_swap, get_connector_credential_pairs,
      get_secondary_db_embedding_model.
    run. by rewrite Hnone.
  - intros secondary_model Hsec attempted. split_and!.
    + intros Hgt.
      unfold check_index_swap, get_connector_credential_pairs,
        get_secondary_db_embedding_model, count_unique_cc_pairs_with_index_attempts.
      run. rewrite Hsec. run. by rewrite bool_decide_eq_true_2.
    + intros Hlt.
      unfold check_index_swap, get_connector_credential_pairs,
        get_secondary_db_embedding_model, count_unique_cc_pairs_with_index_attempts.
      run. rewrite Hsec. run.
      rewrite bool_decide_eq_false_2 by (fold eligible attempted; lia).
      by rewrite bool_decide_eq_false_2 by (fold eligible attempted; lia).
    + intros Heq current Hcur.
      destruct (check_index_swap_run_swap w secondary_model current Hsec Hcur)
        as (He & Hm & _); [by fold eligible attempted|].
      assert (Ho : outcome check_index_swap w = Returned ()).
      { rewrite check_index_swap_outcome. unfold swap_decision.
        rewrite Hsec, Hcur. fold eligible attempted.
        rewrite bool_decide_eq_false_2 by lia.
        by rewrite bool_decide_eq_true_2. }
      apply find_model_with_status_elem in Hsec as [Hsec_in _].
      apply find_model_with_status_elem in Hcur as [Hcur_in _].
      split_and!.
      * done.
      * by apply emitted_eq.
      * done.
      * rewrite Hm. apply list_elem_of_fmap. exists secondary_model. split; [|done].
        unfold swapped. by rewrite bool_decide_eq_true_2.
      * intros Hne. rewrite Hm. apply list_elem_of_fmap. exists current. split; [|done].
        unfold swapped. rewrite (bool_decide_eq_false_2 _ Hne).
        by rewrite bool_decide_eq_true_2.
  - intros f. rewrite !check_index_swap_outcome. apply swap_decision_restatus.
Qed.

(** ** Framing: what the work on other attempts leaves alone *)

Lemma frame_refl i w : frame i w w.
Proof. split; try done. exists []. by rewrite app_nil_r. Qed.

Lemma frame_trans i w1 w2 w3 : frame i w1 w2 → frame i w2 w3 → frame i w1 w3.
Proof.
  intros [] []. split; try congruence.
  destruct frame_effects0 as (es1 & E1 & F1), frame_effects1 as (es2 & E2 & F2).
  exists (es1 ++ es2). split; [by rewrite E2, E1, (assoc_L (++))|].
  by apply Forall_app.
Qed.

Lemma frame_emit i e w : about i e = false → frame i w (after (emit e) w).
Proof. intros He. split; try done. exists [e]. split; [done|]. by constructor. Qed.

Lemma mark_rows_ids attempt_id failure_reason now rows :
  IndexAttempt.id <$> mark_rows attempt_id failure_reason now rows
  = IndexAttempt.id <$> rows.
Proof.
  unfold mark_rows. rewrite <- list_fmap_compose. apply list_fmap_ext.
  intros _ r _. simpl. case_bool_decide; [apply fail_row_id|done].
Qed.

Lemma mark_rows_other i attempt_id failure_reason now rows :
  attempt_id ≠ i →
  filter (λ r, IndexAttempt.id r = i) (mark_rows attempt_id failure_reason now rows)
  = filter (λ r, IndexAttempt.id r = i) rows.
Proof.
  intros Hne. unfold mark_rows. induction rows as [|r rows IH]; [done|].
  rewrite fmap_cons, !filter_cons.
  destruct (decide (IndexAttempt.id r = attempt_id)) as [E|E].
  - rewrite (bool_decide_eq_true_2 _ E), fail_row_id.
    rewrite !decide_False by congruence. apply IH.
  - rewrite (bool_decide_eq_false_2 _ E).
    destruct (decide (IndexAttempt.id r = i)); by rewrite IH.
Qed.

Lemma frame_mark_attempt_failed i b failure_reason w :
  IndexAttempt.id b ≠ i → frame i w (after (mark_attempt_failed b failure_reason) w).
Proof.
  intros Hne. rewrite mark_attempt_failed_after. split; simpl; try done.
  - apply mark_rows_ids.
  - by apply mark_rows_other.
  - eexists. split; [done|]. constructor; [|done]. simpl.
    by apply bool_decide_eq_false_2.
Qed.

Lemma mark_run_failed_effects_about i b failure_reason st :
  IndexAttempt.id b ≠ i →
  Forall (λ e, about i e = false) (mark_run_failed_effects b failure_reason st).
Proof.
  intros Hne. unfold mark_run_failed_effects.
  apply Forall_app. split.
  - repeat constructor. simpl. by apply bool_decide_eq_false_2.
  - destruct (IndexAttempt.connector_id b), (IndexAttempt.credential_id b); try done.
    destruct (model_is_present b st); by repeat constructor.
Qed.

Lemma frame_mark_run_failed i b failure_reason w :
  IndexAttempt.id b ≠ i → frame i w (after (_mark_run_failed b failure_reason) w).
Proof.
  intros Hne. rewrite mark_run_failed_after.
  match goal with |- context [mark_run_failed_cc b ?st ?x] =>
    pose proof (mark_run_failed_cc_fields b st x) as (Hc & Hk & Hm & Hr & Ht) end.
  split; simpl; rewrite ?Hc, ?Hk, ?Hm, ?Ht; try done.
  - rewrite Hr. apply mark_rows_ids.
  - unfold rows_of. rewrite Hr. simpl. by apply mark_rows_other.
  - eexists. split; [done|]. by apply mark_run_failed_effects_about.
Qed.

Lemma frame_submit i client j num_threads w :
  j ≠ i → frame i w (after (submit client j num_threads) w).
Proof.
  intros Hne. split; try done. eexists. split; [done|]. constructor; [|done].
  simpl. by apply bool_decide_eq_false_2.
Qed.

Lemma unique_ids_eq db_session r1 r2 :
  unique_ids db_session →
  r1 ∈ index_attempts db_session → r2 ∈ index_attempts db_session →
  IndexAttempt.id r1 = IndexAttempt.id r2 → r1 = r2.
Proof.
  unfold unique_ids. intros Hnd H1 H2 Hid.
  apply list_elem_of_lookup in H1 as [n1 H1], H2 as [n2 H2].
  assert (n1 = n2) as ->; [|congruence].
  eapply NoDup_lookup; [done| |]; rewrite list_lookup_fmap.
  - by rewrite H1.
  - rewrite H2. simpl. by rewrite Hid.
Qed.

Lemma unique_ids_rows_of db_session r :
  unique_ids db_session → r ∈ index_attempts db_session →
  rows_of (IndexAttempt.id r) db_session = [r].
Proof.
  unfold unique_ids, rows_of. intros Hnd Hr.
  induction (index_attempts db_session) as [|x rows IH]; [by apply elem_of_nil in Hr|].
  rewrite fmap_cons in Hnd. apply NoDup_cons in Hnd as [Hx Hnd].
  rewrite filter_cons. apply elem_of_cons in Hr as [->|Hr].
  - rewrite decide_True by done. f_equal.
    apply elem_of_nil_inv. intros y Hy. apply list_elem_of_filter in Hy as [Hy1 Hy2].
    apply Hx. rewrite <- Hy1. by apply list_elem_of_fmap_2.
  - rewrite decide_False; [by apply IH|].
    intros E. apply Hx. rewrite E. by apply list_elem_of_fmap_2.
Qed.

Lemma frame_unique_ids i w w' : frame i w w' → unique_ids (db w) → unique_ids (db w').
Proof. intros [] H. unfold unique_ids. by rewrite frame_ids0. Qed.

Lemma rows_of_elem i db_session r :
  r ∈ rows_of i db_session ↔ r ∈ index_attempts db_session ∧ IndexAttempt.id r = i.
Proof. unfold rows_of. rewrite list_elem_of_filter. naive_solver. Qed.

Lemma frame_row_elem i w w' r :
  frame i w w' → IndexAttempt.id r = i →
  r ∈ index_attempts (db w') ↔ r ∈ index_attempts (db w).
Proof.
  intros [] Hid.
  pose proof (rows_of_elem i (db w) r). pose proof (rows_of_elem i (db w') r).
  rewrite frame_rows0 in *. naive_solver.
Qed.

(** ** The dispatcher *)

Ltac frame_goal :=
  first
    [ done
    | apply mark_rows_ids
    | by apply mark_rows_other
    | by (eexists; split;
          [ by rewrite <- ?(assoc_L (++))
          | repeat constructor; simpl; try done; by apply bool_decide_eq_false_2 ]) ].

Lemma kickoff_attempt_frame i client secondary_client b em acc w :
  IndexAttempt.id b ≠ i →
  ∃ acc' w',
    kickoff_attempt client secondary_client b em acc w = (Returned acc', w')
    ∧ frame i w w' ∧ acc' !! i = acc !! i.
Proof.
  intros Hne. unfold kickoff_attempt, mark_attempt_failed, _get_num_threads, submit.
  run. destruct (attempt_connector b (db w)); run.
  2:{ eexists _, _. split; [done|]. split; [|done].
      split; simpl; unfold rows_of; simpl; frame_goal. }
  destruct (attempt_credential b (db w)); run.
  2:{ eexists _, _. split; [done|]. split; [|done].
      split; simpl; unfold rows_of; simpl; frame_goal. }
  destruct em as [em|]; [case_bool_decide|]; run.
  all: match goal with |- context [respond ?c ?h ?j] =>
         destruct (respond c h j) as [run_|] end; run.
  all: eexists _, _; (split; [done|]); split;
         [ split; simpl; unfold rows_of; simpl; frame_goal
         | by rewrite ?lookup_insert_ne ].
Qed.

Lemma unique_ids_split (rows l1 l2 : list IndexAttempt.t) (a : IndexAttempt.t) :
  NoDup (IndexAttempt.id <$> rows) →
  l1 ++ a :: l2 `sublist_of` rows →
  ∀ b, b ∈ l1 ++ l2 → IndexAttempt.id b ≠ IndexAttempt.id a.
Proof.
  intros Hnd Hsplit b Hb.
  assert (Hsub : NoDup (IndexAttempt.id <$> (l1 ++ a :: l2))).
  { eapply sublist_NoDup; [done|]. by apply fmap_sublist. }
  rewrite fmap_app, fmap_cons in Hsub.
  apply NoDup_app in Hsub as (_ & Hdisj & Hnd2).
  apply NoDup_cons in Hnd2 as [Hnot _].
  apply elem_of_app in Hb as [Hb|Hb]; intros E.
  - apply (Hdisj (IndexAttempt.id b)); [by apply list_elem_of_fmap_2|].
    rewrite E. apply list_elem_of_here.
  - apply Hnot. rewrite <- E. by apply list_elem_of_fmap_2.
Qed.

Lemma kickoff_loop_frame i client secondary_client
    (l : list (IndexAttempt.t * option EmbeddingModel.t)) acc w :
  (∀ b em, (b, em) ∈ l → IndexAttempt.id b ≠ i) →
  ∃ acc' w',
    for_fold l acc
      (λ '(attempt, embedding_model),
         kickoff_attempt client secondary_client attempt embedding_model) w
    = (Returned acc', w')
    ∧ frame i w w' ∧ acc' !! i = acc !! i.
Proof.
  revert acc w. induction l as [|[b em] l IH]; intros acc w Hl.
  - exists acc, w. split; [done|]. split; [apply frame_refl|done].
  - rewrite for_fold_cons, run_bind.
    destruct (kickoff_attempt_frame i client secondary_client b em acc w)
      as (acc1 & w1 & -> & Hf1 & Ha1); [eapply Hl, list_elem_of_here|].
    destruct (IH acc1 w1) as (acc2 & w2 & -> & Hf2 & Ha2).
    { intros b' em' Hin. eapply Hl. by apply list_elem_of_further. }
    exists acc2, w2. split; [done|]. split; [by eapply frame_trans|congruence].
Qed.

Lemma attempt_connector_frame i w w' a :
  frame i w w' → attempt_connector a (db w') = attempt_connector a (db w).
Proof. intros []. unfold attempt_connector. by rewrite frame_connectors0. Qed.

Lemma attempt_credential_frame i w w' a :
  frame i w w' → attempt_credential a (db w') = attempt_credential a (db w).
Proof. intros []. unfold attempt_credential. by rewrite frame_credentials0. Qed.

Lemma attempt_embedding_model_frame i w w' a :
  frame i w w' → attempt_embedding_model a (db w') = attempt_embedding_model a (db w).
Proof. intros []. unfold attempt_embedding_model. by rewrite frame_models0. Qed.

(** What one turn of the dispatcher does with its attempt. *)
Lemma kickoff_attempt_run client secondary_client a em acc w :
  let i := IndexAttempt.id a in
  ∃ acc' w' step,
    kickoff_attempt client secondary_client a em acc w = (Returned acc', w')
    ∧ effects w' = effects w ++ step
    ∧ match attempt_connector a (db w), attempt_credential a (db w) with
      | None, _ =>
        step = [Log WARNING (skipping_connector_deleted i);
                MarkAttemptFailed i "Connector is null"]
        ∧ rows_of i (db w')
          = fail_row "Connector is null" (db_time (db w)) <$> rows_of i (db w)
        ∧ acc' = acc
      | Some _, None =>
        step = [Log WARNING (skipping_credential_deleted i);
                MarkAttemptFailed i "Credential is null"]
        ∧ rows_of i (db w')
          = fail_row "Credential is null" (db_time (db w)) <$> rows_of i (db w)
        ∧ acc' = acc
      | Some _, Some _ =>
        let use_secondary_index :=
          match em with
          | Some em => bool_decide (EmbeddingModel.status em = FUTURE)
          | None => false
          end in
        ∃ num_threads run,
          step = Submit (if use_secondary_index then secondary_client else client)
                   i num_threads (bool_decide (is_Some run))
                 :: match run with
                    | Some _ => [Log INFO (kicked_off use_secondary_index i)]
                    | None => []
                    end
          ∧ rows_of i (db w') = rows_of i (db w)
          ∧ acc' = match run with Some run => <[i := run]> acc | None => acc end
      end.
Proof.
  intros i. unfold kickoff_attempt, mark_attempt_failed, _get_num_threads, submit.
  run. destruct (attempt_connector a (db w)); run.
  2:{ eexists _, _, _. split; [done|]. simpl. split; [by rewrite <- (assoc_L (++))|].
      split; [done|]. split; [apply mark_rows_same|done]. }
  destruct (attempt_credential a (db w)); run.
  2:{ eexists _, _, _. split; [done|]. simpl. split; [by rewrite <- (assoc_L (++))|].
      split; [done|]. split; [apply mark_rows_same|done]. }
  destruct em as [em|];
    [destruct (decide (EmbeddingModel.status em = FUTURE)) as [Hf|Hf];
       [rewrite (bool_decide_eq_true_2 _ Hf)|rewrite (bool_decide_eq_false_2 _ Hf)]|];
    run.
  all: match goal with |- context [respond ?c ?h ?j] =>
         destruct (respond c h j) as [run_|] eqn:Hrun end; run.
  all: eexists _, _, _; (split; [done|]); simpl;
         (split; [by rewrite <- ?(assoc_L (++))|]).
  all: first [ by eexists _, (Some run_) | by eexists _, None ].
Qed.

Lemma list_case_nonempty {A B} (l : list A) (X Y : B) :
  l ≠ [] → match l with [] => X | _ :: _ => Y end = Y.
Proof. by destruct l. Qed.

Lemma quiet_app i es1 es2 : quiet i es1 → quiet i es2 → quiet i (es1 ++ es2).
Proof. intros ??. by apply Forall_app. Qed.

(** The dispatcher, followed on one of the attempts it picks up. *)
Lemma kickoff_indexing_jobs_run existing_jobs client secondary_client w a :
  unique_ids (db w) →
  a ∈ index_attempts (db w) →
  IndexAttempt.status a = NOT_STARTED →
  existing_jobs !! IndexAttempt.id a = None →
  let i := IndexAttempt.id a in
  ∃ tracked w' pre step post,
    kickoff_indexing_jobs existing_jobs client secondary_client w
    = (Returned tracked, w')
    ∧ effects w' = effects w ++ pre ++ step ++ post
    ∧ quiet i pre ∧ quiet i post
    ∧ match attempt_connector a (db w), attempt_credential a (db w) with
      | None, _ =>
        step = [Log WARNING (skipping_connector_deleted i);
                MarkAttemptFailed i "Connector is null"]
        ∧ rows_of i (db w') = [fail_row "Connector is null" (db_time (db w)) a]
        ∧ tracked !! i = None
      | Some _, None =>
        step = [Log WARNING (skipping_credential_deleted i);
                MarkAttemptFailed i "Credential is null"]
        ∧ rows_of i (db w') = [fail_row "Credential is null" (db_time (db w)) a]
        ∧ tracked !! i = None
      | Some _, Some _ =>
        let use_secondary_index :=
          match attempt_embedding_model a (db w) with
          | Some em => bool_decide (EmbeddingModel.status em = FUTURE)
          | None => false
          end in
        ∃ num_threads run,
          step = Submit (if use_secondary_index then secondary_client else client)
                   i num_threads (bool_decide (is_Some run))
                 :: match run with
                    | Some _ => [Log INFO (kicked_off use_secondary_index i)]
                    | None => []
                    end
          ∧ rows_of i (db w') = [a]
          ∧ tracked !! i = run
      end.
Proof.
  intros Hunique Ha Hns Huntracked i.
  unfold kickoff_indexing_jobs, get_not_started_index_attempts. run.
  set (picked := filter (λ attempt, existing_jobs !! IndexAttempt.id attempt = None)
                   (filter (λ r, IndexAttempt.status r = NOT_STARTED)
                           (index_attempts (db w)))).
  assert (Hpicked : a ∈ picked).
  { unfold picked. rewrite !list_elem_of_filter. done. }
  apply list_elem_of_split in Hpicked as (l1 & l2 & Hsplit).
  assert (Hothers : ∀ b, b ∈ l1 ++ l2 → IndexAttempt.id b ≠ i).
  { apply (unique_ids_split (index_attempts (db w))); [done|].
    rewrite <- Hsplit. unfold picked.
    etrans; apply sublist_filter. }
  rewrite Hsplit, fmap_app, fmap_cons. simpl.
  rewrite list_case_nonempty by (by destruct l1).
  rewrite for_fold_app.
  match goal with |- context [for_fold (_ <$> l1) existing_jobs _ ?w0] =>
    destruct (kickoff_loop_frame i client secondary_client
                ((λ attempt, (attempt, attempt_embedding_model attempt (db w))) <$> l1)
                existing_jobs w0)
      as (acc1 & w1 & Hrun1 & Hf1 & Hacc1)
  end.
  { intros b em Hb. apply list_elem_of_fmap in Hb as (b' & [= -> ->] & Hb').
    apply Hothers. apply elem_of_app. by left. }
  rewrite Hrun1. clear Hrun1.
  rewrite for_fold_cons, run_bind.
  destruct (kickoff_attempt_run client secondary_client a
              (attempt_embedding_model a (db w)) acc1 w1)
    as (acc2 & w2 & step & Hrun & He2 & Hstep).
  rewrite Hrun. clear Hrun.
  destruct (kickoff_loop_frame i client secondary_client
              ((λ attempt, (attempt, attempt_embedding_model attempt (db w))) <$> l2)
              acc2 w2)
    as (acc3 & w3 & -> & Hf3 & Hacc3).
  { intros b em Hb. apply list_elem_of_fmap in Hb as (b' & [= -> ->] & Hb').
    apply Hothers. apply elem_of_app. by right. }
  assert (Hf0 : frame i w w1).
  { eapply frame_trans; [|done].
    apply (frame_emit i (Log INFO (found_new_indexing_tasks _)) w). done. }
  destruct Hf0 as [? ? ? Htime ? ? Hrows1 (es1 & He1 & Hq1)].
  destruct Hf3 as [_ _ _ _ _ _ Hrows3 (es3 & He3 & Hq3)].
  assert (Hrow : rows_of i (db w1) = [a]).
  { rewrite Hrows1. by apply unique_ids_rows_of. }
  exists acc3, w3, es1, step, es3. split; [done|].
  split; [by rewrite He3, He2, He1, <- !(assoc_L (++))|].
  split; [done|]. split; [done|]. subst i.
  unfold attempt_connector, attempt_credential in *.
  rewrite frame_connectors0, frame_credentials0 in Hstep.
  destruct (IndexAttempt.connector_id a ≫= _) as [?|];
    [destruct (IndexAttempt.credential_id a ≫= _) as [?|]|].
  - destruct Hstep as (n & run_ & -> & Hr & ->). exists n, run_.
    split; [done|]. split; [by rewrite Hrows3, Hr|].
    rewrite Hacc3. destruct run_; [by rewrite lookup_insert_eq|].
    by rewrite Hacc1.
  - destruct Hstep as (-> & Hr & ->). split; [done|].
    rewrite Hrows3, Hr, Hrow, Htime. split; [done|]. by rewrite Hacc3, Hacc1.
  - destruct Hstep as (-> & Hr & ->). split; [done|].
    rewrite Hrows3, Hr, Hrow, Htime. split; [done|]. by rewrite Hacc3, Hacc1.
Qed.

Lemma quiet_not_elem i es e : quiet i es → about i e = true → e ∉ es.
Proof.
  intros Hq He Hin. unfold quiet in Hq. rewrite Forall_forall in Hq.
  apply Hq in Hin. congruence.
Qed.

(** An event about [i] emitted between two quiet stretches is in the middle. *)
Lemma elem_of_quiet_sandwich i pre step post e :
  quiet i pre → quiet i post → about i e = true →
  e ∈ pre ++ step ++ post ↔ e ∈ step.
Proof.
  intros Hpre Hpost He. rewrite !elem_of_app.
  pose proof (quiet_not_elem i pre e Hpre He).
  pose proof (quiet_not_elem i post e Hpost He). naive_solver.
Qed.

Lemma about_submit i client n accepted : about i (Submit client i n accepted) = true.
Proof. simpl. by apply bool_decide_eq_true_2. Qed.

Lemma about_mark i failure_reason : about i (MarkAttemptFailed i failure_reason) = true.
Proof. simpl. by apply bool_decide_eq_true_2. Qed.

Lemma about_cancel i : about i (JobCancel i) = true.
Proof. simpl. by apply bool_decide_eq_true_2. Qed.

Lemma lookup_index_attempt_rows_of i db_session :
  lookup_index_attempt i db_session = head (rows_of i db_session).
Proof. reflexivity. Qed.

Lemma fail_row_not_terminal failure_reason now a :
  terminal (IndexAttempt.status a) = false →
  IndexAttempt.status (fail_row failure_reason now a) = FAILED
  ∧ IndexAttempt.failure_reason (fail_row failure_reason now a) = Some failure_reason.
Proof. intros H. unfold fail_row. by rewrite H. Qed.

(** C6. A NOT_STARTED attempt that is not tracked yet: when its connector row
    is missing it is marked FAILED with "Connector is null" and no job is
    submitted for it; otherwise, when its credential row is missing, it is
    marked FAILED with "Credential is null" and no job is submitted for it;
    otherwise one job is submitted for it, to the secondary client exactly
    when its embedding model is FUTURE, it is not marked, and it is tracked
    exactly when the client answered with a handle: after a falsy answer it
    is untracked and still NOT_STARTED. *)
Theorem kickoff_indexing_jobs_dispatch
    (existing_jobs : Jobs) (client secondary_client : ClientRef) (w : World)
    (attempt : IndexAttempt.t) :
  unique_ids (db w) →
  attempt ∈ index_attempts (db w) →
  IndexAttempt.status attempt = NOT_STARTED →
  existing_jobs !! IndexAttempt.id attempt = None →
  let i := IndexAttempt.id attempt in
  let kickoff := kickoff_indexing_jobs existing_jobs client secondary_client in
  ∃ tracked, outcome kickoff w = Returned tracked ∧
    match attempt_connector attempt (db w), attempt_credential attempt (db w) with
    | None, _ =>
      (∃ r, lookup_index_attempt i (db (after kickoff w)) = Some r
          ∧ IndexAttempt.status r = FAILED
          ∧ IndexAttempt.failure_reason r = Some "Connector is null"%string)
      ∧ (∀ failure_reason, MarkAttemptFailed i failure_reason ∈ emitted kickoff w
           ↔ failure_reason = "Connector is null"%string)
      ∧ (∀ c n accepted, Submit c i n accepted ∉ emitted kickoff w)
      ∧ tracked !! i = None
    | Some _, None =>
      (∃ r, lookup_index_attempt i (db (after kickoff w)) = Some r
          ∧ IndexAttempt.status r = FAILED
          ∧ IndexAttempt.failure_reason r = Some "Credential is null"%string)
      ∧ (∀ failure_reason, MarkAttemptFailed i failure_reason ∈ emitted kickoff w
           ↔ failure_reason = "Credential is null"%string)
      ∧ (∀ c n accepted, Submit c i n accepted ∉ emitted kickoff w)
      ∧ tracked !! i = None
    | Some _, Some _ =>
      let use_secondary_index :=
        bool_decide (EmbeddingModel.status <$> attempt_embedding_model attempt (db w)
                     = Some FUTURE) in
      ∃ num_threads accepted,
        (∀ c n b, Submit c i n b ∈ emitted kickoff w
           ↔ c = (if use_secondary_index then secondary_client else client)
             ∧ n = num_threads ∧ b = accepted)
        ∧ (∀ failure_reason, MarkAttemptFailed i failure_reason ∉ emitted kickoff w)
        ∧ lookup_index_attempt i (db (after kickoff w)) = Some attempt
        ∧ (accepted = false → tracked !! i = None)
        ∧ (accepted = true → is_Some (tracked !! i))
    end.
Proof.
  intros Hunique Hin Hns Huntracked i kickoff.
  destruct (kickoff_indexing_jobs_run existing_jobs client secondary_client w attempt
              Hunique Hin Hns Huntracked)
    as (tracked & w' & pre & step & post & Hrun & He & Hpre & Hpost & Hcase).
  fold i in Hcase, Hpre, Hpost, He. fold kickoff in Hrun.
  assert (Hem : emitted kickoff w = pre ++ step ++ post).
  { apply emitted_eq. unfold after. by rewrite Hrun. }
  exists tracked. split; [unfold outcome; by rewrite Hrun|].
  rewrite Hem. unfold after. rewrite Hrun. simpl.
  assert (Hnt : terminal (IndexAttempt.status attempt) = false) by (by rewrite Hns).
  destruct (attempt_connector attempt (db w)) as [?|];
    [destruct (attempt_credential attempt (db w)) as [?|]|].
  - destruct Hcase as (n & run_ & -> & Hrows & Htracked).
    exists n, (bool_decide (is_Some run_)). split_and!.
    + intros c n' b. rewrite (elem_of_quiet_sandwich i) by auto using about_submit.
      assert (Hsame : match attempt_embedding_model attempt (db w) with
                      | Some em => bool_decide (EmbeddingModel.status em = FUTURE)
                      | None => false
                      end
                      = bool_decide (EmbeddingModel.status
                                       <$> attempt_embedding_model attempt (db w)
                                     = Some FUTURE)).
      { destruct (attempt_embedding_model attempt (db w)) as [em|]; simpl.
        - apply bool_decide_ext. split; [by intros ->|by intros [= ->]].
        - done. }
      rewrite Hsame. destruct run_; rewrite !elem_of_cons, ?elem_of_nil; naive_solver.
    + intros r. rewrite (elem_of_quiet_sandwich i) by auto using about_mark.
      destruct run_; rewrite !elem_of_cons, ?elem_of_nil; naive_solver.
    + by rewrite lookup_index_attempt_rows_of, Hrows.
    + intros Hacc. rewrite Htracked. destruct run_; [|done].
      by rewrite bool_decide_eq_true_2 in Hacc.
    + intros Hacc. rewrite Htracked. destruct run_; [done|].
      rewrite bool_decide_eq_false_2 in Hacc; [done|]. by intros [? [=]].
  - destruct Hcase as (-> & Hrows & Htracked). split_and!; [| | |done].
    + eexists. rewrite lookup_index_attempt_rows_of, Hrows. split; [done|].
      by apply fail_row_not_terminal.
    + intros r. rewrite (elem_of_quiet_sandwich i) by auto using about_mark.
      rewrite !elem_of_cons, elem_of_nil. naive_solver.
    + intros c n b. rewrite (elem_of_quiet_sandwich i) by auto using about_submit.
      rewrite !elem_of_cons, elem_of_nil. naive_solver.
  - destruct Hcase as (-> & Hrows & Htracked). split_and!; [| | |done].
    + eexists. rewrite lookup_index_attempt_rows_of, Hrows. split; [done|].
      by apply fail_row_not_terminal.
    + intros r. rewrite (elem_of_quiet_sandwich i) by auto using about_mark.
      rewrite !elem_of_cons, elem_of_nil. naive_solver.
    + intros c n b. rewrite (elem_of_quiet_sandwich i) by auto using about_submit.
      rewrite !elem_of_cons, elem_of_nil. naive_solver.
Qed.

(** C10. A NOT_STARTED, untracked attempt whose embedding-model reference is
    null while its connector and its credential exist: it is not marked
    failed, [use_secondary_index] is false, and its one job is submitted to
    the primary client. *)
Theorem kickoff_indexing_jobs_null_model
    (existing_jobs : Jobs) (client secondary_client : ClientRef) (w : World)
    (attempt : IndexAttempt.t) :
  unique_ids (db w) →
  attempt ∈ index_attempts (db w) →
  IndexAttempt.status attempt = NOT_STARTED →
  existing_jobs !! IndexAttempt.id attempt = None →
  attempt_embedding_model attempt (db w) = None →
  is_Some (attempt_connector attempt (db w)) →
  is_Some (attempt_credential attempt (db w)) →
  let i := IndexAttempt.id attempt in
  let kickoff := kickoff_indexing_jobs existing_jobs client secondary_client in
  (∀ failure_reason, MarkAttemptFailed i failure_reason ∉ emitted kickoff w)
  ∧ lookup_index_attempt i (db (after kickoff w)) = Some attempt
  ∧ ∃ num_threads accepted,
      (∀ c n b, Submit c i n b ∈ emitted kickoff w
         ↔ c = client ∧ n = num_threads ∧ b = accepted)
      ∧ (accepted = true → Log INFO (kicked_off false i) ∈ emitted kickoff w).
Proof.
  intros Hunique Hin Hns Huntracked Hnull [c Hc] [k Hk] i kickoff.
  destruct (kickoff_indexing_jobs_run existing_jobs client secondary_client w attempt
              Hunique Hin Hns Huntracked)
    as (tracked & w' & pre & step & post & Hrun & He & Hpre & Hpost & Hcase).
  fold i in Hcase, Hpre, Hpost, He. fold kickoff in Hrun.
  assert (Hem : emitted kickoff w = pre ++ step ++ post).
  { apply emitted_eq. unfold after. by rewrite Hrun. }
  rewrite Hem. unfold after. rewrite Hrun. simpl.
  rewrite Hc, Hk, Hnull in Hcase. simpl in Hcase.
  destruct Hcase as (n & run_ & -> & Hrows & Htracked). split_and!.
  - intros r. rewrite (elem_of_quiet_sandwich i) by auto using about_mark.
    destruct run_; rewrite !elem_of_cons, ?elem_of_nil; naive_solver.
  - by rewrite lookup_index_attempt_rows_of, Hrows.
  - exists n, (bool_decide (is_Some run_)). split.
    + intros c' n' b. rewrite (elem_of_quiet_sandwich i) by auto using about_submit.
      destruct run_; rewrite !elem_of_cons, ?elem_of_nil; naive_solver.
    + intros Hacc. destruct run_.
      * rewrite !elem_of_app, !elem_of_cons. naive_solver.
      * rewrite bool_decide_eq_false_2 in Hacc; [done|]. by intros [? [=]].
Qed.

(** ** The reaper *)

#[local] Arguments _mark_run_failed : simpl never.

Lemma lookup_index_attempt_Some j db_session r :
  lookup_index_attempt j db_session = Some r →
  r ∈ index_attempts db_session ∧ IndexAttempt.id r = j.
Proof.
  unfold lookup_index_attempt. intros H.
  apply head_Some_elem_of, list_elem_of_filter in H. naive_solver.
Qed.

Lemma mark_run_failed_step i b failure_reason w :
  IndexAttempt.id b ≠ i →
  ∃ o w', _mark_run_failed b failure_reason w = (o, w') ∧ frame i w w'.
Proof.
  intros Hne. pose proof (frame_mark_run_failed i b failure_reason w Hne) as Hf.
  unfold after in Hf. destruct (_mark_run_failed b failure_reason w) as [o w'].
  by exists o, w'.
Qed.

(** *** Rules for triples *)

Lemma triple_ret {A} (P : World → Prop) (Q : A → World → Prop) (a : A) :
  (∀ w, P w → Q a w) → triple P (mret a) Q.
Proof. intros H w Hw. by apply H. Qed.

Lemma triple_bind {A B} (P : World → Prop) (R : A → World → Prop)
    (Q : B → World → Prop) (m : M A) (f : A → M B) :
  triple P m R → (∀ a, triple (R a) (f a) Q) → triple P (m ≫= f) Q.
Proof.
  intros Hm Hf w Hw. rewrite run_bind. specialize (Hm w Hw).
  destruct (m w) as [[a|e] w']; [|done]. by apply Hf.
Qed.

Lemma triple_conseq {A} (P P' : World → Prop) (Q Q' : A → World → Prop) (m : M A) :
  triple P' m Q' → (∀ w, P w → P' w) → (∀ a w, Q' a w → Q a w) → triple P m Q.
Proof.
  intros Hm HP HQ w Hw. specialize (Hm w (HP w Hw)).
  destruct (m w) as [[a|e] w']; [|done]. by apply HQ.
Qed.

Lemma triple_gets {A} (P : World → Prop) (f : Store → A) :
  triple P (gets f) (λ a w, P w ∧ a = f (db w)).
Proof. by intros w Hw. Qed.

Lemma triple_raise {A} (P : World → Prop) (Q : A → World → Prop) (e : Exn) :
  triple P (raise e) Q.
Proof. by intros w Hw. Qed.

Lemma triple_for_fold {A S} (I : S → World → Prop) (xs : list A)
    (body : A → S → M S) (acc : S) :
  (∀ x acc, x ∈ xs → triple (I acc) (body x acc) I) →
  triple (I acc) (for_fold xs acc body) I.
Proof.
  intros Hbody w Hw.
  apply (for_fold_invariant I (λ _, True)); [done|].
  intros x acc1 w1 Hx H1. by apply Hbody.
Qed.

Lemma triple_for {A} (I : World → Prop) (xs : list A) (body : A → M unit) :
  (∀ x, x ∈ xs → triple I (body x) (λ _, I)) →
  triple I (for_ xs body) (λ _, I).
Proof. intros Hbody. unfold for_. apply (triple_for_fold (λ _, I)). auto. Qed.

(** *** Framing rules *)

Lemma triple_frame_emit i w0 e :
  about i e = false → triple (frame i w0) (emit e) (λ _, frame i w0).
Proof.
  intros He w Hw. simpl. eapply frame_trans; [done|].
  by apply (frame_emit i e w).
Qed.

Lemma triple_frame_mark_run_failed i w0 b failure_reason :
  IndexAttempt.id b ≠ i →
  triple (frame i w0) (_mark_run_failed b failure_reason) (λ _, frame i w0).
Proof.
  intros Hne w Hw.
  destruct (mark_run_failed_step i b failure_reason w Hne) as (o & w' & -> & Hf).
  destruct o; [|done]. by eapply frame_trans.
Qed.

(** A turn of the tracked sweep on another attempt. *)
Lemma cleanup_tracked_job_frame i w0 j job acc :
  j ≠ i →
  triple (frame i w0) (cleanup_tracked_job j job acc) (λ _, frame i w0).
Proof.
  intros Hne. unfold cleanup_tracked_job, get_index_attempt.
  eapply triple_bind; [apply triple_gets|]. intros index_attempt.
  destruct (negb (Job.done job)
            && negb (_is_indexing_job_marked_as_finished index_attempt)).
  { apply triple_ret. naive_solver. }
  eapply triple_bind with (R := λ _ w, frame i w0 w
                                       ∧ index_attempt = lookup_index_attempt j (db w)).
  { intros w [Hw ->]. case_bool_decide; simpl; [|done]. split; [|done].
    eapply frame_trans; [done|]. by apply (frame_emit i _ w). }
  intros _.
  eapply triple_bind with (R := λ _ w, frame i w0 w
                                       ∧ index_attempt = lookup_index_attempt j (db w)).
  { intros w [Hw ->]. simpl. split; [|done].
    eapply frame_trans; [done|]. apply (frame_emit i (JobRelease j) w).
    simpl. by apply bool_decide_eq_false_2. }
  intros _. destruct index_attempt as [r|].
  - eapply triple_bind with (R := λ _ w, frame i w0 w); [|intros _; by apply triple_ret].
    intros w [Hw Hr]. symmetry in Hr. apply lookup_index_attempt_Some in Hr as [_ Hid].
    destruct (bool_decide (IndexAttempt.status r = IN_PROGRESS)
              || bool_decide (Job.status job = error)); [|done].
    apply triple_frame_mark_run_failed; [congruence|done].
  - eapply triple_bind with (R := λ _ w, frame i w0 w); [|intros _; by apply triple_ret].
    intros w [Hw _]. simpl. eapply frame_trans; [done|]. by apply (frame_emit i _ w).
Qed.

Lemma triple_frame_tracked_inert i w0 a job acc :
  rows_of i (db w0) = [a] →
  IndexAttempt.status a = IN_PROGRESS →
  Job.done job = false →
  triple (frame i w0) (cleanup_tracked_job i job acc) (λ _, frame i w0).
Proof.
  intros Hrow Hst Hdone w Hw. unfold cleanup_tracked_job, get_index_attempt. run.
  rewrite lookup_index_attempt_rows_of, (frame_rows _ _ _ Hw), Hrow, Hdone. simpl.
  rewrite Hst. done.
Qed.

(** The tracked sweep leaves an in-progress attempt alone when it is not
    tracked, and when its handle is not done. *)
Lemma tracked_sweep_frame i w0 a (existing_jobs : Jobs) :
  rows_of i (db w0) = [a] →
  IndexAttempt.status a = IN_PROGRESS →
  (∀ job, existing_jobs !! i = Some job → Job.done job = false) →
  triple (frame i w0)
    (for_fold (map_to_list existing_jobs) existing_jobs
       (λ '(attempt_id, job), cleanup_tracked_job attempt_id job))
    (λ _, frame i w0).
Proof.
  intros Hrow Hst Hjob.
  apply (triple_for_fold (λ _, frame i w0)).
  intros [j job] acc Hin. apply elem_of_map_to_list in Hin.
  destruct (decide (j = i)) as [->|Hne].
  - eapply triple_frame_tracked_inert; eauto.
  - by apply cleanup_tracked_job_frame.
Qed.

Lemma total_seconds_gt_stalled timeout_hours db_session a :
  total_seconds_gt (get_db_current_time db_session - IndexAttempt.time_updated a)
                   (60 * 60 * timeout_hours) = true
  ↔ stalled timeout_hours db_session a.
Proof. done. Qed.

(** Below [2 ^ 34] seconds of timeout, the stall check compares the counts of
    microseconds. *)
Lemma stalled_exact timeout_hours db_session a :
  Z.abs (60 * 60 * timeout_hours) < 2 ^ 34 →
  stalled timeout_hours db_session a
  ↔ 60 * 60 * timeout_hours * 1000000
    < get_db_current_time db_session - IndexAttempt.time_updated a.
Proof. intros Hbound. unfold stalled. by rewrite total_seconds_gt_spec. Qed.

(** From [2 ^ 34] seconds on the floats are more than a microsecond apart:
    with a timeout of 5 000 000 hours, an attempt whose last update is one
    microsecond older than the timeout is not stalled for the stall check. *)
Lemma stalled_rounds_to_timeout :
  total_seconds_gt (60 * 60 * 5000000 * 1000000 + 1) (60 * 60 * 5000000) = false.
Proof. by vm_compute. Qed.

(** A turn of the in-progress sweep on another attempt. *)
Lemma cleanup_inprogress_attempt_frame i w0 existing_jobs timeout_hours b :
  IndexAttempt.id b ≠ i →
  triple (frame i w0) (cleanup_inprogress_attempt existing_jobs timeout_hours b)
         (λ _, frame i w0).
Proof.
  intros Hne. unfold cleanup_inprogress_attempt. case_bool_decide.
  - eapply triple_bind; [apply triple_gets|]. intros now.
    destruct (total_seconds_gt _ _).
    + eapply triple_bind with (R := λ _, frame i w0).
      * intros w [Hw _]. simpl. eapply frame_trans; [done|].
        apply (frame_emit i (JobCancel (IndexAttempt.id b)) w).
        simpl. by apply bool_decide_eq_false_2.
      * intros _. by apply triple_frame_mark_run_failed.
    + apply triple_ret. naive_solver.
  - by apply triple_frame_mark_run_failed.
Qed.

(** A turn of the in-progress sweep on a tracked attempt that is not stalled. *)
Lemma cleanup_inprogress_attempt_inert i w0 existing_jobs timeout_hours b :
  is_Some (existing_jobs !! IndexAttempt.id b) →
  ¬ stalled timeout_hours (db w0) b →
  triple (frame i w0) (cleanup_inprogress_attempt existing_jobs timeout_hours b)
         (λ _, frame i w0).
Proof.
  intros Htracked Hfresh w Hw. unfold cleanup_inprogress_attempt.
  rewrite (bool_decide_eq_true_2 _ Htracked). run.
  destruct (total_seconds_gt _ _) eqn:Hgt; [|done].
  apply total_seconds_gt_stalled in Hgt. destruct Hfresh.
  unfold stalled, get_db_current_time in *. by rewrite <- (frame_time _ _ _ Hw).
Qed.

Lemma inprogress_of_elem c db_session b :
  b ∈ inprogress_of c db_session
  ↔ b ∈ index_attempts db_session
    ∧ IndexAttempt.connector_id b = Some c
    ∧ IndexAttempt.status b = IN_PROGRESS.
Proof. unfold inprogress_of. rewrite list_elem_of_filter. naive_solver. Qed.

(** The in-progress sweep over connectors [cs] leaves the attempt [i] alone
    when each of its rows that the sweep can reach is tracked and not
    stalled. *)
Lemma inprogress_sweep_frame i w0 existing_jobs timeout_hours
    (cs : list Connector.t) :
  (∀ r x, r ∈ rows_of i (db w0) → x ∈ cs →
     IndexAttempt.status r = IN_PROGRESS →
     IndexAttempt.connector_id r = Some (Connector.id x) →
     is_Some (existing_jobs !! i) ∧ ¬ stalled timeout_hours (db w0) r) →
  triple (frame i w0)
    (for_ cs (λ connector,
       in_progress_indexing_attempts ←
         get_inprogress_index_attempts (Connector.id connector);
       for_ in_progress_indexing_attempts
         (cleanup_inprogress_attempt existing_jobs timeout_hours)))
    (λ _, frame i w0).
Proof.
  intros Hskip. apply triple_for. intros x Hx.
  eapply triple_bind; [apply triple_gets|]. intros l.
  eapply triple_conseq with
    (P' := λ w, frame i w0 w
                ∧ ∀ b, b ∈ l → IndexAttempt.id b = i →
                  b ∈ rows_of i (db w0)
                  ∧ IndexAttempt.status b = IN_PROGRESS
                  ∧ IndexAttempt.connector_id b = Some (Connector.id x))
    (Q' := λ _ w, frame i w0 w
                ∧ ∀ b, b ∈ l → IndexAttempt.id b = i →
                  b ∈ rows_of i (db w0)
                  ∧ IndexAttempt.status b = IN_PROGRESS
                  ∧ IndexAttempt.connector_id b = Some (Connector.id x)).
  - apply triple_for. intros b Hb w [Hw Hl].
    assert (Hstep : triple (frame i w0)
              (cleanup_inprogress_attempt existing_jobs timeout_hours b)
              (λ _, frame i w0)).
    { destruct (decide (IndexAttempt.id b = i)) as [Hid|Hid].
      - destruct (Hl b Hb Hid) as (Hrow & Hst & Hc).
        destruct (Hskip b x Hrow Hx Hst Hc) as [Htr Hfresh].
        apply cleanup_inprogress_attempt_inert; [by rewrite Hid|done].
      - by apply cleanup_inprogress_attempt_frame. }
    specialize (Hstep w Hw).
    by destruct (cleanup_inprogress_attempt _ _ _ _) as [[?|?] ?].
  - intros w [Hw ->]. split; [done|]. intros b Hb Hid.
    apply inprogress_of_elem in Hb as (Hin & Hc & Hst).
    split; [|done]. rewrite <- (frame_rows _ _ _ Hw). by apply rows_of_elem.
  - naive_solver.
Qed.

Lemma triple_for_app {A} (P R Q : World → Prop) (xs ys : list A) (body : A → M unit) :
  triple P (for_ xs body) (λ _, R) →
  triple R (for_ ys body) (λ _, Q) →
  triple P (for_ (xs ++ ys) body) (λ _, Q).
Proof.
  intros Hxs Hys w Hw. unfold for_ in *. rewrite for_fold_app.
  specialize (Hxs w Hw). destruct (for_fold xs _ _ w) as [[[]|e] w1]; [|done].
  by apply Hys.
Qed.

Lemma triple_for_cons {A} (P R Q : World → Prop) (x : A) (xs : list A)
    (body : A → M unit) :
  triple P (body x) (λ _, R) →
  triple R (for_ xs body) (λ _, Q) →
  triple P (for_ (x :: xs) body) (λ _, Q).
Proof.
  intros Hx Hxs w Hw. rewrite for_cons.
  specialize (Hx w Hw). destruct (body x w) as [[[]|e] w1]; [|done].
  by apply Hxs.
Qed.

Lemma reap_step_rows cancel a failure_reason w :
  rows_of (IndexAttempt.id a) (db (reap_step cancel a failure_reason w))
  = fail_row failure_reason (db_time (db w)) <$> rows_of (IndexAttempt.id a) (db w).
Proof.
  unfold reap_step. rewrite mark_run_failed_after. unfold rows_of. simpl.
  match goal with |- context [mark_run_failed_cc a ?st ?x] =>
    pose proof (mark_run_failed_cc_fields a st x) as (_ & _ & _ & -> & _) end.
  simpl. rewrite mark_rows_same. by destruct cancel.
Qed.

Lemma reap_step_effects cancel a failure_reason w :
  effects (reap_step cancel a failure_reason w)
  = effects w
    ++ (if cancel then [JobCancel (IndexAttempt.id a)] else [])
    ++ mark_run_failed_effects a failure_reason (db w).
Proof.
  unfold reap_step. rewrite mark_run_failed_after. simpl.
  destruct cancel; simpl; [by rewrite <- (assoc_L (++))|done].
Qed.

Lemma mark_run_failed_effects_frame i w0 w a failure_reason :
  frame i w0 w →
  mark_run_failed_effects a failure_reason (db w)
  = mark_run_failed_effects a failure_reason (db w0).
Proof.
  intros []. unfold mark_run_failed_effects, model_is_present, attempt_embedding_model.
  by rewrite frame_models0.
Qed.

(** What [reaped] says about the effects and the row. *)
Lemma reaped_facts cancel a failure_reason w0 w' :
  rows_of (IndexAttempt.id a) (db w0) = [a] →
  reaped cancel a failure_reason w0 w' →
  rows_of (IndexAttempt.id a) (db w')
  = [fail_row failure_reason (db_time (db w0)) a]
  ∧ ∃ pre post,
      effects w'
      = effects w0 ++ pre
        ++ ((if cancel then [JobCancel (IndexAttempt.id a)] else [])
            ++ mark_run_failed_effects a failure_reason (db w0))
        ++ post
      ∧ quiet (IndexAttempt.id a) pre ∧ quiet (IndexAttempt.id a) post.
Proof.
  intros Hrow (w1 & Hf1 & Hf2). split.
  - rewrite (frame_rows _ _ _ Hf2), reap_step_rows, (frame_rows _ _ _ Hf1), Hrow.
    by rewrite (frame_time _ _ _ Hf1).
  - destruct (frame_effects _ _ _ Hf1) as (pre & E1 & Q1).
    destruct (frame_effects _ _ _ Hf2) as (post & E2 & Q2).
    exists pre, post. split; [|done].
    rewrite E2, reap_step_effects, E1, (mark_run_failed_effects_frame _ _ _ _ _ Hf1).
    by rewrite <- !(assoc_L (++)).
Qed.

Lemma reaped_frame cancel a failure_reason w0 w w' :
  reaped cancel a failure_reason w0 w → frame (IndexAttempt.id a) w w' →
  reaped cancel a failure_reason w0 w'.
Proof. intros (w1 & ? & ?) ?. exists w1. split; [done|]. by eapply frame_trans. Qed.

(** The turn of the in-progress sweep on an attempt that is untracked, or
    tracked and stalled. *)
Lemma cleanup_inprogress_attempt_reaps w0 existing_jobs timeout_hours a :
  let cancel := bool_decide (is_Some (existing_jobs !! IndexAttempt.id a)) in
  let failure_reason :=
    if cancel then _FROZEN_FAILURE_REASON else _UNEXPECTED_STATE_FAILURE_REASON in
  (is_Some (existing_jobs !! IndexAttempt.id a) → stalled timeout_hours (db w0) a) →
  triple (frame (IndexAttempt.id a) w0)
         (cleanup_inprogress_attempt existing_jobs timeout_hours a)
         (λ _, reaped cancel a failure_reason w0).
Proof.
  intros cancel failure_reason Hactive w Hw. unfold cleanup_inprogress_attempt.
  subst cancel failure_reason.
  destruct (decide (is_Some (existing_jobs !! IndexAttempt.id a))) as [Htr|Htr].
  - rewrite (bool_decide_eq_true_2 _ Htr). run.
    assert (Hgt : total_seconds_gt
                    (get_db_current_time (db w) - IndexAttempt.time_updated a)
                    (60 * 60 * timeout_hours) = true).
    { apply total_seconds_gt_stalled. specialize (Hactive Htr).
      unfold stalled, get_db_current_time in *. by rewrite (frame_time _ _ _ Hw). }
    rewrite Hgt. unfold job_cancel. run.
    match goal with |- context [_mark_run_failed a ?R ?w2] =>
      destruct (_mark_run_failed a R w2) as [[[]|e] w3] eqn:Hm end; [|done].
    exists w. split; [done|]. unfold reap_step, after, job_cancel, emit. simpl.
    rewrite Hm. apply frame_refl.
  - rewrite (bool_decide_eq_false_2 _ Htr).
    destruct (_mark_run_failed a _ w) as [[[]|e] w3] eqn:Hm; [|done].
    exists w. split; [done|]. unfold reap_step, after.
    rewrite Hm. apply frame_refl.
Qed.

Lemma reaped_rows_failed cancel a failure_reason w0 w r :
  rows_of (IndexAttempt.id a) (db w0) = [a] →
  IndexAttempt.status a = IN_PROGRESS →
  reaped cancel a failure_reason w0 w →
  r ∈ rows_of (IndexAttempt.id a) (db w) → IndexAttempt.status r = FAILED.
Proof.
  intros Hrow Hst Hreaped Hr.
  destruct (reaped_facts _ _ _ _ _ Hrow Hreaped) as [Hrows _].
  rewrite Hrows in Hr. apply list_elem_of_singleton in Hr as ->.
  apply fail_row_not_terminal. by rewrite Hst.
Qed.

(** Once the attempt is reaped, the rest of the in-progress sweep leaves it
    alone. *)
Lemma inprogress_sweep_reaped cancel a failure_reason w0 existing_jobs timeout_hours
    (cs : list Connector.t) :
  rows_of (IndexAttempt.id a) (db w0) = [a] →
  IndexAttempt.status a = IN_PROGRESS →
  triple (reaped cancel a failure_reason w0)
    (for_ cs (λ connector,
       in_progress_indexing_attempts ←
         get_inprogress_index_attempts (Connector.id connector);
       for_ in_progress_indexing_attempts
         (cleanup_inprogress_attempt existing_jobs timeout_hours)))
    (λ _, reaped cancel a failure_reason w0).
Proof.
  intros Hrow Hst w Hw.
  pose proof (inprogress_sweep_frame (IndexAttempt.id a) w existing_jobs
                timeout_hours cs) as Hsweep.
  unfold triple in Hsweep. specialize (Hsweep) with (w := w).
  match type of Hsweep with ?H → _ → _ => assert (Hskip : H) end.
  { intros r x Hr _ Hip _.
    rewrite (reaped_rows_failed _ _ _ _ _ r Hrow Hst Hw Hr) in Hip. done. }
  specialize (Hsweep Hskip (frame_refl _ _)).
  destruct (for_ cs _ w) as [[[]|e] w']; [|done]. by eapply reaped_frame.
Qed.

(** Once the attempt is reaped, the turns on other attempts leave it alone. *)
Lemma inprogress_loop_reaped cancel a failure_reason w0 existing_jobs timeout_hours
    (l : list IndexAttempt.t) :
  (∀ b, b ∈ l → IndexAttempt.id b ≠ IndexAttempt.id a) →
  triple (reaped cancel a failure_reason w0)
    (for_ l (cleanup_inprogress_attempt existing_jobs timeout_hours))
    (λ _, reaped cancel a failure_reason w0).
Proof.
  intros Hl w Hw.
  assert (Hloop : triple (frame (IndexAttempt.id a) w)
            (for_ l (cleanup_inprogress_attempt existing_jobs timeout_hours))
            (λ _, frame (IndexAttempt.id a) w)).
  { apply triple_for. intros b Hb. apply cleanup_inprogress_attempt_frame. auto. }
  specialize (Hloop w (frame_refl _ _)).
  destruct (for_ l _ w) as [[[]|e] w']; [|done]. by eapply reaped_frame.
Qed.

Lemma connector_split (c : Z) (cs : list Connector.t) :
  c ∈ Connector.id <$> cs →
  ∃ l1 x l2, cs = l1 ++ x :: l2 ∧ Connector.id x = c
           ∧ ∀ y, y ∈ l1 → Connector.id y ≠ c.
Proof.
  induction cs as [|y cs IH]; intros Hc; [by apply elem_of_nil in Hc|].
  destruct (decide (Connector.id y = c)) as [E|E].
  - exists [], y, cs. split; [done|]. split; [done|]. intros ? H. by apply elem_of_nil in H.
  - rewrite fmap_cons in Hc. apply elem_of_cons in Hc as [Hc|Hc]; [congruence|].
    destruct (IH Hc) as (l1 & x & l2 & -> & Hx & Hl1).
    exists (y :: l1), x, l2. split; [done|]. split; [done|].
    intros z Hz. apply elem_of_cons in Hz as [->|Hz]; auto.
Qed.

(** The in-progress sweep reaps an in-progress attempt of a listed connector
    that is untracked, or tracked and stalled. *)
Lemma inprogress_sweep_reaps w0 existing_jobs timeout_hours a c :
  let cancel := bool_decide (is_Some (existing_jobs !! IndexAttempt.id a)) in
  let failure_reason :=
    if cancel then _FROZEN_FAILURE_REASON else _UNEXPECTED_STATE_FAILURE_REASON in
  unique_ids (db w0) →
  a ∈ index_attempts (db w0) →
  IndexAttempt.status a = IN_PROGRESS →
  IndexAttempt.connector_id a = Some c →
  c ∈ Connector.id <$> connectors (db w0) →
  (is_Some (existing_jobs !! IndexAttempt.id a) → stalled timeout_hours (db w0) a) →
  triple (frame (IndexAttempt.id a) w0)
    (for_ (connectors (db w0)) (λ connector,
       in_progress_indexing_attempts ←
         get_inprogress_index_attempts (Connector.id connector);
       for_ in_progress_indexing_attempts
         (cleanup_inprogress_attempt existing_jobs timeout_hours)))
    (λ _, reaped cancel a failure_reason w0).
Proof.
  intros cancel failure_reason Hunique Hin Hst Hc Hlisted Hactive.
  pose proof (unique_ids_rows_of _ _ Hunique Hin) as Hrow.
  destruct (connector_split c _ Hlisted) as (l1 & x & l2 & -> & Hx & Hl1).
  eapply triple_for_app; [|eapply triple_for_cons].
  - apply inprogress_sweep_frame. intros r y Hr Hy _ Hcr.
    rewrite Hrow in Hr. apply list_elem_of_singleton in Hr as ->.
    destruct (Hl1 y Hy). congruence.
  - eapply triple_bind; [apply triple_gets|]. intros l w [Hw ->]. rewrite Hx.
    assert (Hal : a ∈ inprogress_of c (db w)).
    { apply inprogress_of_elem. split; [|done].
      by apply (frame_row_elem _ _ _ a Hw). }
    apply list_elem_of_split in Hal as (L1 & L2 & Hsplit).
    assert (Hothers : ∀ b, b ∈ L1 ++ L2 → IndexAttempt.id b ≠ IndexAttempt.id a).
    { apply (unique_ids_split (index_attempts (db w))).
      - by apply (frame_unique_ids _ _ _ Hw).
      - rewrite <- Hsplit. apply sublist_filter. }
    rewrite Hsplit.
    assert (Hinner : triple (frame (IndexAttempt.id a) w0)
              (for_ (L1 ++ a :: L2)
                 (cleanup_inprogress_attempt existing_jobs timeout_hours))
              (λ _, reaped cancel a failure_reason w0)).
    { eapply triple_for_app; [|eapply triple_for_cons].
      - apply triple_for. intros b Hb. apply cleanup_inprogress_attempt_frame.
        apply Hothers, elem_of_app. by left.
      - by apply cleanup_inprogress_attempt_reaps.
      - apply inprogress_loop_reaped. intros b Hb.
        apply Hothers, elem_of_app. by right. }
    exact (Hinner w Hw).
  - by apply inprogress_sweep_reaped.
Qed.

(** [cleanup_indexing_jobs] on an in-progress attempt of a listed connector
    that is untracked, or tracked by a handle that is not done and stalled. *)
Lemma cleanup_indexing_jobs_reaps w existing_jobs timeout_hours a c :
  let cancel := bool_decide (is_Some (existing_jobs !! IndexAttempt.id a)) in
  let failure_reason :=
    if cancel then _FROZEN_FAILURE_REASON else _UNEXPECTED_STATE_FAILURE_REASON in
  unique_ids (db w) →
  a ∈ index_attempts (db w) →
  IndexAttempt.status a = IN_PROGRESS →
  IndexAttempt.connector_id a = Some c →
  c ∈ Connector.id <$> connectors (db w) →
  (∀ job, existing_jobs !! IndexAttempt.id a = Some job → Job.done job = false) →
  (is_Some (existing_jobs !! IndexAttempt.id a) → stalled timeout_hours (db w) a) →
  triple (λ w', w' = w) (cleanup_indexing_jobs existing_jobs timeout_hours)
         (λ _, reaped cancel a failure_reason w).
Proof.
  intros cancel failure_reason Hunique Hin Hst Hc Hlisted Hjob Hactive.
  pose proof (unique_ids_rows_of _ _ Hunique Hin) as Hrow.
  unfold cleanup_indexing_jobs.
  eapply triple_bind.
  { eapply triple_conseq; [by eapply (tracked_sweep_frame _ w a)| |done].
    intros ? ->. apply frame_refl. }
  intros existing_jobs_copy. simpl.
  eapply triple_bind; [apply triple_gets|]. intros cs.
  eapply triple_bind with (R := λ _, reaped cancel a failure_reason w);
    [|intros _; by apply triple_ret].
  intros w1 [Hw1 ->]. rewrite (frame_connectors _ _ _ Hw1).
  by apply (inprogress_sweep_reaps w existing_jobs timeout_hours a c).
Qed.

(** [cleanup_indexing_jobs] on an in-progress attempt that is tracked by a
    handle that is not done and, where a listed connector reaches it, is not
    stalled. *)
Lemma cleanup_indexing_jobs_spares w existing_jobs timeout_hours a :
  unique_ids (db w) →
  a ∈ index_attempts (db w) →
  IndexAttempt.status a = IN_PROGRESS →
  (∀ job, existing_jobs !! IndexAttempt.id a = Some job → Job.done job = false) →
  (∀ x, x ∈ connectors (db w) →
     IndexAttempt.connector_id a = Some (Connector.id x) →
     is_Some (existing_jobs !! IndexAttempt.id a) ∧ ¬ stalled timeout_hours (db w) a) →
  triple (λ w', w' = w) (cleanup_indexing_jobs existing_jobs timeout_hours)
         (λ _, frame (IndexAttempt.id a) w).
Proof.
  intros Hunique Hin Hst Hjob Hskip.
  pose proof (unique_ids_rows_of _ _ Hunique Hin) as Hrow.
  unfold cleanup_indexing_jobs.
  eapply triple_bind.
  { eapply triple_conseq; [by eapply (tracked_sweep_frame _ w a)| |done].
    intros ? ->. apply frame_refl. }
  intros existing_jobs_copy. simpl.
  eapply triple_bind; [apply triple_gets|]. intros cs.
  eapply triple_bind with (R := λ _, frame (IndexAttempt.id a) w);
    [|intros _; by apply triple_ret].
  intros w1 [Hw1 ->]. rewrite (frame_connectors _ _ _ Hw1).
  refine (inprogress_sweep_frame _ w existing_jobs timeout_hours _ _ w1 Hw1).
  intros r x Hr Hx _ Hcr. rewrite Hrow in Hr.
  apply list_elem_of_singleton in Hr as ->. by apply (Hskip x).
Qed.

Lemma triple_run {A} (P : World → Prop) (m : M A) (Q : A → World → Prop)
    (w : World) (a : A) :
  triple P m Q → P w → outcome m w = Returned a → Q a (after m w).
Proof.
  intros Hm Hw Ha. specialize (Hm w Hw). unfold outcome, after in *.
  destruct (m w) as [[a'|e] w']; simpl in *; congruence.
Qed.

(** *** The reaper does not raise when every attempt has its model *)

Lemma returns_ret {A} (P : World → Prop) (Q : A → World → Prop) (a : A) :
  (∀ w, P w → Q a w) → returns P (mret a) Q.
Proof. intros H w Hw. exists a, w. auto. Qed.

Lemma returns_bind {A B} (P : World → Prop) (R : A → World → Prop)
    (Q : B → World → Prop) (m : M A) (f : A → M B) :
  returns P m R → (∀ a, returns (R a) (f a) Q) → returns P (m ≫= f) Q.
Proof.
  intros Hm Hf w Hw. rewrite run_bind.
  destruct (Hm w Hw) as (a & w1 & -> & Ha). by apply Hf.
Qed.

Lemma returns_gets {A} (P : World → Prop) (f : Store → A) :
  returns P (gets f) (λ a w, P w ∧ a = f (db w)).
Proof. intros w Hw. by exists (f (db w)), w. Qed.

Lemma returns_for_fold {A S} (I : S → World → Prop) (xs : list A)
    (body : A → S → M S) (acc : S) :
  (∀ x acc, x ∈ xs → returns (I acc) (body x acc) I) →
  returns (I acc) (for_fold xs acc body) I.
Proof.
  revert acc. induction xs as [|x xs IH]; intros acc Hbody.
  - by apply returns_ret.
  - rewrite for_fold_cons. eapply returns_bind.
    + apply Hbody, list_elem_of_here.
    + intros acc'. apply IH. intros y acc1 Hy. by apply Hbody, list_elem_of_further.
Qed.

Lemma returns_for {A} (I : World → Prop) (xs : list A) (body : A → M unit) :
  (∀ x, x ∈ xs → returns I (body x) (λ _, I)) →
  returns I (for_ xs body) (λ _, I).
Proof. intros Hbody. unfold for_. apply (returns_for_fold (λ _, I)). auto. Qed.

Lemma returns_emit (I : World → Prop) (e : Event) :
  (∀ w, I w → I (after (emit e) w)) → returns I (emit e) (λ _, I).
Proof. intros H w Hw. exists (), (after (emit e) w). auto. Qed.

Lemma models_kept_emit models e w :
  models_kept models w → models_kept models (after (emit e) w).
Proof. done. Qed.

Lemma model_known_row models w r :
  models_kept models w → r ∈ index_attempts (db w) → model_known models r.
Proof. intros [<- Hall] Hr. by apply Hall. Qed.

Lemma returns_mark_run_failed models b failure_reason :
  model_known models b →
  returns (models_kept models) (_mark_run_failed b failure_reason)
          (λ _, models_kept models).
Proof.
  intros Hknown w [Hmodels Hall].
  pose proof (mark_run_failed_outcome b failure_reason w) as Hout.
  pose proof (mark_run_failed_after b failure_reason w) as Hafter.
  unfold outcome, after in *.
  destruct (_mark_run_failed b failure_reason w) as [o w']. simpl in *.
  assert (Hsome : is_Some (attempt_embedding_model b (db w))).
  { unfold attempt_embedding_model. by rewrite Hmodels. }
  destruct Hsome as [em Hem]. rewrite Hem in Hout.
  exists (), w'. split.
  { f_equal. rewrite Hout.
    by destruct (IndexAttempt.connector_id b), (IndexAttempt.credential_id b). }
  subst w'. unfold models_kept, attempts_have_models. simpl.
  match goal with |- context [mark_run_failed_cc b ?st ?x] =>
    pose proof (mark_run_failed_cc_fields b st x) as (_ & _ & Hm & Hr & _) end.
  unfold attempt_embedding_model. rewrite Hm, Hr. simpl. split; [done|].
  intros r Hr'. unfold mark_rows in Hr'.
  apply list_elem_of_fmap in Hr' as (r0 & -> & Hr0).
  specialize (Hall r0 Hr0). unfold attempt_embedding_model in Hall.
  case_bool_decide; [by rewrite fail_row_model|done].
Qed.

Lemma returns_cleanup_tracked_job models j job acc :
  returns (models_kept models) (cleanup_tracked_job j job acc)
          (λ _, models_kept models).
Proof.
  unfold cleanup_tracked_job, get_index_attempt.
  eapply returns_bind; [apply returns_gets|]. intros index_attempt.
  destruct (negb (Job.done job)
            && negb (_is_indexing_job_marked_as_finished index_attempt)).
  { apply returns_ret. naive_solver. }
  eapply returns_bind with
    (R := λ _ w, models_kept models w
                 ∧ index_attempt = lookup_index_attempt j (db w)).
  { intros w [Hw ->]. case_bool_decide; by eexists _, _. }
  intros _.
  eapply returns_bind with
    (R := λ _ w, models_kept models w
                 ∧ index_attempt = lookup_index_attempt j (db w)).
  { intros w [Hw ->]. by eexists _, _. }
  intros _. destruct index_attempt as [r|].
  - eapply returns_bind with (R := λ _, models_kept models);
      [|intros _; by apply returns_ret].
    intros w [Hw Hr]. symmetry in Hr. apply lookup_index_attempt_Some in Hr as [Hr _].
    destruct (bool_decide (IndexAttempt.status r = IN_PROGRESS)
              || bool_decide (Job.status job = error)); [|by eexists _, _].
    apply returns_mark_run_failed; [|done]. by eapply model_known_row.
  - eapply returns_bind with (R := λ _, models_kept models);
      [|intros _; by apply returns_ret].
    intros w [Hw _]. by eexists _, _.
Qed.

Lemma returns_cleanup_inprogress_attempt models existing_jobs timeout_hours b :
  model_known models b →
  returns (models_kept models)
          (cleanup_inprogress_attempt existing_jobs timeout_hours b)
          (λ _, models_kept models).
Proof.
  intros Hknown. unfold cleanup_inprogress_attempt. case_bool_decide.
  - eapply returns_bind; [apply returns_gets|]. intros now.
    destruct (total_seconds_gt _ _).
    + eapply returns_bind with (R := λ _, models_kept models).
      * intros w [Hw _]. by eexists _, _.
      * intros _. by apply returns_mark_run_failed.
    + apply returns_ret. naive_solver.
  - by apply returns_mark_run_failed.
Qed.

(** In a store where every attempt has its embedding model,
    [cleanup_indexing_jobs] does not raise. *)
Lemma cleanup_indexing_jobs_returns existing_jobs timeout_hours w :
  attempts_have_models (db w) →
  ∃ tracked, outcome (cleanup_indexing_jobs existing_jobs timeout_hours) w
             = Returned tracked.
Proof.
  intros Hall.
  assert (Hreturns : returns (models_kept (embedding_models (db w)))
            (cleanup_indexing_jobs existing_jobs timeout_hours)
            (λ _ _, True)).
  { unfold cleanup_indexing_jobs.
    eapply returns_bind.
    { apply (returns_for_fold (λ _, models_kept (embedding_models (db w)))).
      intros [j job] acc _. apply returns_cleanup_tracked_job. }
    intros existing_jobs_copy. simpl.
    eapply returns_bind; [apply returns_gets|]. intros cs.
    eapply returns_bind with (R := λ _, models_kept (embedding_models (db w)));
      [|intros _; by apply returns_ret].
    intros w1 [Hw1 _]. revert w1 Hw1. apply returns_for. intros x _.
    eapply returns_bind; [apply returns_gets|]. intros l w2 [Hw2 ->].
    assert (Hloop : returns (models_kept (embedding_models (db w)))
              (for_ (inprogress_of (Connector.id x) (db w2))
                 (cleanup_inprogress_attempt existing_jobs timeout_hours))
              (λ _, models_kept (embedding_models (db w)))).
    { apply returns_for. intros b Hb. apply returns_cleanup_inprogress_attempt.
      apply inprogress_of_elem in Hb as [Hb _]. by eapply model_known_row. }
    exact (Hloop w2 Hw2). }
  destruct (Hreturns w) as (tracked & w' & Hrun & _); [done|].
  exists tracked. unfold outcome. by rewrite Hrun.
Qed.

(** The orphan sweep, for a call that returns. *)
Lemma cleanup_indexing_jobs_orphan_sweep_returned
    (existing_jobs : Jobs) (timeout_hours : Z) (w : World)
    (attempt : IndexAttempt.t) (c : Z) (tracked : Jobs) :
  let i := IndexAttempt.id attempt in
  let cleanup := cleanup_indexing_jobs existing_jobs timeout_hours in
  unique_ids (db w) →
  attempt ∈ index_attempts (db w) →
  IndexAttempt.status attempt = IN_PROGRESS →
  existing_jobs !! i = None →
  IndexAttempt.connector_id attempt = Some c →
  c ∈ Connector.id <$> connectors (db w) →
  outcome cleanup w = Returned tracked →
  (∃ r, lookup_index_attempt i (db (after cleanup w)) = Some r
      ∧ IndexAttempt.status r = FAILED
      ∧ IndexAttempt.failure_reason r = Some _UNEXPECTED_STATE_FAILURE_REASON)
  ∧ (∃ pre post,
       emitted cleanup w
       = pre ++ mark_run_failed_effects attempt _UNEXPECTED_STATE_FAILURE_REASON (db w)
             ++ post
       ∧ quiet i pre ∧ quiet i post)
  ∧ (∀ c' k s,
       UpdateConnectorCredentialPair c' k s
         ∈ mark_run_failed_effects attempt _UNEXPECTED_STATE_FAILURE_REASON (db w)
       ↔ s = FAILED ∧ c' = c
         ∧ IndexAttempt.credential_id attempt = Some k
         ∧ EmbeddingModel.status <$> attempt_embedding_model attempt (db w)
           = Some PRESENT).
Proof.
  intros i cleanup Hunique Hin Hst Huntracked Hc Hlisted Hret. subst i cleanup.
  assert (Hjob : ∀ job, existing_jobs !! IndexAttempt.id attempt = Some job →
                        Job.done job = false)
    by (intros ? ?; congruence).
  assert (Hactive : is_Some (existing_jobs !! IndexAttempt.id attempt) →
                    stalled timeout_hours (db w) attempt)
    by (rewrite Huntracked; by intros [? [=]]).
  pose proof (cleanup_indexing_jobs_reaps w existing_jobs timeout_hours attempt c
                Hunique Hin Hst Hc Hlisted Hjob Hactive) as Hreaps.
  rewrite Huntracked in Hreaps.
  rewrite bool_decide_eq_false_2 in Hreaps by (by intros [? [=]]).
  pose proof (triple_run _ _ _ w tracked Hreaps eq_refl Hret) as Hreaped.
  simpl in Hreaped.
  apply reaped_facts in Hreaped as (Hrows & pre & post & He & Hpre & Hpost);
    [|by apply unique_ids_rows_of].
  split_and!.
  - eexists. rewrite lookup_index_attempt_rows_of, Hrows.
    split; [done|]. apply fail_row_not_terminal. by rewrite Hst.
  - exists pre, post. split; [|done]. apply emitted_eq. by rewrite He.
  - intros c' k s. rewrite update_in_mark_run_failed_effects, Hc. naive_solver.
Qed.

(** The stall check, for a call that returns. *)
Lemma cleanup_indexing_jobs_stall_check_returned
    (existing_jobs : Jobs) (timeout_hours : Z) (w : World)
    (attempt : IndexAttempt.t) (c : Z) (job : Job.t) (tracked : Jobs) :
  let i := IndexAttempt.id attempt in
  let cleanup := cleanup_indexing_jobs existing_jobs timeout_hours in
  unique_ids (db w) →
  attempt ∈ index_attempts (db w) →
  IndexAttempt.status attempt = IN_PROGRESS →
  existing_jobs !! i = Some job →
  Job.done job = false →
  IndexAttempt.connector_id attempt = Some c →
  c ∈ Connector.id <$> connectors (db w) →
  outcome cleanup w = Returned tracked →
  (JobCancel i ∈ emitted cleanup w ↔ stalled timeout_hours (db w) attempt)
  ∧ (∀ failure_reason,
       MarkAttemptFailed i failure_reason ∈ emitted cleanup w
       ↔ stalled timeout_hours (db w) attempt
         ∧ failure_reason = _FROZEN_FAILURE_REASON)
  ∧ (stalled timeout_hours (db w) attempt →
     ∃ r, lookup_index_attempt i (db (after cleanup w)) = Some r
        ∧ IndexAttempt.status r = FAILED
        ∧ IndexAttempt.failure_reason r = Some _FROZEN_FAILURE_REASON)
  ∧ (¬ stalled timeout_hours (db w) attempt →
     lookup_index_attempt i (db (after cleanup w)) = Some attempt).
Proof.
  intros i cleanup Hunique Hin Hst Htracked Hdone Hc Hlisted Hret.
  subst i cleanup.
  assert (Hjob : ∀ job', existing_jobs !! IndexAttempt.id attempt = Some job' →
                         Job.done job' = false)
    by (intros ? ?; congruence).
  pose proof (unique_ids_rows_of _ _ Hunique Hin) as Hrow.
  destruct (decide (total_seconds_gt
                      (get_db_current_time (db w) - IndexAttempt.time_updated attempt)
                      (60 * 60 * timeout_hours) = true)) as [Hstalled|Hfresh];
    change (stalled timeout_hours (db w) attempt) in Hstalled
    || change (¬ stalled timeout_hours (db w) attempt) in Hfresh.
  - pose proof (cleanup_indexing_jobs_reaps w existing_jobs timeout_hours attempt c
                  Hunique Hin Hst Hc Hlisted Hjob (λ _, Hstalled)) as Hreaps.
    rewrite Htracked in Hreaps.
    rewrite bool_decide_eq_true_2 in Hreaps by eauto.
    pose proof (triple_run _ _ _ w tracked Hreaps eq_refl Hret) as Hreaped.
    simpl in Hreaped.
    apply reaped_facts in Hreaped as (Hrows & pre & post & He & Hpre & Hpost);
      [|done].
    apply emitted_eq in He. rewrite He.
    unfold mark_run_failed_effects.
    split_and!.
    + rewrite (elem_of_quiet_sandwich (IndexAttempt.id attempt))
        by auto using about_cancel.
      rewrite !elem_of_app, !elem_of_cons. naive_solver.
    + intros r. rewrite (elem_of_quiet_sandwich (IndexAttempt.id attempt))
        by auto using about_mark.
      rewrite !elem_of_app, !elem_of_cons, elem_of_nil.
      destruct (IndexAttempt.connector_id attempt), (IndexAttempt.credential_id attempt);
        try destruct (model_is_present attempt (db w));
        rewrite ?elem_of_cons, ?elem_of_nil; naive_solver.
    + intros _. eexists. rewrite lookup_index_attempt_rows_of, Hrows.
      split; [done|]. apply fail_row_not_terminal. by rewrite Hst.
    + done.
  - pose proof (cleanup_indexing_jobs_spares w existing_jobs timeout_hours attempt
                  Hunique Hin Hst Hjob) as Hspares.
    assert (Hskip : ∀ x, x ∈ connectors (db w) →
              IndexAttempt.connector_id attempt = Some (Connector.id x) →
              is_Some (existing_jobs !! IndexAttempt.id attempt)
              ∧ ¬ stalled timeout_hours (db w) attempt).
    { intros x _ _. rewrite Htracked. eauto. }
    specialize (Hspares Hskip).
    pose proof (triple_run _ _ _ w tracked Hspares eq_refl Hret) as Hframe.
    simpl in Hframe.
    destruct (frame_effects _ _ _ Hframe) as (es & He & Hq).
    apply emitted_eq in He. rewrite He.
    split_and!.
    + split; [|done]. intros Hin'.
      destruct (quiet_not_elem _ es _ Hq (about_cancel _) Hin').
    + intros r. split; [|naive_solver]. intros Hin'.
      destruct (quiet_not_elem _ es _ Hq (about_mark _ r) Hin').
    + done.
    + intros _.
      by rewrite lookup_index_attempt_rows_of, (frame_rows _ _ _ Hframe), Hrow.
Qed.

(** C4, as the code has it. In a store where every attempt has its embedding
    model, an attempt that is IN_PROGRESS, belongs to a connector that
    [fetch_connectors] lists and is not tracked: [cleanup_indexing_jobs]
    returns, the attempt is then FAILED with the reason "Stopped mid run,
    likely due to the background process being killed", it was marked once,
    and the marking updated the connector-credential pair, to FAILED, exactly
    when the attempt has a credential and its embedding model is PRESENT. *)
Theorem cleanup_indexing_jobs_orphan_sweep
    (existing_jobs : Jobs) (timeout_hours : Z) (w : World)
    (attempt : IndexAttempt.t) (c : Z) :
  let i := IndexAttempt.id attempt in
  let cleanup := cleanup_indexing_jobs existing_jobs timeout_hours in
  unique_ids (db w) →
  attempts_have_models (db w) →
  attempt ∈ index_attempts (db w) →
  IndexAttempt.status attempt = IN_PROGRESS →
  existing_jobs !! i = None →
  IndexAttempt.connector_id attempt = Some c →
  c ∈ Connector.id <$> connectors (db w) →
  (∃ tracked, outcome cleanup w = Returned tracked)
  ∧ (∃ r, lookup_index_attempt i (db (after cleanup w)) = Some r
        ∧ IndexAttempt.status r = FAILED
        ∧ IndexAttempt.failure_reason r = Some _UNEXPECTED_STATE_FAILURE_REASON)
  ∧ (∃ pre post,
       emitted cleanup w
       = pre ++ mark_run_failed_effects attempt _UNEXPECTED_STATE_FAILURE_REASON (db w)
             ++ post
       ∧ quiet i pre ∧ quiet i post)
  ∧ (∀ c' k s,
       UpdateConnectorCredentialPair c' k s
         ∈ mark_run_failed_effects attempt _UNEXPECTED_STATE_FAILURE_REASON (db w)
       ↔ s = FAILED ∧ c' = c
         ∧ IndexAttempt.credential_id attempt = Some k
         ∧ EmbeddingModel.status <$> attempt_embedding_model attempt (db w)
           = Some PRESENT).
Proof.
  intros i cleanup Hunique Hmodels Hin Hst Huntracked Hc Hlisted.
  destruct (cleanup_indexing_jobs_returns existing_jobs timeout_hours w Hmodels)
    as [tracked Hret].
  split; [by exists tracked|].
  by apply (cleanup_indexing_jobs_orphan_sweep_returned existing_jobs timeout_hours
              w attempt c tracked).
Qed.

(** C5, as the code has it. In a store where every attempt has its embedding
    model, an attempt that is IN_PROGRESS, belongs to a connector that
    [fetch_connectors] lists and is tracked by a handle that is not done:
    [cleanup_indexing_jobs] returns, and the handle was cancelled and the
    attempt marked FAILED with the "frozen" reason exactly when
    [total_seconds()] of the time since its last update exceeds
    [60 * 60 * timeout_hours]; otherwise the attempt stays as it was.  For a
    timeout below [2 ^ 34] seconds that is: exactly when the time since the
    last update strictly exceeds [timeout_hours] hours, so that at exactly
    [timeout_hours] hours nothing is cancelled. *)
Theorem cleanup_indexing_jobs_stall_check
    (existing_jobs : Jobs) (timeout_hours : Z) (w : World)
    (attempt : IndexAttempt.t) (c : Z) (job : Job.t) :
  let i := IndexAttempt.id attempt in
  let cleanup := cleanup_indexing_jobs existing_jobs timeout_hours in
  let time_since_update :=
    get_db_current_time (db w) - IndexAttempt.time_updated attempt in
  let frozen :=
    float_gt_int (total_seconds time_since_update) (60 * 60 * timeout_hours)
    = true in
  unique_ids (db w) →
  attempts_have_models (db w) →
  attempt ∈ index_attempts (db w) →
  IndexAttempt.status attempt = IN_PROGRESS →
  existing_jobs !! i = Some job →
  Job.done job = false →
  IndexAttempt.connector_id attempt = Some c →
  c ∈ Connector.id <$> connectors (db w) →
  (∃ tracked, outcome cleanup w = Returned tracked)
  ∧ (JobCancel i ∈ emitted cleanup w ↔ frozen)
  ∧ (∀ failure_reason,
       MarkAttemptFailed i failure_reason ∈ emitted cleanup w
       ↔ frozen ∧ failure_reason = _FROZEN_FAILURE_REASON)
  ∧ (frozen →
     ∃ r, lookup_index_attempt i (db (after cleanup w)) = Some r
        ∧ IndexAttempt.status r = FAILED
        ∧ IndexAttempt.failure_reason r = Some _FROZEN_FAILURE_REASON)
  ∧ (¬ frozen → lookup_index_attempt i (db (after cleanup w)) = Some attempt)
  ∧ (Z.abs (60 * 60 * timeout_hours) < 2 ^ 34 →
     (frozen ↔ 60 * 60 * timeout_hours * 1000000 < time_since_update)
     ∧ (time_since_update = 60 * 60 * timeout_hours * 1000000 →
        (JobCancel i ∉ emitted cleanup w)
        ∧ lookup_index_attempt i (db (after cleanup w)) = Some attempt)).
Proof.
  intros i cleanup time_since_update frozen Hunique Hmodels Hin Hst Htracked Hdone
    Hc Hlisted.
  destruct (cleanup_indexing_jobs_returns existing_jobs timeout_hours w Hmodels)
    as [tracked Hret].
  destruct (cleanup_indexing_jobs_stall_check_returned existing_jobs timeout_hours
              w attempt c job tracked Hunique Hin Hst Htracked Hdone Hc Hlisted Hret)
    as (Hcancel & Hmark & Hfailed & Hkept).
  change (stalled timeout_hours (db w) attempt) with frozen in *.
  split_and!; try done; [by exists tracked|].
  intros Hbound.
  pose proof (stalled_exact timeout_hours (db w) attempt Hbound) as Hexact.
  change (stalled timeout_hours (db w) attempt) with frozen in Hexact.
  fold time_since_update in Hexact.
  split; [done|]. intros Heq.
  assert (Hfresh : ¬ frozen) by (rewrite Hexact; lia).
  split; [by intros ?%Hcancel|by apply Hkept].
Qed.

(** ** The scheduler *)

Lemma create_indexing_jobs_track_run attempt_id ongoing w :
  create_indexing_jobs_track attempt_id ongoing w
  = match lookup_index_attempt attempt_id (db w) with
    | Some attempt => (Returned (ongoing ∪ {[ triple_of attempt ]}), w)
    | None => (Returned ongoing, after (emit (missing_attempt_error attempt_id)) w)
    end.
Proof.
  unfold create_indexing_jobs_track, get_index_attempt. run.
  by destruct (lookup_index_attempt attempt_id (db w)).
Qed.

Lemma create_indexing_jobs_ongoing_run (ids : list Z) (acc : gset Triple) (w : World) :
  ∃ ongoing,
    for_fold ids acc create_indexing_jobs_track w
    = (Returned ongoing,
       {| db := db w; config := config w; primary := primary w;
          secondary := secondary w;
          effects := effects w
            ++ (missing_attempt_error
                <$> filter (λ attempt_id, lookup_index_attempt attempt_id (db w) = None)
                           ids) |})
    ∧ ∀ t, t ∈ ongoing
         ↔ t ∈ acc
           ∨ ∃ attempt_id attempt,
               attempt_id ∈ ids
               ∧ lookup_index_attempt attempt_id (db w) = Some attempt
               ∧ t = triple_of attempt.
Proof.
  revert acc w. induction ids as [|j ids IH]; intros acc w.
  - exists acc. simpl. rewrite app_nil_r. split; [by destruct w|].
    intros t. split; [by left|]. intros [?|(? & ? & H & _)]; [done|].
    by apply elem_of_nil in H.
  - rewrite for_fold_cons, run_bind, create_indexing_jobs_track_run, filter_cons.
    destruct (lookup_index_attempt j (db w)) as [r|] eqn:Hr.
    + destruct (IH (acc ∪ {[triple_of r]}) w) as (ongoing & -> & Hon).
      exists ongoing. rewrite decide_False by done. split; [done|].
      intros t. rewrite Hon. split.
      * intros [Ht|(j' & r' & Hj' & Hr' & ->)].
        -- apply elem_of_union in Ht as [Ht|Ht]; [by left|].
           apply elem_of_singleton in Ht as ->.
           right. exists j, r. split; [apply list_elem_of_here|done].
        -- right. exists j', r'. split; [by apply list_elem_of_further|done].
      * intros [Ht|(j' & r' & Hj' & Hr' & ->)]; [left; set_solver|].
        apply elem_of_cons in Hj' as [->|Hj'].
        -- left. rewrite Hr in Hr'. injection Hr' as ->. set_solver.
        -- right. by exists j', r'.
    + destruct (IH acc (after (emit (missing_attempt_error j)) w))
        as (ongoing & -> & Hon).
      exists ongoing. rewrite decide_True by done. simpl.
      rewrite <- (assoc_L (++)). split; [done|].
      intros t. rewrite Hon. simpl. split.
      * intros [Ht|(j' & r' & Hj' & Hr' & ->)]; [by left|].
        right. exists j', r'. split; [by apply list_elem_of_further|done].
      * intros [Ht|(j' & r' & Hj' & Hr' & ->)]; [by left|].
        apply elem_of_cons in Hj' as [->|Hj']; [congruence|].
        right. by exists j', r'.
Qed.

Lemma elem_of_tracked_ids (existing_jobs : Jobs) (attempt_id : Z) :
  attempt_id ∈ (map_to_list existing_jobs).*1 ↔ is_Some (existing_jobs !! attempt_id).
Proof.
  rewrite list_elem_of_fmap. split.
  - intros ([j job] & -> & Hin). apply elem_of_map_to_list in Hin. by exists job.
  - intros [job Hjob]. exists (attempt_id, job). split; [done|].
    by apply elem_of_map_to_list.
Qed.

(** C9. The set [ongoing] of [create_indexing_jobs] holds exactly the triples
    of the tracked identifiers that have a row: a tracked identifier without
    a row adds nothing to it and only has an error logged.  So the scheduler
    can create a NOT_STARTED attempt for a triple whose earlier attempt is
    still tracked by a running handle: with the row of the tracked attempt 7
    in the store nothing is created for its triple, once the row is deleted a
    new attempt is. *)
Theorem create_indexing_jobs_missing_row (existing_jobs : Jobs) (w : World) :
  let tracking := create_indexing_jobs_ongoing existing_jobs in
  (∃ ongoing,
     outcome tracking w = Returned ongoing
     ∧ (∀ t, t ∈ ongoing
          ↔ ∃ attempt_id attempt,
              is_Some (existing_jobs !! attempt_id)
              ∧ lookup_index_attempt attempt_id (db w) = Some attempt
              ∧ t = triple_of attempt)
     ∧ db (after tracking w) = db w
     ∧ (∀ e, e ∈ emitted tracking w
          ↔ ∃ attempt_id,
              is_Some (existing_jobs !! attempt_id)
              ∧ lookup_index_attempt attempt_id (db w) = None
              ∧ e = missing_attempt_error attempt_id))
  ∧ (∃ (tracked : Jobs) (db_session : Store) (attempt_id : Z) (job : Job.t)
       (attempt created : IndexAttempt.t),
       tracked !! attempt_id = Some job
       ∧ Job.done job = false
       ∧ lookup_index_attempt attempt_id db_session = Some attempt
       ∧ emitted (create_indexing_jobs tracked) (world_of db_session) = []
       ∧ let deleted :=
           set_index_attempts (filter (λ r, IndexAttempt.id r ≠ attempt_id)) db_session in
         lookup_index_attempt attempt_id deleted = None
         ∧ emitted (create_indexing_jobs tracked) (world_of deleted)
           = [missing_attempt_error attempt_id;
              CreateIndexAttempt 1 1 10;
              UpdateConnectorCredentialPair 1 1 NOT_STARTED]
         ∧ index_attempts (db (after (create_indexing_jobs tracked) (world_of deleted)))
           = [created]
         ∧ triple_of created = triple_of attempt
         ∧ IndexAttempt.status created = NOT_STARTED).
Proof.
  intros tracking. split.
  - subst tracking. unfold create_indexing_jobs_ongoing.
    destruct (create_indexing_jobs_ongoing_run (map_to_list existing_jobs).*1 ∅ w)
      as (ongoing & Hrun & Hon).
    exists ongoing. unfold outcome, after, emitted. rewrite Hrun. simpl.
    split; [done|]. split; [|split; [done|]].
    + intros t. rewrite Hon. split.
      * intros [Ht|(j & r & Hj & Hr & ->)]; [by apply elem_of_empty in Ht|].
        exists j, r. by rewrite <- elem_of_tracked_ids.
      * intros (j & r & Hj & Hr & ->). right. exists j, r.
        by rewrite elem_of_tracked_ids.
    + intros e. unfold after. rewrite Hrun. simpl. rewrite drop_app_length.
      rewrite list_elem_of_fmap. split.
      * intros (j & -> & Hj). apply list_elem_of_filter in Hj as [Hnone Hj].
        exists j. by rewrite <- elem_of_tracked_ids.
      * intros (j & Hj & Hnone & ->). exists j. split; [done|].
        apply list_elem_of_filter. by rewrite elem_of_tracked_ids.
  - exists tracking_7, store_with_attempt_7, 7, (Job.mk running),
      (IndexAttempt.mk 7 (Some 1) (Some 1) 10 IN_PROGRESS 0 None),
      (IndexAttempt.mk 1 (Some 1) (Some 1) 10 NOT_STARTED 1000000000 None).
    by vm_compute.
Qed.

(** ** What a computation can emit *)

Lemma emits_ret {A} P (a : A) : emits_only P (mret a).
Proof. intros w. exists []. by rewrite app_nil_r. Qed.

Lemma emits_raise {A} P (e : Exn) : emits_only P (raise e : M A).
Proof. intros w. exists []. by rewrite app_nil_r. Qed.

Lemma emits_gets {A} P (f : Store → A) : emits_only P (gets f).
Proof. intros w. exists []. by rewrite app_nil_r. Qed.

Lemma emits_write P (f : Store → Store) : emits_only P (write f).
Proof. intros w. exists []. by rewrite app_nil_r. Qed.

Lemma emits_emit (P : Event → bool) (e : Event) : P e = true → emits_only P (emit e).
Proof. intros He w. exists [e]. split; [done|]. by constructor. Qed.

Lemma emits_bind {A B} P (m : M A) (f : A → M B) :
  emits_only P m → (∀ a, emits_only P (f a)) → emits_only P (m ≫= f).
Proof.
  intros Hm Hf w. destruct (Hm w) as (es1 & E1 & F1).
  unfold after in *. rewrite run_bind. destruct (m w) as [[a|e] w1]; simpl in *.
  - destruct (Hf a w1) as (es2 & E2 & F2). unfold after in E2. exists (es1 ++ es2).
    split; [by rewrite E2, E1, (assoc_L (++))|]. by apply Forall_app.
  - by exists es1.
Qed.

Lemma emits_for_fold {A S} P (xs : list A) (acc : S) (body : A → S → M S) :
  (∀ x acc, emits_only P (body x acc)) → emits_only P (for_fold xs acc body).
Proof.
  intros Hbody. revert acc. induction xs as [|x xs IH]; intros acc.
  - apply emits_ret.
  - rewrite for_fold_cons. apply emits_bind; [apply Hbody|apply IH].
Qed.

Lemma emits_for {A} P (xs : list A) (body : A → M unit) :
  (∀ x, emits_only P (body x)) → emits_only P (for_ xs body).
Proof. intros Hbody. unfold for_. apply emits_for_fold. auto. Qed.

Lemma emits_try {A} P (m : M A) : emits_only P m → emits_only P (try_ m).
Proof.
  intros Hm w. destruct (Hm w) as (es & E & F). exists es. split; [|done].
  unfold after, try_ in *. by destruct (m w) as [[a|e] w1].
Qed.

Lemma emits_submit P client attempt_id num_threads :
  (∀ accepted, P (Submit client attempt_id num_threads accepted) = true) →
  emits_only P (submit client attempt_id num_threads).
Proof. intros HP w. eexists. split; [done|]. by constructor. Qed.

Lemma emits_get_current P : emits_only P get_current_db_embedding_model.
Proof.
  intros w. exists []. rewrite app_nil_r. unfold after, get_current_db_embedding_model.
  by destruct (find_model_with_status PRESENT (db w)).
Qed.

Lemma emits_get_num_threads P : emits_only P _get_num_threads.
Proof. intros w. exists []. by rewrite app_nil_r. Qed.

(** Breaks a computation down along its binds, branches and loops. *)
Ltac emits :=
  repeat first
    [ apply emits_ret
    | apply emits_raise
    | apply emits_gets
    | apply emits_write
    | apply emits_get_current
    | apply emits_get_num_threads
    | apply emits_emit; reflexivity
    | apply emits_submit; reflexivity
    | apply emits_bind; [|intros ?]
    | apply emits_for_fold; intros ? ?
    | apply emits_for; intros ?
    | match goal with
      | |- emits_only _ (match ?x with _ => _ end) => destruct x
      | |- emits_only _ ((match ?x with _ => _ end) _) => destruct x
      end ].

Lemma emits_mark_run_failed a failure_reason :
  emits_only component_event (_mark_run_failed a failure_reason).
Proof.
  unfold _mark_run_failed, mark_attempt_failed, update_connector_credential_pair,
    logger. emits.
Qed.

Lemma emits_check_index_swap : emits_only component_event check_index_swap.
Proof.
  unfold check_index_swap, get_connector_credential_pairs,
    get_secondary_db_embedding_model, count_unique_cc_pairs_with_index_attempts,
    update_embedding_model_status, resync_cc_pair. emits.
Qed.

Lemma emits_cleanup_indexing_jobs existing_jobs timeout_hours :
  emits_only component_event (cleanup_indexing_jobs existing_jobs timeout_hours).
Proof.
  unfold cleanup_indexing_jobs, cleanup_tracked_job, cleanup_inprogress_attempt,
    get_index_attempt, fetch_connectors, get_inprogress_index_attempts,
    job_release, job_cancel, logger.
  emits; apply emits_mark_run_failed.
Qed.

Lemma emits_create_indexing_jobs existing_jobs :
  emits_only component_event (create_indexing_jobs existing_jobs).
Proof.
  unfold create_indexing_jobs, create_indexing_jobs_ongoing,
    create_indexing_jobs_track, get_index_attempt, fetch_connectors,
    get_secondary_db_embedding_model, get_last_attempt, create_index_attempt,
    update_connector_credential_pair, logger.
  emits.
Qed.

Lemma emits_kickoff_indexing_jobs existing_jobs client secondary_client :
  emits_only component_event
    (kickoff_indexing_jobs existing_jobs client secondary_client).
Proof.
  unfold kickoff_indexing_jobs, kickoff_attempt, get_not_started_index_attempts,
    mark_attempt_failed, logger.
  emits.
Qed.

(** ** The supervisor loop *)

Section supervisor_properties.
Variable swap : M unit.
Variable reap : Jobs → M Jobs.
Variable schedule : Jobs → M unit.
Variable dispatch : Jobs → M Jobs.
Variable environment : nat → Store → Store.
Variable poll : nat → Z → Job.t → Job.t.
Variable elapsed : nat → Z.
Variable delay : Z.

Hypothesis swap_emits : emits_only component_event swap.
Hypothesis reap_emits : ∀ jobs, emits_only component_event (reap jobs).
Hypothesis schedule_emits : ∀ jobs, emits_only component_event (schedule jobs).
Hypothesis dispatch_emits : ∀ jobs, emits_only component_event (dispatch jobs).

Lemma try_tick_in_order existing_jobs w0 :
  try_tick swap reap schedule dispatch existing_jobs w0
  = tick_in_order swap reap schedule dispatch existing_jobs w0.
Proof.
  unfold try_tick, tick_in_order, except_, excepted, outcome, after.
  rewrite run_bind. unfold try_ at 1.
  destruct (swap w0) as [[[]|e0] w1]; simpl; [|done].
  rewrite run_bind. unfold try_ at 1.
  destruct (reap existing_jobs w1) as [[jobs1|e1] w2]; simpl; [|done].
  rewrite run_bind. unfold try_ at 1.
  destruct (schedule jobs1 w2) as [[[]|e2] w3]; simpl; [|done].
  rewrite run_bind. unfold try_ at 1.
  by destruct (dispatch jobs1 w3) as [[jobs2|e3] w4].
Qed.

Lemma tick_in_order_returns existing_jobs w0 :
  ∃ jobs, (tick_in_order swap reap schedule dispatch existing_jobs w0).1
          = Returned jobs.
Proof.
  unfold tick_in_order.
  destruct (outcome swap w0); [|by eexists].
  destruct (outcome (reap existing_jobs) _); [|by eexists].
  destruct (outcome (schedule _) _); [|by eexists].
  destruct (outcome (dispatch _) _); by eexists.
Qed.

Lemma tick_run n existing_jobs w :
  tick swap reap schedule dispatch elapsed delay n existing_jobs w
  = let tried := tick_in_order swap reap schedule dispatch existing_jobs
                   (tick_started existing_jobs w) in
    (tried.1, slept elapsed delay n tried.2).
Proof.
  unfold tick, tick_started, slept, after, logger.
  rewrite !run_bind. simpl.
  destruct (bool_decide (existing_jobs = ∅)); simpl.
  all: rewrite run_bind; unfold emit; simpl; rewrite run_bind, try_tick_in_order.
  all: match goal with |- context [tick_in_order _ _ _ _ ?j ?w0] =>
         destruct (tick_in_order_returns j w0) as [jobs Hjobs];
         destruct (tick_in_order swap reap schedule dispatch j w0) as [o w1]
       end.
  all: simpl in *; subst o; rewrite run_bind; by case_bool_decide.
Qed.

Lemma tick_returns n existing_jobs w :
  ∃ jobs, outcome (tick swap reap schedule dispatch elapsed delay n existing_jobs) w
          = Returned jobs.
Proof.
  unfold outcome. rewrite tick_run. simpl. apply tick_in_order_returns.
Qed.

Lemma emits_weaken {A} (P Q : Event → bool) (m : M A) :
  (∀ e, P e = true → Q e = true) → emits_only P m → emits_only Q m.
Proof.
  intros HPQ Hm w. destruct (Hm w) as (es & E & F). exists es. split; [done|].
  eapply Forall_impl; [done|]. auto.
Qed.

Lemma try_tick_emits (P : Event → bool) existing_jobs :
  (∀ e, component_event e = true → P e = true) →
  P (Log EXCEPTION failed_to_run_update) = true →
  emits_only P (try_tick swap reap schedule dispatch existing_jobs).
Proof.
  intros Hcomponent Hexcept. unfold try_tick, except_, logger.
  pose proof (emits_weaken _ P _ Hcomponent swap_emits).
  pose proof (λ jobs, emits_weaken _ P _ Hcomponent (reap_emits jobs)).
  pose proof (λ jobs, emits_weaken _ P _ Hcomponent (schedule_emits jobs)).
  pose proof (λ jobs, emits_weaken _ P _ Hcomponent (dispatch_emits jobs)).
  repeat first
    [ apply emits_ret
    | by apply emits_emit
    | by apply emits_try
    | apply emits_bind; [|intros ?]
    | match goal with
      | |- emits_only _ (match ?x with _ => _ end) => destruct x
      end ].
Qed.

Lemma component_event_within e : component_event e = true → within_tick e = true.
Proof. by destruct e as [[] []| | | | | | | | | |]. Qed.

Lemma component_event_not_sleep e : component_event e = true → not_sleep e = true.
Proof. by destruct e as [[] []| | | | | | | | | |]. Qed.

(** A tick logs that it runs, and then emits nothing the loop emits
    outside of ticks. *)
Lemma tick_effects n existing_jobs w :
  ∃ es,
    effects (after (tick swap reap schedule dispatch elapsed delay n existing_jobs) w)
    = effects w ++ Log INFO running_update :: es
    ∧ Forall (λ e, within_tick e = true) es.
Proof.
  assert (Hrest : emits_only within_tick
    ((if bool_decide (existing_jobs = ∅) then mret ()
      else logger INFO (found_existing_jobs (map_to_list existing_jobs).*1));;
     existing_jobs ← try_tick swap reap schedule dispatch existing_jobs;
     (if bool_decide (0 < delay * 1000000 - elapsed n)
      then emit (Sleep (delay * 1000000 - elapsed n)) else mret ());;
     mret existing_jobs)).
  { repeat first
      [ apply emits_ret
      | by apply emits_emit
      | by apply (emits_emit _ (Log _ _))
      | by apply try_tick_emits; [apply component_event_within|]
      | apply emits_bind; [|intros ?]
      | match goal with
        | |- emits_only _ (if ?x then _ else _) => destruct x
        end ]. }
  unfold tick, after. rewrite run_bind. unfold logger at 1, emit at 1. simpl.
  match goal with |- context [(?m ≫= ?f) ?w1] =>
    destruct (Hrest w1) as (es & E & F) end.
  exists es. unfold after in E. simpl in E. split; [|done].
  by rewrite E, <- (assoc_L (++)).
Qed.

(** A tick sleeps exactly when [delay] minus the elapsed time is positive,
    and for that long. *)
Lemma tick_sleeps n existing_jobs w d :
  Sleep d ∈ emitted (tick swap reap schedule dispatch elapsed delay n existing_jobs) w
  ↔ d = delay * 1000000 - elapsed n ∧ 0 < d.
Proof.
  assert (Htry : ∃ es,
    effects (tick_in_order swap reap schedule dispatch existing_jobs
               (tick_started existing_jobs w)).2
    = effects w ++ es ∧ Forall (λ e, not_sleep e = true) es).
  { destruct (try_tick_emits not_sleep existing_jobs component_event_not_sleep
                eq_refl (tick_started existing_jobs w)) as (es & E & F).
    unfold after in E. rewrite try_tick_in_order in E.
    unfold tick_started, after, logger in *. rewrite run_bind in *.
    unfold emit at 1 in E. unfold emit at 1. simpl in *.
    destruct (bool_decide (existing_jobs = ∅)); simpl in *.
    - exists (Log INFO running_update :: es).
      split; [by rewrite E, <- (assoc_L (++))|]. by constructor.
    - exists (Log INFO running_update
              :: Log INFO (found_existing_jobs (map_to_list existing_jobs).*1) :: es).
      split; [by rewrite E, <- !(assoc_L (++))|]. by repeat constructor. }
  destruct Htry as (es & E & F).
  assert (Hnot : Sleep d ∉ es).
  { intros Hin. rewrite Forall_forall in F. by apply F in Hin. }
  unfold emitted, after. rewrite tick_run. simpl. unfold slept, after.
  case_bool_decide as Hpos; simpl; rewrite E.
  - rewrite <- (assoc_L (++)), drop_app_length, elem_of_app, elem_of_cons, elem_of_nil.
    naive_solver.
  - rewrite drop_app_length. naive_solver lia.
Qed.

Lemma ticks_S fuel n existing_jobs w :
  ticks swap reap schedule dispatch environment poll elapsed delay
    (S fuel) n existing_jobs w
  = match tick swap reap schedule dispatch elapsed delay n
            (polled poll n existing_jobs) (arrived environment n w) with
    | (Returned jobs, w') =>
      ticks swap reap schedule dispatch environment poll elapsed delay
        fuel (S n) jobs w'
    | (Raised e, w') => (Raised e, w')
    end.
Proof.
  change (ticks swap reap schedule dispatch environment poll elapsed delay
            (S fuel) n existing_jobs w)
    with ((write (environment n);;
           existing_jobs ← tick swap reap schedule dispatch elapsed delay n
                             (map_imap (λ k j, Some (poll n k j)) existing_jobs);
           ticks swap reap schedule dispatch environment poll elapsed delay
             fuel (S n) existing_jobs) w).
  by rewrite !run_bind.
Qed.

(** The loop never stops by itself and never lets an exception out: any
    number of ticks runs, each tick logged once, and nothing in them is the
    startup call. *)
Lemma ticks_run fuel n existing_jobs w :
  ∃ jobs es,
    outcome (ticks swap reap schedule dispatch environment poll elapsed delay
               fuel n existing_jobs) w = Returned jobs
    ∧ effects (after (ticks swap reap schedule dispatch environment poll elapsed
                        delay fuel n existing_jobs) w)
      = effects w ++ es
    ∧ (MarkAllInProgressCCPairsFailed ∉ es)
    ∧ ticks_logged es = fuel.
Proof.
  revert n existing_jobs w. induction fuel as [|fuel IH]; intros n existing_jobs w.
  - exists existing_jobs, []. simpl. rewrite app_nil_r.
    split; [done|]. split; [done|]. split; [|done]. by intros ?%elem_of_nil.
  - unfold outcome, after in *. rewrite ticks_S.
    destruct (tick_returns n (polled poll n existing_jobs) (arrived environment n w))
      as [jobs1 Hret].
    destruct (tick_effects n (polled poll n existing_jobs) (arrived environment n w))
      as (es1 & E1 & F1).
    unfold outcome, after in *.
    destruct (tick swap reap schedule dispatch elapsed delay n _ _)
      as [o w2]. simpl in *. subst o.
    destruct (IH (S n) jobs1 w2) as (jobs2 & es2 & Hret2 & E2 & Hno & Hcount).
    exists jobs2, (Log INFO running_update :: es1 ++ es2).
    split; [done|]. split; [by rewrite E2, E1, <- (assoc_L (++))|]. split.
    + rewrite elem_of_cons, elem_of_app. intros [?|[Hin|?]]; [done| |done].
      rewrite Forall_forall in F1. by apply F1 in Hin.
    + unfold ticks_logged in *. rewrite filter_cons, decide_True by done.
      rewrite filter_app, length_cons, length_app, Hcount.
      replace (length (filter _ es1)) with 0%nat; [done|].
      symmetry. apply length_zero_iff_nil, elem_of_nil_inv.
      intros e He. apply list_elem_of_filter in He as [-> He].
      rewrite Forall_forall in F1. by apply F1 in He.
Qed.

(** One more unit of fuel is one more tick, run after the environment acted
    and with the handles polled. *)
Lemma ticks_snoc fuel n existing_jobs w :
  ticks swap reap schedule dispatch environment poll elapsed delay
    (S fuel) n existing_jobs w
  = match ticks swap reap schedule dispatch environment poll elapsed delay
            fuel n existing_jobs w with
    | (Returned jobs, w') =>
      tick swap reap schedule dispatch elapsed delay (n + fuel)
        (polled poll (n + fuel) jobs) (arrived environment (n + fuel) w')
    | (Raised e, w') => (Raised e, w')
    end.
Proof.
  revert n existing_jobs w. induction fuel as [|fuel IH]; intros n existing_jobs w.
  - rewrite ticks_S. simpl. rewrite Nat.add_0_r.
    by destruct (tick _ _ _ _ _ _ _ _ _) as [[jobs|e] w'].
  - rewrite ticks_S, (ticks_S fuel).
    destruct (tick _ _ _ _ _ _ _ _ _) as [[jobs|e] w']; [|done].
    rewrite IH. by rewrite Nat.add_succ_r.
Qed.
End supervisor_properties.

Lemma update_loop_run timeout_hours environment poll elapsed delay fuel w :
  update_loop timeout_hours environment poll elapsed delay fuel w
  = ticks check_index_swap
      (λ existing_jobs, cleanup_indexing_jobs existing_jobs timeout_hours)
      create_indexing_jobs
      (λ existing_jobs,
         kickoff_indexing_jobs existing_jobs client_primary client_secondary)
      environment poll elapsed delay fuel 0%nat ∅
      (after mark_all_in_progress_cc_pairs_failed w).
Proof. reflexivity. Qed.

(** C8. [mark_all_in_progress_cc_pairs_failed] is executed once, before the
    first tick.  The loop never stops and lets no exception out: whatever the
    fuel, that many ticks run.  Every tick runs the swap check, then the
    reaper, then the scheduler, then the dispatcher, each in the world its
    predecessor left; when one of them raises, the tick logs the exception
    and goes on to its end with the tracked jobs as last assigned.  A tick
    sleeps exactly when [delay] minus the time it took is positive. *)
Theorem update_loop_ticks
    (timeout_hours : Z) (environment : nat → Store → Store)
    (poll : nat → Z → Job.t → Job.t) (elapsed : nat → Z) (delay : Z) :
  let swap := check_index_swap in
  let reap := λ existing_jobs, cleanup_indexing_jobs existing_jobs timeout_hours in
  let schedule := create_indexing_jobs in
  let dispatch := λ existing_jobs,
    kickoff_indexing_jobs existing_jobs client_primary client_secondary in
  let one_tick := tick swap reap schedule dispatch elapsed delay in
  let loop := update_loop timeout_hours environment poll elapsed delay in
  (∀ fuel w, ∃ jobs es,
     outcome (loop fuel) w = Returned jobs
     ∧ emitted (loop fuel) w = MarkAllInProgressCCPairsFailed :: es
     ∧ (MarkAllInProgressCCPairsFailed ∉ es)
     ∧ ticks_logged es = fuel)
  ∧ (∀ fuel w,
       loop (S fuel) w
       = match loop fuel w with
         | (Returned jobs, w') =>
           one_tick fuel (polled poll fuel jobs) (arrived environment fuel w')
         | (Raised e, w') => (Raised e, w')
         end)
  ∧ (∀ n existing_jobs w,
       one_tick n existing_jobs w
       = let tried := tick_in_order swap reap schedule dispatch existing_jobs
                        (tick_started existing_jobs w) in
         (tried.1, slept elapsed delay n tried.2))
  ∧ (∀ n existing_jobs w d,
       Sleep d ∈ emitted (one_tick n existing_jobs) w
       ↔ d = delay * 1000000 - elapsed n ∧ 0 < d).
Proof.
  intros swap reap schedule dispatch one_tick loop.
  pose proof emits_check_index_swap as Hswap.
  pose proof (λ jobs, emits_cleanup_indexing_jobs jobs timeout_hours) as Hreap.
  pose proof emits_create_indexing_jobs as Hschedule.
  pose proof (λ jobs, emits_kickoff_indexing_jobs jobs client_primary client_secondary)
    as Hdispatch.
  split_and!.
  - intros fuel w.
    destruct (ticks_run swap reap schedule dispatch environment poll elapsed delay
                Hswap Hreap Hschedule Hdispatch fuel 0%nat ∅
                (after mark_all_in_progress_cc_pairs_failed w))
      as (jobs & es & Hret & He & Hno & Hcount).
    exists jobs, es. split; [exact Hret|]. split; [|done].
    apply emitted_eq.
    change (after (loop fuel) w)
      with (after (ticks swap reap schedule dispatch environment poll elapsed delay
                     fuel 0%nat ∅)
                  (after mark_all_in_progress_cc_pairs_failed w)).
    rewrite He. simpl. by rewrite <- (assoc_L (++)).
  - intros fuel w. subst loop. rewrite !update_loop_run.
    by rewrite (ticks_snoc swap reap schedule dispatch environment poll elapsed delay).
  - intros n existing_jobs w. apply tick_run.
  - intros n existing_jobs w d. by apply tick_sleeps.
Qed.

(** ** The scheduling decision, outside the cadence *)

(** X1. Outside the first build of a FUTURE model, a connector that is disabled
    or has no refresh frequency is never scheduled, whatever its last attempt
    and the time.  An enabled connector with a refresh frequency and no
    attempt yet against a model that is not FUTURE is scheduled at once, the
    ingestion pseudo-connector (id 0) included. *)
Theorem should_create_outside_cadence
    (connector : Connector.t) (last_index : option IndexAttempt.t)
    (model : EmbeddingModel.t) (db_session : Store) :
  (¬ (EmbeddingModel.status model = FUTURE ∧ last_index = None) →
   Connector.disabled connector = true ∨ Connector.refresh_freq connector = None →
   _should_create_new_indexing connector last_index model db_session = false)
  ∧ (EmbeddingModel.status model ≠ FUTURE →
     Connector.disabled connector = false →
     is_Some (Connector.refresh_freq connector) →
     _should_create_new_indexing connector None model db_session = true).
Proof.
  unfold _should_create_new_indexing. split.
  - intros Hnot Hoff.
    destruct (decide (EmbeddingModel.status model = FUTURE)) as [Hf|Hf];
      [rewrite (bool_decide_eq_true_2 _ Hf)|rewrite (bool_decide_eq_false_2 _ Hf)];
      simpl.
    + rewrite bool_decide_eq_false_2 by naive_solver.
      destruct (Connector.disabled connector); [done|].
      destruct Hoff as [?| ->]; done.
    + destruct (Connector.disabled connector); [done|].
      destruct Hoff as [?| ->]; done.
  - intros Hf Hon [refresh_freq Hfreq].
    by rewrite (bool_decide_eq_false_2 _ Hf), Hon, Hfreq.
Qed.

(** X2. The decision is monotone in the clock of the store: a connector that is
    due stays due as long as nothing else changes. *)
Theorem should_create_monotone
    (connector : Connector.t) (last_index : option IndexAttempt.t)
    (model : EmbeddingModel.t) (db_session later : Store) :
  get_db_current_time db_session ≤ get_db_current_time later →
  _should_create_new_indexing connector last_index model db_session = true →
  _should_create_new_indexing connector last_index model later = true.
Proof.
  intros Hlater. unfold _should_create_new_indexing.
  destruct (bool_decide (EmbeddingModel.status model = FUTURE)
            && bool_decide (last_index = None)); [done|].
  destruct (Connector.disabled connector); [done|].
  destruct (Connector.refresh_freq connector) as [refresh_freq|]; [|done].
  destruct last_index as [last|]; [|done].
  case_bool_decide; [done|].
  apply total_seconds_ge_mono. lia.
Qed.

(** ** [_mark_run_failed] on an attempt whose embedding model is gone *)

(** X3. [_mark_run_failed] raises exactly when the attempt has a connector and a
    credential identifier and no embedding model: then the exception is the
    [AttributeError] of [index_attempt.embedding_model.status], the attempt
    has been marked before it, and the pairs are left as they were. *)
Theorem mark_run_failed_raises
    (index_attempt : IndexAttempt.t) (failure_reason : string) (w : World) :
  let run_failed := _mark_run_failed index_attempt failure_reason in
  (∀ e, outcome run_failed w = Raised e
        ↔ is_Some (IndexAttempt.connector_id index_attempt)
          ∧ is_Some (IndexAttempt.credential_id index_attempt)
          ∧ attempt_embedding_model index_attempt (db w) = None
          ∧ e = AttributeError "'NoneType' object has no attribute 'status'")
  ∧ (attempt_embedding_model index_attempt (db w) = None →
     emitted run_failed w
     = [Log WARNING (marking_attempt_as_failed
                       (IndexAttempt.connector_id index_attempt)
                       (IndexAttempt.credential_id index_attempt) failure_reason);
        MarkAttemptFailed (IndexAttempt.id index_attempt) failure_reason]
     ∧ db (after run_failed w)
       = db (after (mark_attempt_failed index_attempt failure_reason) w)).
Proof.
  intros run_failed. subst run_failed. split.
  - intros e. rewrite mark_run_failed_outcome.
    destruct (IndexAttempt.connector_id index_attempt) as [c|],
             (IndexAttempt.credential_id index_attempt) as [k|],
             (attempt_embedding_model index_attempt (db w)) as [em|];
      split; try done; try (by intros ([? [=]] & _)); try (by intros (_ & [? [=]] & _));
      try (by intros (_ & _ & [=] & _)).
    + intros [= <-]. eauto.
    + by intros (_ & _ & _ & ->).
  - intros Hnone.
    assert (Hnp : model_is_present index_attempt (db w) = false).
    { unfold model_is_present. rewrite Hnone. by apply bool_decide_eq_false_2. }
    split.
    + apply emitted_eq. rewrite mark_run_failed_after. simpl.
      unfold mark_run_failed_effects. rewrite Hnp.
      by destruct (IndexAttempt.connector_id index_attempt),
                  (IndexAttempt.credential_id index_attempt).
    + rewrite mark_run_failed_after, mark_attempt_failed_after. simpl.
      unfold mark_run_failed_cc. rewrite Hnp.
      by destruct (IndexAttempt.connector_id index_attempt),
                  (IndexAttempt.credential_id index_attempt).
Qed.

(** ** The swap, at its edges *)

(** X4. With a secondary model and an empty table of pairs, the count of pairs
    minus one is [-1]: [check_index_swap] raises whatever the attempts are,
    and changes nothing. *)
Theorem check_index_swap_without_pairs (w : World) (secondary_model : EmbeddingModel.t) :
  cc_pairs (db w) = [] →
  find_model_with_status FUTURE (db w) = Some secondary_model →
  check_index_swap w
  = (Raised (RuntimeError "More unique indexings than cc pairs, should not occur"), w).
Proof.
  intros Hempty Hsec.
  unfold check_index_swap, get_connector_credential_pairs,
    get_secondary_db_embedding_model, count_unique_cc_pairs_with_index_attempts.
  run. rewrite Hsec, Hempty. run.
  rewrite bool_decide_eq_true_2; [done|]. lia.
Qed.

Lemma filter_fmap_iff {A B} (f : A → B) (P : B → Prop) (Q : A → Prop)
    `{∀ y, Decision (P y)} `{∀ x, Decision (Q x)} (l : list A) :
  (∀ x, x ∈ l → P (f x) ↔ Q x) →
  filter P (f <$> l) = f <$> filter Q l.
Proof.
  induction l as [|x l IH]; intros Hl; [done|].
  rewrite fmap_cons, !filter_cons.
  pose proof (Hl x (list_elem_of_here _ _)) as Hx.
  rewrite IH by (intros y Hy; by apply Hl, list_elem_of_further).
  destruct (decide (P (f x))), (decide (Q x)); naive_solver.
Qed.

Lemma model_ids_eq (models : list EmbeddingModel.t) (m1 m2 : EmbeddingModel.t) :
  NoDup (EmbeddingModel.id <$> models) →
  m1 ∈ models → m2 ∈ models → EmbeddingModel.id m1 = EmbeddingModel.id m2 → m1 = m2.
Proof.
  intros Hnd H1 H2 Hid.
  apply list_elem_of_lookup in H1 as [n1 H1], H2 as [n2 H2].
  assert (n1 = n2) as ->; [|congruence].
  eapply NoDup_lookup; [done| |]; rewrite list_lookup_fmap.
  - by rewrite H1.
  - rewrite H2. simpl. by rewrite Hid.
Qed.

(** X5. The swap keeps the store at one PRESENT model and uses the FUTURE model
    up: in a store with unique model identifiers, one PRESENT and one FUTURE
    model, after a swap the former FUTURE model is the one PRESENT model, no
    FUTURE model is left, and a second [check_index_swap] returns without
    changing anything. *)
Theorem check_index_swap_settles
    (w : World) (current secondary_model : EmbeddingModel.t) :
  let w' := after check_index_swap w in
  NoDup (EmbeddingModel.id <$> embedding_models (db w)) →
  filter (λ m, EmbeddingModel.status m = PRESENT) (embedding_models (db w)) = [current] →
  filter (λ m, EmbeddingModel.status m = FUTURE) (embedding_models (db w))
  = [secondary_model] →
  Z.of_nat (length (cc_pairs (db w))) - 1
  = Z.of_nat (length (unique_cc_pairs_with_index_attempts
                        (EmbeddingModel.id secondary_model) (db w))) →
  filter (λ m, EmbeddingModel.status m = PRESENT) (embedding_models (db w'))
  = [EmbeddingModel.with_status PRESENT secondary_model]
  ∧ filter (λ m, EmbeddingModel.status m = FUTURE) (embedding_models (db w')) = []
  ∧ EmbeddingModel.id <$> embedding_models (db w')
    = EmbeddingModel.id <$> embedding_models (db w)
  ∧ check_index_swap w' = (Returned (), w').
Proof.
  intros w' Hnd Hpresent Hfuture Hcount.
  assert (Hsec : find_model_with_status FUTURE (db w) = Some secondary_model).
  { unfold find_model_with_status. by rewrite Hfuture. }
  assert (Hcur : find_model_with_status PRESENT (db w) = Some current).
  { unfold find_model_with_status. by rewrite Hpresent. }
  destruct (check_index_swap_run_swap w secondary_model current Hsec Hcur Hcount)
    as (_ & Hmodels & _).
  fold w' in Hmodels.
  assert (Hp : ∀ m, m ∈ embedding_models (db w) →
            EmbeddingModel.status m = PRESENT ↔ m = current).
  { intros m Hm. rewrite <- (list_elem_of_singleton m current), <- Hpresent.
    rewrite list_elem_of_filter. naive_solver. }
  assert (Hf : ∀ m, m ∈ embedding_models (db w) →
            EmbeddingModel.status m = FUTURE ↔ m = secondary_model).
  { intros m Hm. rewrite <- (list_elem_of_singleton m secondary_model), <- Hfuture.
    rewrite list_elem_of_filter. naive_solver. }
  assert (Hsec_in : secondary_model ∈ embedding_models (db w))
    by (by apply find_model_with_status_elem in Hsec as [? _]).
  assert (Hcur_in : current ∈ embedding_models (db w))
    by (by apply find_model_with_status_elem in Hcur as [? _]).
  assert (Hnone : filter (λ m, EmbeddingModel.status m = FUTURE)
                         (embedding_models (db w')) = []).
  { rewrite Hmodels.
    apply elem_of_nil_inv. intros m' Hm'.
    apply list_elem_of_filter in Hm' as [Hst Hm'].
    apply list_elem_of_fmap in Hm' as (m & -> & Hm). revert Hst. unfold swapped.
    case_bool_decide; [done|]. case_bool_decide; [done|].
    intros Hst. apply (Hf m Hm) in Hst. congruence. }
  split_and!.
  - rewrite Hmodels.
    rewrite (filter_fmap_iff _ _ (λ m, EmbeddingModel.status m = FUTURE)).
    + rewrite Hfuture. simpl. unfold swapped. by rewrite bool_decide_eq_true_2.
    + intros m Hm. unfold swapped. case_bool_decide as Hid.
      * apply (model_ids_eq _ _ _ Hnd Hm Hsec_in) in Hid as ->.
        split; [intros _|done]. by apply Hf.
      * case_bool_decide as Hid'; simpl.
        -- split; [done|]. intros Hst. apply (Hf m Hm) in Hst. congruence.
        -- rewrite (Hp m Hm), (Hf m Hm). split; intros ->; congruence.
  - done.
  - rewrite Hmodels, <- list_fmap_compose. apply list_fmap_ext. intros _ m _. simpl.
    unfold swapped. by repeat case_bool_decide.
  - unfold check_index_swap, get_connector_credential_pairs,
      get_secondary_db_embedding_model.
    run. unfold find_model_with_status. by rewrite Hnone.
Qed.

(** ** The reaper at rest *)

Lemma for_fold_skip {A S} (xs : list A) (acc : S) (body : A → S → M S) (w : World) :
  (∀ x, x ∈ xs → body x acc w = (Returned acc, w)) →
  for_fold xs acc body w = (Returned acc, w).
Proof.
  induction xs as [|x xs IH]; intros Hbody; [done|].
  rewrite for_fold_cons, run_bind, (Hbody x (list_elem_of_here _ _)).
  apply IH. intros y Hy. by apply Hbody, list_elem_of_further.
Qed.

Lemma for_skip {A} (xs : list A) (body : A → M unit) (w : World) :
  (∀ x, x ∈ xs → body x w = (Returned (), w)) →
  for_ xs body w = (Returned (), w).
Proof. intros Hbody. unfold for_. by apply for_fold_skip. Qed.

(** X7. When no tracked handle is done, no tracked attempt is marked as finished,
    and every IN_PROGRESS attempt of a listed connector is tracked and had an
    update within the timeout, [cleanup_indexing_jobs] returns the tracked
    jobs as they were and does nothing: no write, no call on a handle, no log
    record. *)
Theorem cleanup_indexing_jobs_at_rest
    (existing_jobs : Jobs) (timeout_hours : Z) (w : World) :
  (∀ i job, existing_jobs !! i = Some job →
     Job.done job = false
     ∧ _is_indexing_job_marked_as_finished (lookup_index_attempt i (db w)) = false) →
  (∀ a x, a ∈ index_attempts (db w) → x ∈ connectors (db w) →
     IndexAttempt.connector_id a = Some (Connector.id x) →
     IndexAttempt.status a = IN_PROGRESS →
     is_Some (existing_jobs !! IndexAttempt.id a)
     ∧ ¬ stalled timeout_hours (db w) a) →
  cleanup_indexing_jobs existing_jobs timeout_hours w = (Returned existing_jobs, w).
Proof.
  intros Htracked Hfresh. unfold cleanup_indexing_jobs.
  rewrite run_bind, for_fold_skip.
  2:{ intros [i job] Hin. apply elem_of_map_to_list in Hin.
      destruct (Htracked i job Hin) as [Hdone Hfin].
      unfold cleanup_tracked_job, get_index_attempt. run. by rewrite Hdone, Hfin. }
  unfold fetch_connectors. run. rewrite for_skip; [done|].
  intros x Hx. unfold get_inprogress_index_attempts. run.
  apply for_skip. intros a Ha. apply inprogress_of_elem in Ha as (Ha & Hc & Hst).
  destruct (Hfresh a x Ha Hx Hc Hst) as [Htr Hns].
  unfold cleanup_inprogress_attempt. rewrite (bool_decide_eq_true_2 _ Htr). run.
  destruct (total_seconds_gt _ _) eqn:Hgt; [|done].
  by apply total_seconds_gt_stalled in Hgt.
Qed.

(** ** What each component leaves alone *)

Lemma Forall2_diag_refl {A} (R : A → A → Prop) (l : list A) :
  (∀ x, R x x) → Forall2 R l l.
Proof. intros HR. apply Forall_Forall2_diag, Forall_forall. auto. Qed.

Lemma Forall2_trans {A} (R : A → A → Prop) (l1 l2 l3 : list A) :
  (∀ x y z, R x y → R y z → R x z) →
  Forall2 R l1 l2 → Forall2 R l2 l3 → Forall2 R l1 l3.
Proof.
  intros HR H12. revert l3. induction H12; intros l3 H23; inversion H23; subst;
    constructor; eauto.
Qed.

Lemma Forall2_fmap_self {A} (R : A → A → Prop) (f : A → A) (l : list A) :
  (∀ x, R x (f x)) → Forall2 R l (f <$> l).
Proof. intros HR. induction l; constructor; auto. Qed.

Lemma kept_or_failed_trans r1 r2 r3 :
  kept_or_failed r1 r2 → kept_or_failed r2 r3 → kept_or_failed r1 r3.
Proof.
  intros [->|(Hnt & Hst & Hids)] [->|(Hnt' & Hrest)];
    [by left|by right|by right|].
  unfold terminal in Hnt'. rewrite Hst in Hnt'. done.
Qed.

Lemma kept_or_set_trans s p1 p2 p3 :
  kept_or_set s p1 p2 → kept_or_set s p2 p3 → kept_or_set s p1 p3.
Proof. intros [->| ->] [->| ->]; [by left|by right|by right|by right; destruct p1]. Qed.

Lemma kept_or_failed_fail_row failure_reason now r :
  kept_or_failed r (fail_row failure_reason now r).
Proof.
  unfold kept_or_failed, fail_row.
  destruct (terminal (IndexAttempt.status r)) eqn:Ht; [by left|by right].
Qed.

#[local] Instance only_fails_preorder : PreOrder only_fails.
Proof.
  split.
  - intros s. split; try done; apply Forall2_diag_refl; by left.
  - intros s1 s2 s3 [] []. split; try congruence.
    + eapply Forall2_trans; [apply kept_or_failed_trans|done..].
    + eapply Forall2_trans; [apply kept_or_set_trans|done..].
Qed.

#[local] Instance only_creates_preorder : PreOrder only_creates.
Proof.
  split.
  - intros s. split; try done.
    + exists []. by rewrite app_nil_r.
    + apply Forall2_diag_refl. by left.
  - intros s1 s2 s3 [? ? ? ? (c1 & E1 & F1) ?] [? ? ? ? (c2 & E2 & F2) ?].
    split; try congruence.
    + exists (c1 ++ c2). split; [by rewrite E2, E1, (assoc_L (++))|].
      by apply Forall_app.
    + eapply Forall2_trans; [apply kept_or_set_trans|done..].
Qed.

#[local] Instance only_restatuses_preorder : PreOrder only_restatuses.
Proof.
  split.
  - intros s. by split.
  - intros s1 s2 s3 [] []. split; congruence.
Qed.

Section changes_rules.
Context (S : Store → Store → Prop) `{!PreOrder S}.

Lemma changes_ret {A} (a : A) : changes S (mret a).
Proof. intros w. reflexivity. Qed.

Lemma changes_raise {A} (e : Exn) : changes S (raise e : M A).
Proof. intros w. reflexivity. Qed.

Lemma changes_gets {A} (f : Store → A) : changes S (gets f).
Proof. intros w. reflexivity. Qed.

Lemma changes_emit (e : Event) : changes S (emit e).
Proof. intros w. reflexivity. Qed.

Lemma changes_write (f : Store → Store) : (∀ s, S s (f s)) → changes S (write f).
Proof. intros Hf w. apply Hf. Qed.

Lemma changes_bind {A B} (m : M A) (f : A → M B) :
  changes S m → (∀ a, changes S (f a)) → changes S (m ≫= f).
Proof.
  intros Hm Hf w. specialize (Hm w). unfold after in *. rewrite run_bind.
  destruct (m w) as [[a|e] w1]; simpl in *; [|done].
  etrans; [done|]. apply (Hf a w1).
Qed.

Lemma changes_for_fold {A T} (xs : list A) (acc : T) (body : A → T → M T) :
  (∀ x acc, changes S (body x acc)) → changes S (for_fold xs acc body).
Proof.
  intros Hbody. revert acc. induction xs as [|x xs IH]; intros acc.
  - apply changes_ret.
  - rewrite for_fold_cons. apply changes_bind; [apply Hbody|apply IH].
Qed.

Lemma changes_for {A} (xs : list A) (body : A → M unit) :
  (∀ x, changes S (body x)) → changes S (for_ xs body).
Proof. intros Hbody. unfold for_. apply changes_for_fold. auto. Qed.

Lemma changes_submit client attempt_id num_threads :
  changes S (submit client attempt_id num_threads).
Proof. intros w. reflexivity. Qed.

Lemma changes_get_current : changes S get_current_db_embedding_model.
Proof.
  intros w. unfold after, get_current_db_embedding_model.
  by destruct (find_model_with_status PRESENT (db w)).
Qed.

Lemma changes_get_num_threads : changes S _get_num_threads.
Proof. intros w. reflexivity. Qed.
End changes_rules.

(** Breaks a computation down to its store writes, which [leaf] solves. *)
Ltac changes_with leaf :=
  repeat first
    [ leaf
    | apply changes_ret; typeclasses eauto
    | apply changes_raise; typeclasses eauto
    | apply changes_gets; typeclasses eauto
    | apply changes_emit; typeclasses eauto
    | apply changes_submit; typeclasses eauto
    | apply changes_get_current; typeclasses eauto
    | apply changes_get_num_threads; typeclasses eauto
    | apply changes_bind; [typeclasses eauto| |intros ?]
    | apply changes_for_fold; [typeclasses eauto|intros ? ?]
    | apply changes_for; [typeclasses eauto|intros ?]
    | match goal with
      | |- changes _ (match ?x with _ => _ end) => destruct x
      | |- changes _ ((match ?x with _ => _ end) _) => destruct x
      end ].

Lemma mark_attempt_failed_only_fails a failure_reason :
  changes only_fails (mark_attempt_failed a failure_reason).
Proof.
  intros w. rewrite mark_attempt_failed_after. split; simpl; try done.
  - apply Forall2_fmap_self. intros r. case_bool_decide; [|by left].
    apply kept_or_failed_fail_row.
  - apply Forall2_diag_refl. by left.
Qed.

Lemma update_connector_credential_pair_only_fails c k :
  changes only_fails (update_connector_credential_pair c k FAILED).
Proof.
  intros w. split; simpl; try done.
  - apply Forall2_diag_refl. by left.
  - apply Forall2_fmap_self. intros p. case_bool_decide; [by right|by left].
Qed.

Lemma mark_run_failed_only_fails a failure_reason :
  changes only_fails (_mark_run_failed a failure_reason).
Proof.
  unfold _mark_run_failed, logger.
  changes_with ltac:(first [ apply mark_attempt_failed_only_fails
                           | apply update_connector_credential_pair_only_fails ]).
Qed.

#[local] Instance only_fails_attempts_preorder : PreOrder only_fails_attempts.
Proof.
  split.
  - intros s. split; reflexivity.
  - intros s1 s2 s3 [? ?] [? ?]. split; [by etrans|congruence].
Qed.

Lemma emitted_only {A} (P : Event → bool) (m : M A) (w : World) :
  emits_only P m → Forall (λ e, P e = true) (emitted m w).
Proof. intros Hm. destruct (Hm w) as (es & He & HP). by rewrite (emitted_eq _ _ _ He). Qed.

Lemma emits_mark_run_failed_reaper a failure_reason :
  failure_reason = _UNEXPECTED_STATE_FAILURE_REASON
  ∨ failure_reason = _FROZEN_FAILURE_REASON →
  emits_only reaper_event (_mark_run_failed a failure_reason).
Proof.
  intros Hreason.
  unfold _mark_run_failed, mark_attempt_failed, update_connector_credential_pair,
    logger.
  emits; apply emits_emit; simpl; by apply bool_decide_eq_true_2.
Qed.

(** X8. [cleanup_indexing_jobs], whether it returns or raises, only logs,
    releases and cancels handles, marks attempts as failed with one of its
    two reasons and sets pairs to FAILED: it submits nothing and creates no
    attempt.  In the store it deletes and creates no row, leaves every
    terminal attempt as it was, moves the others to FAILED at most, and sets
    pairs to FAILED at most; connectors, credentials, models and the clock
    are untouched. *)
Theorem cleanup_indexing_jobs_only_fails
    (existing_jobs : Jobs) (timeout_hours : Z) (w : World) :
  let cleanup := cleanup_indexing_jobs existing_jobs timeout_hours in
  Forall (λ e, reaper_event e = true) (emitted cleanup w)
  ∧ only_fails (db w) (db (after cleanup w)).
Proof.
  intros cleanup. subst cleanup. split.
  - apply emitted_only.
    unfold cleanup_indexing_jobs, cleanup_tracked_job, cleanup_inprogress_attempt,
      get_index_attempt, fetch_connectors, get_inprogress_index_attempts,
      job_release, job_cancel, logger.
    emits; apply emits_mark_run_failed_reaper; auto.
  - revert w. change (changes only_fails (cleanup_indexing_jobs existing_jobs timeout_hours)).
    unfold cleanup_indexing_jobs, cleanup_tracked_job, cleanup_inprogress_attempt,
      get_index_attempt, fetch_connectors, get_inprogress_index_attempts,
      job_release, job_cancel, logger.
    changes_with ltac:(apply mark_run_failed_only_fails).
Qed.

Lemma create_index_attempt_only_creates c k m :
  changes only_creates (create_index_attempt c k m).
Proof.
  intros w. split; simpl; try done.
  - eexists. split; [done|]. by repeat constructor.
  - apply Forall2_diag_refl. by left.
Qed.

Lemma update_connector_credential_pair_only_creates c k :
  changes only_creates (update_connector_credential_pair c k NOT_STARTED).
Proof.
  intros w. split; simpl; try done.
  - exists []. by rewrite app_nil_r.
  - apply Forall2_fmap_self. intros p. case_bool_decide; [by right|by left].
Qed.

Lemma create_indexing_jobs_changes existing_jobs :
  changes only_creates (create_indexing_jobs existing_jobs).
Proof.
  unfold create_indexing_jobs, create_indexing_jobs_ongoing,
    create_indexing_jobs_track, get_index_attempt, fetch_connectors,
    get_secondary_db_embedding_model, get_last_attempt, logger.
  changes_with ltac:(first [ apply create_index_attempt_only_creates
                           | apply update_connector_credential_pair_only_creates ]).
Qed.

(** X11. [create_indexing_jobs], whether it returns or raises, only logs the
    tracked identifiers without a row, creates attempts and sets pairs to
    NOT_STARTED: it calls no handle and no client and marks nothing as
    failed.  In the store the rows that were there stay as they were, with
    the created rows, all NOT_STARTED, appended; pairs are set to
    NOT_STARTED at most; connectors, credentials, models and the clock are
    untouched. *)
Theorem create_indexing_jobs_only_creates (existing_jobs : Jobs) (w : World) :
  let create := create_indexing_jobs existing_jobs in
  Forall (λ e, scheduler_event e = true) (emitted create w)
  ∧ only_creates (db w) (db (after create w)).
Proof.
  intros create. subst create. split.
  - apply emitted_only.
    unfold create_indexing_jobs, create_indexing_jobs_ongoing,
      create_indexing_jobs_track, get_index_attempt, fetch_connectors,
      get_secondary_db_embedding_model, get_last_attempt, create_index_attempt,
      update_connector_credential_pair, logger.
    emits.
  - apply create_indexing_jobs_changes.
Qed.

Lemma mark_attempt_failed_only_fails_attempts a failure_reason :
  changes only_fails_attempts (mark_attempt_failed a failure_reason).
Proof. intros w. split; [apply mark_attempt_failed_only_fails|done]. Qed.

(** X12. [kickoff_indexing_jobs] only logs, submits jobs and marks attempts as
    failed with "Connector is null" or "Credential is null": it creates no
    attempt, calls no handle, and never touches a pair, not even that of an
    attempt it fails.  In the store it deletes and creates no row, leaves
    every terminal attempt as it was and moves the others to FAILED at most;
    pairs, connectors, credentials, models and the clock are untouched. *)
Theorem kickoff_indexing_jobs_only_fails_attempts
    (existing_jobs : Jobs) (client secondary_client : ClientRef) (w : World) :
  let kickoff := kickoff_indexing_jobs existing_jobs client secondary_client in
  Forall (λ e, dispatcher_event e = true) (emitted kickoff w)
  ∧ only_fails (db w) (db (after kickoff w))
  ∧ cc_pairs (db (after kickoff w)) = cc_pairs (db w).
Proof.
  intros kickoff. subst kickoff. split.
  - apply emitted_only.
    unfold kickoff_indexing_jobs, kickoff_attempt, get_not_started_index_attempts,
      mark_attempt_failed, logger.
    emits.
  - revert w.
    change (changes only_fails_attempts
              (kickoff_indexing_jobs existing_jobs client secondary_client)).
    unfold kickoff_indexing_jobs, kickoff_attempt, get_not_started_index_attempts,
      logger.
    changes_with ltac:(apply mark_attempt_failed_only_fails_attempts).
Qed.

Lemma update_embedding_model_status_only_restatuses m s :
  changes only_restatuses (update_embedding_model_status m s).
Proof.
  intros w. split; simpl; try done.
  rewrite <- list_fmap_compose. apply list_fmap_ext. intros _ x _. simpl.
  by case_bool_decide.
Qed.

Lemma resync_cc_pair_only_restatuses p : changes only_restatuses (resync_cc_pair p).
Proof.
  intros w. split; simpl; try done.
  rewrite <- list_fmap_compose. apply list_fmap_ext. intros _ x _. simpl.
  by case_bool_decide.
Qed.

(** X6. [check_index_swap], whether it returns or raises, only sets statuses of
    models and resyncs pairs: it marks no attempt, creates none, and calls
    no handle and no client.  In the store the attempts, the connectors, the
    credentials and the clock are untouched, and the models and the pairs
    are the same up to their statuses. *)
Theorem check_index_swap_only_restatuses (w : World) :
  Forall (λ e, swap_event e = true) (emitted check_index_swap w)
  ∧ only_restatuses (db w) (db (after check_index_swap w)).
Proof.
  split.
  - apply emitted_only.
    unfold check_index_swap, get_connector_credential_pairs,
      get_secondary_db_embedding_model, count_unique_cc_pairs_with_index_attempts,
      update_embedding_model_status, resync_cc_pair.
    emits.
  - revert w. change (changes only_restatuses check_index_swap).
    unfold check_index_swap, get_connector_credential_pairs,
      get_secondary_db_embedding_model, count_unique_cc_pairs_with_index_attempts.
    changes_with ltac:(first [ apply update_embedding_model_status_only_restatuses
                             | apply resync_cc_pair_only_restatuses ]).
Qed.

(** ** The dispatcher and the tracked jobs *)

Lemma dispatched_among_mono ids ids' cfg e :
  (∀ i, i ∈ ids → i ∈ ids') → dispatched_among ids cfg e → dispatched_among ids' cfg e.
Proof. intros Hsub. destruct e; simpl; naive_solver. Qed.

(** One turn of the dispatcher: it returns, keeps the configuration, and
    acts on its attempt only. *)
Lemma kickoff_attempt_step client secondary_client a em acc w :
  ∃ acc' w' step,
    kickoff_attempt client secondary_client a em acc w = (Returned acc', w')
    ∧ effects w' = effects w ++ step
    ∧ config w' = config w
    ∧ Forall (dispatched_among [IndexAttempt.id a] (config w)) step
    ∧ (acc' = acc ∨ ∃ run, acc' = <[IndexAttempt.id a := run]> acc).
Proof.
  unfold kickoff_attempt, mark_attempt_failed, _get_num_threads, submit.
  run. destruct (attempt_connector a (db w)); run.
  2:{ eexists _, _, _. split; [done|]. simpl.
      split; [by rewrite <- (assoc_L (++))|]. split; [done|].
      split; [|by left]. repeat constructor. }
  destruct (attempt_credential a (db w)); run.
  2:{ eexists _, _, _. split; [done|]. simpl.
      split; [by rewrite <- (assoc_L (++))|]. split; [done|].
      split; [|by left]. repeat constructor. }
  destruct em as [em|]; [case_bool_decide|]; run.
  all: match goal with |- context [respond ?c ?h ?j] =>
         destruct (respond c h j) as [run_|] end; run.
  all: eexists _, _, _; (split; [done|]); simpl;
         (split; [by rewrite <- ?(assoc_L (++))|]); (split; [done|]);
         (split; [repeat constructor|eauto]).
Qed.

Lemma kickoff_loop_step client secondary_client
    (l : list (IndexAttempt.t * option EmbeddingModel.t)) acc w :
  ∃ acc' w' es,
    for_fold l acc
      (λ '(attempt, embedding_model),
         kickoff_attempt client secondary_client attempt embedding_model) w
    = (Returned acc', w')
    ∧ effects w' = effects w ++ es
    ∧ config w' = config w
    ∧ Forall (dispatched_among (IndexAttempt.id <$> l.*1) (config w)) es
    ∧ (∀ i, i ∉ IndexAttempt.id <$> l.*1 → acc' !! i = acc !! i)
    ∧ (∀ i, is_Some (acc' !! i) → is_Some (acc !! i) ∨ i ∈ IndexAttempt.id <$> l.*1).
Proof.
  revert acc w. induction l as [|[b em] l IH]; intros acc w.
  - exists acc, w, []. rewrite app_nil_r. split_and!; auto.
  - rewrite for_fold_cons, run_bind.
    destruct (kickoff_attempt_step client secondary_client b em acc w)
      as (acc1 & w1 & es1 & -> & He1 & Hc1 & HP1 & Hacc1).
    destruct (IH acc1 w1) as (acc2 & w2 & es2 & -> & He2 & Hc2 & HP2 & Hkeep & Hnew).
    exists acc2, w2, (es1 ++ es2). split; [done|].
    split; [by rewrite He2, He1, (assoc_L (++))|].
    split; [congruence|]. rewrite !fmap_cons. simpl. split_and!.
    + apply Forall_app. split.
      * eapply Forall_impl; [done|]. intros e. apply dispatched_among_mono.
        intros i Hi. apply list_elem_of_singleton in Hi as ->. apply list_elem_of_here.
      * rewrite Hc1 in HP2. eapply Forall_impl; [done|]. intros e.
        apply dispatched_among_mono. intros i Hi. by apply list_elem_of_further.
    + intros i Hi. rewrite not_elem_of_cons in Hi. destruct Hi as [Hne Hi].
      rewrite (Hkeep i Hi).
      destruct Hacc1 as [->|[run_ ->]]; [done|]. by rewrite lookup_insert_ne.
    + intros i Hi. destruct (Hnew i Hi) as [Hi'|Hi'].
      * destruct Hacc1 as [->|[run_ ->]]; [by left|].
        destruct (decide (IndexAttempt.id b = i)) as [->|Hne].
        -- right. apply list_elem_of_here.
        -- rewrite lookup_insert_ne in Hi' by done. by left.
      * right. by apply list_elem_of_further.
Qed.

Lemma list_case_same {A B} (l : list A) (X Y : B) :
  (l = [] → X = Y) → match l with [] => X | _ :: _ => Y end = Y.
Proof. destruct l; auto. Qed.

(** The attempts the dispatcher picks up. *)
Lemma kickoff_picked (existing_jobs : Jobs) (db_session : Store) (i : Z) :
  i ∈ IndexAttempt.id
      <$> ((λ attempt, (attempt, attempt_embedding_model attempt db_session))
           <$> filter (λ attempt, existing_jobs !! IndexAttempt.id attempt = None)
                 (filter (λ a, IndexAttempt.status a = NOT_STARTED)
                         (index_attempts db_session))).*1
  ↔ existing_jobs !! i = None
    ∧ ∃ a, a ∈ index_attempts db_session
         ∧ IndexAttempt.id a = i ∧ IndexAttempt.status a = NOT_STARTED.
Proof.
  rewrite <- !list_fmap_compose. rewrite list_elem_of_fmap. split.
  - intros (a & -> & Ha). simpl. rewrite !list_elem_of_filter in Ha. naive_solver.
  - intros (Hi & a & Ha & <- & Hst). exists a. split; [done|].
    rewrite !list_elem_of_filter. done.
Qed.

Lemma kickoff_indexing_jobs_steps existing_jobs client secondary_client w :
  ∃ tracked w' es,
    kickoff_indexing_jobs existing_jobs client secondary_client w
    = (Returned tracked, w')
    ∧ effects w' = effects w ++ es
    ∧ Forall (dispatched_among
                (IndexAttempt.id
                 <$> ((λ attempt, (attempt, attempt_embedding_model attempt (db w)))
                      <$> filter (λ attempt,
                                    existing_jobs !! IndexAttempt.id attempt = None)
                            (filter (λ a, IndexAttempt.status a = NOT_STARTED)
                                    (index_attempts (db w)))).*1)
                (config w)) es
    ∧ (∀ i job, existing_jobs !! i = Some job → tracked !! i = Some job)
    ∧ (∀ i, is_Some (tracked !! i) →
         is_Some (existing_jobs !! i)
         ∨ (existing_jobs !! i = None
            ∧ ∃ a, a ∈ index_attempts (db w)
                 ∧ IndexAttempt.id a = i ∧ IndexAttempt.status a = NOT_STARTED)).
Proof.
  unfold kickoff_indexing_jobs, get_not_started_index_attempts. run.
  set (picked := (λ attempt, (attempt, attempt_embedding_model attempt (db w)))
                 <$> filter (λ attempt, existing_jobs !! IndexAttempt.id attempt = None)
                       (filter (λ a, IndexAttempt.status a = NOT_STARTED)
                               (index_attempts (db w)))).
  set (w0 := {| db := db w; config := config w; primary := primary w;
                secondary := secondary w;
                effects := effects w
                  ++ [Log INFO (found_new_indexing_tasks (length picked))] |}).
  destruct (kickoff_loop_step client secondary_client picked existing_jobs w0)
    as (acc & w1 & es & Hrun & He & _ & HP & Hkeep & Hnew).
  exists acc, w1, (Log INFO (found_new_indexing_tasks (length picked)) :: es).
  split.
  { rewrite list_case_same; [done|]. intros Hnil. by rewrite Hnil. }
  simpl in He. split; [by rewrite He, <- (assoc_L (++))|].
  split; [by constructor|]. split.
  - intros i job Hi. rewrite Hkeep; [done|].
    unfold picked. rewrite kickoff_picked. intros [Hnone _]. congruence.
  - intros i Hi. destruct (Hnew i Hi) as [?|Hin]; [by left|].
    right. by apply kickoff_picked.
Qed.

(** X13. [kickoff_indexing_jobs] always returns, and what it returns extends the
    tracked jobs: every tracked handle is kept as it was, and an identifier
    that is tracked afterwards and was not before is that of a NOT_STARTED
    attempt of the store.  When every NOT_STARTED attempt is tracked already,
    it returns the tracked jobs as they were and only logs that it found no
    new task. *)
Theorem kickoff_indexing_jobs_extends
    (existing_jobs : Jobs) (client secondary_client : ClientRef) (w : World) :
  let kickoff := kickoff_indexing_jobs existing_jobs client secondary_client in
  (∃ tracked,
     outcome kickoff w = Returned tracked
     ∧ (∀ i job, existing_jobs !! i = Some job → tracked !! i = Some job)
     ∧ (∀ i, is_Some (tracked !! i) → existing_jobs !! i = None →
          ∃ a, a ∈ index_attempts (db w)
             ∧ IndexAttempt.id a = i ∧ IndexAttempt.status a = NOT_STARTED))
  ∧ ((∀ a, a ∈ index_attempts (db w) → IndexAttempt.status a = NOT_STARTED →
        is_Some (existing_jobs !! IndexAttempt.id a)) →
     kickoff w
     = (Returned existing_jobs, after (logger INFO (found_new_indexing_tasks 0)) w)).
Proof.
  intros kickoff. subst kickoff. split.
  - destruct (kickoff_indexing_jobs_steps existing_jobs client secondary_client w)
      as (tracked & w' & es & Hrun & _ & _ & Hkeep & Hnew).
    exists tracked. unfold outcome. rewrite Hrun. split; [done|]. split; [done|].
    intros i Hi Hnone. destruct (Hnew i Hi) as [[? ?]|[_ ?]]; [congruence|done].
  - intros Hall. unfold kickoff_indexing_jobs, get_not_started_index_attempts. run.
    assert (Hnil : filter (λ attempt, existing_jobs !! IndexAttempt.id attempt = None)
                     (filter (λ a, IndexAttempt.status a = NOT_STARTED)
                             (index_attempts (db w))) = []).
    { apply elem_of_nil_inv. intros a Ha. rewrite !list_elem_of_filter in Ha.
      destruct Ha as (Hnone & Hst & Ha). destruct (Hall a Ha Hst). congruence. }
    by rewrite Hnil.
Qed.

(** X14. Every job [kickoff_indexing_jobs] submits, and every attempt it marks as
    failed, is a NOT_STARTED attempt of the store that is not tracked; every
    submission asks for [max(MIN_THREADS_ML_MODELS, torch.get_num_threads())]
    threads. *)
Theorem kickoff_indexing_jobs_submissions
    (existing_jobs : Jobs) (client secondary_client : ClientRef) (w : World) :
  let kickoff := kickoff_indexing_jobs existing_jobs client secondary_client in
  (∀ c i n accepted, Submit c i n accepted ∈ emitted kickoff w →
     n = Z.max (MIN_THREADS_ML_MODELS (config w)) (torch_get_num_threads (config w))
     ∧ MIN_THREADS_ML_MODELS (config w) ≤ n
     ∧ existing_jobs !! i = None
     ∧ ∃ a, a ∈ index_attempts (db w)
          ∧ IndexAttempt.id a = i ∧ IndexAttempt.status a = NOT_STARTED)
  ∧ (∀ i failure_reason, MarkAttemptFailed i failure_reason ∈ emitted kickoff w →
       existing_jobs !! i = None
       ∧ ∃ a, a ∈ index_attempts (db w)
            ∧ IndexAttempt.id a = i ∧ IndexAttempt.status a = NOT_STARTED).
Proof.
  intros kickoff. subst kickoff.
  destruct (kickoff_indexing_jobs_steps existing_jobs client secondary_client w)
    as (tracked & w' & es & Hrun & He & HP & _).
  assert (Hem : emitted (kickoff_indexing_jobs existing_jobs client secondary_client) w
                = es).
  { apply emitted_eq. unfold after. by rewrite Hrun. }
  rewrite Hem. rewrite Forall_forall in HP. split.
  - intros c i n accepted Hin. apply HP in Hin. simpl in Hin.
    destruct Hin as [Hi ->]. apply kickoff_picked in Hi. split; [done|].
    split; [lia|done].
  - intros i failure_reason Hin. apply HP in Hin. simpl in Hin.
    by apply kickoff_picked in Hin.
Qed.

(** ** The reaper and the tracked jobs *)

Lemma cleanup_tracked_job_kept j job acc w :
  kept j job (db w) = true → cleanup_tracked_job j job acc w = (Returned acc, w).
Proof.
  unfold kept. intros Hkept. unfold cleanup_tracked_job, get_index_attempt. run.
  by rewrite Hkept.
Qed.

(** What a turn of the tracked sweep does with a handle it drops. *)
Lemma cleanup_tracked_job_dropped j job acc w :
  kept j job (db w) = false →
  let w1 := if bool_decide (Job.status job = error)
            then after (logger ERROR (job_exception j)) w else w in
  let w2 := after (job_release j) w1 in
  cleanup_tracked_job j job acc w
  = match lookup_index_attempt j (db w) with
    | None =>
      (Returned (delete j acc),
       after (logger ERROR (unable_to_find_attempt_when_cleaning j)) w2)
    | Some a =>
      if bool_decide (IndexAttempt.status a = IN_PROGRESS)
         || bool_decide (Job.status job = error)
      then (match outcome (_mark_run_failed a _UNEXPECTED_STATE_FAILURE_REASON) w2 with
            | Returned _ => Returned (delete j acc)
            | Raised e => Raised e
            end,
            after (_mark_run_failed a _UNEXPECTED_STATE_FAILURE_REASON) w2)
      else (Returned (delete j acc), w2)
    end.
Proof.
  intros Hdropped w1 w2. subst w1 w2. unfold kept in Hdropped.
  unfold cleanup_tracked_job, get_index_attempt, job_release. run.
  rewrite Hdropped.
  destruct (bool_decide (Job.status job = error)); run;
    destruct (lookup_index_attempt j (db w)) as [a|]; run; try done;
    destruct (bool_decide (IndexAttempt.status a = IN_PROGRESS)); run; try done;
    by match goal with |- context [_mark_run_failed a ?r ?w0] =>
         destruct (_mark_run_failed a r w0) as [[[]|e] w3] end.
Qed.

Lemma cleanup_tracked_job_value j job acc w acc' w' :
  cleanup_tracked_job j job acc w = (Returned acc', w') →
  acc' = acc ∨ acc' = delete j acc.
Proof.
  destruct (kept j job (db w)) eqn:Hkept.
  - rewrite cleanup_tracked_job_kept by done. intros [= <- _]. by left.
  - rewrite cleanup_tracked_job_dropped by done.
    destruct (lookup_index_attempt j (db w)) as [a|]; [|intros [= <- _]; by right].
    destruct (_ || _); [|intros [= <- _]; by right].
    destruct (outcome _ _); [|done]. intros [= <- _]. by right.
Qed.

Lemma cleanup_tracked_job_dropped_value j job acc w acc' w' :
  kept j job (db w) = false →
  cleanup_tracked_job j job acc w = (Returned acc', w') →
  acc' = delete j acc.
Proof.
  intros Hdropped. rewrite cleanup_tracked_job_dropped by done.
  destruct (lookup_index_attempt j (db w)) as [a|]; [|by intros [= <- _]].
  destruct (_ || _); [|by intros [= <- _]].
  destruct (outcome _ _); [|done]. by intros [= <- _].
Qed.

(** The turns of the tracked sweep on other handles. *)
Lemma tracked_loop_others i (l : list (Z * Job.t)) acc w copy w1 :
  (∀ j job, (j, job) ∈ l → j ≠ i) →
  for_fold l acc (λ '(attempt_id, job), cleanup_tracked_job attempt_id job) w
  = (Returned copy, w1) →
  frame i w w1 ∧ copy !! i = acc !! i.
Proof.
  revert acc w. induction l as [|[j job] l IH]; intros acc w Hl Hrun.
  - injection Hrun as <- <-. split; [apply frame_refl|done].
  - rewrite for_fold_cons, run_bind in Hrun.
    assert (Hne : j ≠ i) by (eapply Hl, list_elem_of_here).
    pose proof (cleanup_tracked_job_frame i w j job acc Hne w (frame_refl _ _)) as Hf.
    destruct (cleanup_tracked_job j job acc w) as [[acc1|e] w0] eqn:Hstep; [|done].
    apply cleanup_tracked_job_value in Hstep.
    destruct (IH acc1 w0) as [Hf' Hacc]; [|done|].
    { intros j' job' Hin. eapply Hl. by apply list_elem_of_further. }
    split; [by eapply frame_trans|]. rewrite Hacc.
    destruct Hstep as [->| ->]; [done|]. by apply lookup_delete_ne.
Qed.

(** The tracked sweep, followed on one tracked handle. *)
Lemma tracked_sweep_tracked (existing_jobs : Jobs) i job w copy w1 :
  existing_jobs !! i = Some job →
  for_fold (map_to_list existing_jobs) existing_jobs
    (λ '(attempt_id, job), cleanup_tracked_job attempt_id job) w
  = (Returned copy, w1) →
  ∃ wa wb acc_a acc_b,
    frame i w wa
    ∧ cleanup_tracked_job i job acc_a wa = (Returned acc_b, wb)
    ∧ frame i wb w1
    ∧ acc_a !! i = Some job
    ∧ copy !! i = acc_b !! i.
Proof.
  intros Hi Hrun.
  pose proof (NoDup_fst_map_to_list existing_jobs) as Hnd.
  assert (Hin : (i, job) ∈ map_to_list existing_jobs) by (by apply elem_of_map_to_list).
  apply list_elem_of_split in Hin as (l1 & l2 & Hsplit).
  rewrite Hsplit in Hrun, Hnd.
  rewrite fmap_app, fmap_cons in Hnd. simpl in Hnd.
  apply NoDup_app in Hnd as (_ & Hdisj & Hnd2).
  apply NoDup_cons in Hnd2 as [Hnot _].
  rewrite for_fold_app in Hrun.
  destruct (for_fold l1 _ _ w) as [[acc_a|e] wa] eqn:H1; [|done].
  rewrite for_fold_cons, run_bind in Hrun.
  destruct (cleanup_tracked_job i job acc_a wa) as [[acc_b|e] wb] eqn:H2; [|done].
  apply tracked_loop_others with (i := i) in H1 as [Hf1 Ha].
  2:{ intros j job' Hin ->. apply (Hdisj i); [|apply list_elem_of_here].
      apply list_elem_of_fmap. by exists (i, job'). }
  apply tracked_loop_others with (i := i) in Hrun as [Hf2 Hb].
  2:{ intros j job' Hin ->. apply Hnot. apply list_elem_of_fmap. by exists (i, job'). }
  exists wa, wb, acc_a, acc_b. split_and!; try done. by rewrite Ha.
Qed.

Lemma tracked_sweep_untracked (existing_jobs : Jobs) i w copy w1 :
  existing_jobs !! i = None →
  for_fold (map_to_list existing_jobs) existing_jobs
    (λ '(attempt_id, job), cleanup_tracked_job attempt_id job) w
  = (Returned copy, w1) →
  frame i w w1 ∧ copy !! i = None.
Proof.
  intros Hi Hrun. apply tracked_loop_others with (i := i) in Hrun as [Hf Hc].
  - split; [done|]. by rewrite Hc.
  - intros j job Hin ->. apply elem_of_map_to_list in Hin. congruence.
Qed.

(** A call of [cleanup_indexing_jobs] that returns: the tracked sweep, then
    the in-progress sweep over the connectors of the store. *)
Lemma cleanup_indexing_jobs_run existing_jobs timeout_hours w tracked :
  outcome (cleanup_indexing_jobs existing_jobs timeout_hours) w = Returned tracked →
  ∃ w1,
    for_fold (map_to_list existing_jobs) existing_jobs
      (λ '(attempt_id, job), cleanup_tracked_job attempt_id job) w
    = (Returned tracked, w1)
    ∧ cleanup_inprogress_sweep existing_jobs timeout_hours (connectors (db w1)) w1
      = (Returned (), after (cleanup_indexing_jobs existing_jobs timeout_hours) w).
Proof.
  unfold cleanup_indexing_jobs, cleanup_inprogress_sweep, outcome, after,
    fetch_connectors.
  rewrite run_bind.
  destruct (for_fold _ _ _ w) as [[copy|e] w1]; [|done]. run.
  destruct (for_ _ _ w1) as [[[]|e] w2] eqn:Hsweep; [|done]. simpl. intros [= ->].
  by exists w1.
Qed.

Lemma emits_cleanup_inprogress_sweep existing_jobs timeout_hours cs :
  emits_only not_release (cleanup_inprogress_sweep existing_jobs timeout_hours cs).
Proof.
  unfold cleanup_inprogress_sweep, cleanup_inprogress_attempt,
    get_inprogress_index_attempts, job_cancel, _mark_run_failed,
    mark_attempt_failed, update_connector_credential_pair, logger.
  emits.
Qed.

Lemma quiet_no_release i es : quiet i es → filter (λ e, e = JobRelease i) es = [].
Proof.
  intros Hq. apply elem_of_nil_inv. intros e He.
  apply list_elem_of_filter in He as [-> He].
  apply (quiet_not_elem i es (JobRelease i) Hq); [|done].
  simpl. by apply bool_decide_eq_true_2.
Qed.

Lemma not_release_no_release i es :
  Forall (λ e, not_release e = true) es → filter (λ e, e = JobRelease i) es = [].
Proof.
  intros Hq. apply elem_of_nil_inv. intros e He.
  apply list_elem_of_filter in He as [-> He].
  rewrite Forall_forall in Hq. by apply Hq in He.
Qed.

Lemma filter_nil_not_elem {A} (P : A → Prop) `{∀ x, Decision (P x)} (l : list A) x :
  filter P l = [] → P x → x ∉ l.
Proof.
  intros Hnil HP Hin. assert (Hx : x ∈ filter P l) by (by apply list_elem_of_filter).
  rewrite Hnil in Hx. by apply elem_of_nil in Hx.
Qed.

(** What a turn of the tracked sweep that drops its handle emits: the
    release, once. *)
Lemma cleanup_tracked_job_releases j job acc w o w' :
  kept j job (db w) = false →
  cleanup_tracked_job j job acc w = (o, w') →
  ∃ es, effects w' = effects w ++ es
      ∧ filter (λ e, e = JobRelease j) es = [JobRelease j].
Proof.
  intros Hdropped. rewrite cleanup_tracked_job_dropped by done.
  set (w2 := after (job_release j) _).
  assert (Hw2 : ∃ es, effects w2 = effects w ++ es
                    ∧ filter (λ e, e = JobRelease j) es = [JobRelease j]).
  { subst w2. unfold job_release, logger. case_bool_decide; simpl.
    - exists [Log ERROR (job_exception j); JobRelease j].
      split; [by rewrite <- (assoc_L (++))|].
      rewrite filter_cons_False by done. by rewrite filter_cons_True.
    - exists [JobRelease j]. split; [done|]. by rewrite filter_cons_True. }
  clearbody w2.
  destruct Hw2 as (es & He & Hes).
  destruct (lookup_index_attempt j (db w)) as [a|].
  - destruct (_ || _).
    + intros [= _ <-]. rewrite mark_run_failed_after. simpl. rewrite He.
      eexists. split; [by rewrite <- (assoc_L (++))|].
      rewrite filter_app, Hes.
      rewrite (not_release_no_release j); [done|].
      unfold mark_run_failed_effects. apply Forall_app. split; [by repeat constructor|].
      destruct (IndexAttempt.connector_id a), (IndexAttempt.credential_id a);
        try done.
      destruct (model_is_present _ _); by repeat constructor.
    + intros [= _ <-]. by exists es.
  - intros [= _ <-]. simpl. rewrite He. eexists.
    split; [by rewrite <- (assoc_L (++))|].
    rewrite filter_app, Hes. by rewrite filter_cons_False.
Qed.

(** X9. The jobs [cleanup_indexing_jobs] returns, in a store where every attempt
    has its embedding model (so that the call returns): a tracked handle
    stays exactly when it is not done and its attempt is not marked as
    finished (an attempt without a row counts as not finished); a handle that
    is dropped is released once, a handle that stays is not released, and
    nothing is added. *)
Theorem cleanup_indexing_jobs_tracked
    (existing_jobs : Jobs) (timeout_hours : Z) (w : World) :
  let cleanup := cleanup_indexing_jobs existing_jobs timeout_hours in
  attempts_have_models (db w) →
  ∃ tracked,
    outcome cleanup w = Returned tracked
    ∧ ∀ i, match existing_jobs !! i with
           | Some job =>
             if negb (Job.done job)
                && negb (_is_indexing_job_marked_as_finished
                           (lookup_index_attempt i (db w)))
             then tracked !! i = Some job ∧ JobRelease i ∉ emitted cleanup w
             else tracked !! i = None
                  ∧ filter (λ e, e = JobRelease i) (emitted cleanup w) = [JobRelease i]
           | None => tracked !! i = None ∧ JobRelease i ∉ emitted cleanup w
           end.
Proof.
  intros cleanup Hmodels. subst cleanup.
  destruct (cleanup_indexing_jobs_returns existing_jobs timeout_hours w Hmodels)
    as [tracked Hret].
  exists tracked. split; [done|]. intros i.
  destruct (cleanup_indexing_jobs_run _ _ _ _ Hret) as (w1 & Hsweep1 & Hsweep2).
  destruct (emits_cleanup_inprogress_sweep existing_jobs timeout_hours
              (connectors (db w1)) w1) as (es2 & He2 & Hq2).
  unfold after in He2 at 1. rewrite Hsweep2 in He2. simpl in He2.
  apply (not_release_no_release i) in Hq2.
  destruct (existing_jobs !! i) as [job|] eqn:Hi.
  - destruct (tracked_sweep_tracked _ _ _ _ _ _ Hi Hsweep1)
      as (wa & wb & acc_a & acc_b & Hfa & Hstep & Hfb & Hacc_a & Hcopy).
    destruct (frame_effects _ _ _ Hfa) as (esa & Hea & Hqa).
    destruct (frame_effects _ _ _ Hfb) as (esb & Heb & Hqb).
    apply quiet_no_release in Hqa, Hqb.
    assert (Hlookup : lookup_index_attempt i (db wa) = lookup_index_attempt i (db w)).
    { by rewrite !lookup_index_attempt_rows_of, (frame_rows _ _ _ Hfa). }
    change (negb (Job.done job)
            && negb (_is_indexing_job_marked_as_finished
                       (lookup_index_attempt i (db w))))
      with (kept i job (db w)).
    assert (Hkept : kept i job (db wa) = kept i job (db w))
      by (unfold kept; by rewrite Hlookup).
    destruct (kept i job (db w)) eqn:Hk.
    + rewrite cleanup_tracked_job_kept in Hstep by done.
      injection Hstep as <- <-. split; [congruence|].
      apply (filter_nil_not_elem (λ e, e = JobRelease i)); [|done].
      rewrite (emitted_eq _ _ (esa ++ esb ++ es2)).
      * by rewrite !filter_app, Hqa, Hqb, Hq2.
      * by rewrite He2, Heb, Hea, <- !(assoc_L (++)).
    + pose proof Hstep as Hvalue. apply cleanup_tracked_job_value in Hvalue.
      destruct (cleanup_tracked_job_releases _ _ _ _ _ _ Hkept Hstep)
        as (es & He & Hes).
      split.
      * rewrite Hcopy, (cleanup_tracked_job_dropped_value _ _ _ _ _ _ Hkept Hstep).
        apply lookup_delete_eq.
      * rewrite (emitted_eq _ _ (esa ++ es ++ esb ++ es2)).
        -- rewrite !filter_app, Hqa, Hqb, Hq2, Hes. done.
        -- by rewrite He2, Heb, He, Hea, <- !(assoc_L (++)).
  - destruct (tracked_sweep_untracked _ _ _ _ _ Hi Hsweep1) as [Hf Hcopy].
    split; [done|].
    destruct (frame_effects _ _ _ Hf) as (esa & Hea & Hqa).
    apply quiet_no_release in Hqa.
    apply (filter_nil_not_elem (λ e, e = JobRelease i)); [|done].
    rewrite (emitted_eq _ _ (esa ++ es2)).
    + by rewrite !filter_app, Hqa, Hq2.
    + by rewrite He2, Hea, <- !(assoc_L (++)).
Qed.

(** X10. A handle the tracked sweep drops, with the row of its attempt: the
    handle is released and not cancelled; the attempt is marked, with the
    reason "Stopped mid run, likely due to the background process being
    killed", exactly when it is IN_PROGRESS or the job ended in error, and
    then it is FAILED unless it was terminal already; otherwise its row is
    left as it was.  The in-progress sweep that follows does not touch it. *)
Theorem cleanup_indexing_jobs_dropped_handle
    (existing_jobs : Jobs) (timeout_hours : Z) (w : World)
    (attempt : IndexAttempt.t) (job : Job.t) :
  let i := IndexAttempt.id attempt in
  let cleanup := cleanup_indexing_jobs existing_jobs timeout_hours in
  let marked := bool_decide (IndexAttempt.status attempt = IN_PROGRESS)
                || bool_decide (Job.status job = error) in
  unique_ids (db w) →
  attempts_have_models (db w) →
  attempt ∈ index_attempts (db w) →
  existing_jobs !! i = Some job →
  Job.done job = true
  ∨ _is_indexing_job_marked_as_finished (Some attempt) = true →
  (∃ tracked, outcome cleanup w = Returned tracked ∧ tracked !! i = None)
  ∧ (JobRelease i ∈ emitted cleanup w)
  ∧ (JobCancel i ∉ emitted cleanup w)
  ∧ (∀ failure_reason,
       MarkAttemptFailed i failure_reason ∈ emitted cleanup w
       ↔ marked = true ∧ failure_reason = _UNEXPECTED_STATE_FAILURE_REASON)
  ∧ (marked = true → terminal (IndexAttempt.status attempt) = false →
     ∃ r, lookup_index_attempt i (db (after cleanup w)) = Some r
        ∧ IndexAttempt.status r = FAILED
        ∧ IndexAttempt.failure_reason r = Some _UNEXPECTED_STATE_FAILURE_REASON)
  ∧ (marked = false ∨ terminal (IndexAttempt.status attempt) = true →
     lookup_index_attempt i (db (after cleanup w)) = Some attempt).
Proof.
  intros i cleanup marked Hunique Hmodels Hin Hi Hdrop. subst cleanup.
  destruct (cleanup_indexing_jobs_returns existing_jobs timeout_hours w Hmodels)
    as [tracked Hret].
  destruct (cleanup_indexing_jobs_run _ _ _ _ Hret) as (w1 & Hsweep1 & Hsweep2).
  destruct (tracked_sweep_tracked _ _ _ _ _ _ Hi Hsweep1)
    as (wa & wb & acc_a & acc_b & Hfa & Hstep & Hfb & Hacc_a & Hcopy).
  pose proof (unique_ids_rows_of _ _ Hunique Hin) as Hrow. fold i in Hrow.
  assert (Hrow_a : rows_of i (db wa) = [attempt])
    by (by rewrite (frame_rows _ _ _ Hfa)).
  assert (Hlookup : lookup_index_attempt i (db wa) = Some attempt)
    by (by rewrite lookup_index_attempt_rows_of, Hrow_a).
  assert (Hkept : kept i job (db wa) = false).
  { unfold kept. rewrite Hlookup. destruct Hdrop as [-> | ->]; [done|].
    apply andb_false_r. }
  pose proof (cleanup_tracked_job_dropped_value _ _ _ _ _ _ Hkept Hstep) as ->.
  rewrite cleanup_tracked_job_dropped, Hlookup in Hstep by done.
  fold marked in Hstep.
  set (w2 := after (job_release i) _) in Hstep.
  assert (Hw2 : db w2 = db wa
                ∧ ∃ prelude, effects w2 = effects wa ++ prelude
                           ∧ (JobRelease i ∈ prelude)
                           ∧ (JobCancel i ∉ prelude)
                           ∧ ∀ r, MarkAttemptFailed i r ∉ prelude).
  { subst w2. unfold job_release, logger. case_bool_decide; simpl.
    - split; [done|]. exists [Log ERROR (job_exception i); JobRelease i].
      split; [by rewrite <- (assoc_L (++))|]. split_and!.
      + rewrite !elem_of_cons. auto.
      + intros H'. rewrite !elem_of_cons, elem_of_nil in H'. naive_solver.
      + intros r H'. rewrite !elem_of_cons, elem_of_nil in H'. naive_solver.
    - split; [done|]. exists [JobRelease i]. split; [done|]. split_and!.
      + rewrite !elem_of_cons. auto.
      + intros H'. rewrite !elem_of_cons, elem_of_nil in H'. naive_solver.
      + intros r H'. rewrite !elem_of_cons, elem_of_nil in H'. naive_solver. }
  clearbody w2. destruct Hw2 as (Hdb2 & prelude & He2 & Hrel & Hnc & Hnm).
  (* the step on the attempt *)
  assert (Hb : rows_of i (db wb)
               = [if marked then fail_row _UNEXPECTED_STATE_FAILURE_REASON
                                    (db_time (db w)) attempt
                  else attempt]
               ∧ effects wb
                 = effects wa ++ prelude
                   ++ (if marked
                       then mark_run_failed_effects attempt
                              _UNEXPECTED_STATE_FAILURE_REASON (db w)
                       else [])).
  { destruct marked.
    - apply (f_equal snd) in Hstep. simpl in Hstep. subst wb. split.
      + pose proof (reap_step_rows false attempt _UNEXPECTED_STATE_FAILURE_REASON w2)
          as Hr.
        unfold reap_step in Hr. fold i in Hr.
        by rewrite Hr, Hdb2, Hrow_a, (frame_time _ _ _ Hfa).
      + rewrite mark_run_failed_after. simpl. rewrite He2, <- (assoc_L (++)).
        do 2 f_equal. rewrite Hdb2.
        by apply (mark_run_failed_effects_frame i).
    - apply (f_equal snd) in Hstep. simpl in Hstep. subst wb.
      rewrite Hdb2, Hrow_a, He2.
      split; [done|]. by rewrite app_nil_r. }
  destruct Hb as [Hrow_b Heb].
  assert (Hnot_ip : ∀ r, r ∈ rows_of i (db wb) → IndexAttempt.status r ≠ IN_PROGRESS).
  { intros r Hr. rewrite Hrow_b in Hr. apply list_elem_of_singleton in Hr as ->.
    subst marked. unfold fail_row.
    destruct (decide (IndexAttempt.status attempt = IN_PROGRESS)) as [Hip|Hip].
    - rewrite (bool_decide_eq_true_2 _ Hip). simpl. unfold terminal. by rewrite Hip.
    - rewrite (bool_decide_eq_false_2 _ Hip). simpl.
      destruct (bool_decide (Job.status job = error)); [|done].
      by destruct (terminal (IndexAttempt.status attempt)). }
  (* the in-progress sweep *)
  assert (Hf2 : frame i w1 (after (cleanup_indexing_jobs existing_jobs timeout_hours) w)).
  { pose proof (inprogress_sweep_frame i w1 existing_jobs timeout_hours
                  (connectors (db w1))) as Hsweep.
    unfold triple in Hsweep. specialize (Hsweep) with (w := w1).
    match type of Hsweep with ?H → _ → _ => assert (Hskip : H) end.
    { intros r x Hr _ Hip _. rewrite (frame_rows _ _ _ Hfb) in Hr.
      by destruct (Hnot_ip r Hr). }
    specialize (Hsweep Hskip (frame_refl _ _)).
    unfold cleanup_inprogress_sweep in Hsweep2. by rewrite Hsweep2 in Hsweep. }
  pose proof (frame_trans _ _ _ _ Hfb Hf2) as Hpost.
  destruct (frame_effects _ _ _ Hfa) as (pre & Hea & Hqpre).
  destruct (frame_effects _ _ _ Hpost) as (post & Hepost & Hqpost).
  set (step := prelude
               ++ (if marked
                   then mark_run_failed_effects attempt
                          _UNEXPECTED_STATE_FAILURE_REASON (db w)
                   else [])) in *.
  assert (Hem : emitted (cleanup_indexing_jobs existing_jobs timeout_hours) w
                = pre ++ step ++ post).
  { apply emitted_eq. rewrite Hepost, Heb, Hea. by rewrite <- !(assoc_L (++)). }
  rewrite Hem.
  assert (Hfinal : rows_of i (db (after (cleanup_indexing_jobs existing_jobs
                                           timeout_hours) w))
                   = [if marked then fail_row _UNEXPECTED_STATE_FAILURE_REASON
                                        (db_time (db w)) attempt
                      else attempt])
    by (by rewrite (frame_rows _ _ _ Hpost)).
  split_and!.
  - exists tracked. split; [done|]. rewrite Hcopy. apply lookup_delete_eq.
  - subst step. rewrite !elem_of_app. auto.
  - rewrite (elem_of_quiet_sandwich i) by auto using about_cancel.
    subst step. rewrite elem_of_app. intros [?|Hc]; [done|].
    destruct marked; [|by apply elem_of_nil in Hc].
    unfold mark_run_failed_effects in Hc.
    rewrite elem_of_app, !elem_of_cons, elem_of_nil in Hc.
    destruct Hc as [[?|[?|?]]|Hc]; try done.
    destruct (IndexAttempt.connector_id attempt), (IndexAttempt.credential_id attempt);
      try (by apply elem_of_nil in Hc).
    destruct (model_is_present _ _); [|by apply elem_of_nil in Hc].
    by apply list_elem_of_singleton in Hc.
  - intros r. rewrite (elem_of_quiet_sandwich i) by auto using about_mark.
    subst step. rewrite elem_of_app. split.
    + intros [Hp|Hm]; [by destruct (Hnm r)|].
      destruct marked; [|by apply elem_of_nil in Hm]. split; [done|].
      unfold mark_run_failed_effects in Hm.
      rewrite elem_of_app, !elem_of_cons, elem_of_nil in Hm.
      destruct Hm as [[?|[[= ->]|?]]|Hm]; try done.
      destruct (IndexAttempt.connector_id attempt),
               (IndexAttempt.credential_id attempt);
        try (by apply elem_of_nil in Hm).
      destruct (model_is_present _ _); [|by apply elem_of_nil in Hm].
      by apply list_elem_of_singleton in Hm.
    + intros [-> ->]. right. unfold mark_run_failed_effects.
      rewrite elem_of_app, !elem_of_cons. auto.
  - intros -> Hnt. eexists. rewrite lookup_index_attempt_rows_of, Hfinal.
    split; [done|]. by apply fail_row_not_terminal.
  - intros Hcase. rewrite lookup_index_attempt_rows_of, Hfinal. simpl.
    destruct Hcase as [-> |Ht]; [done|].
    unfold fail_row. rewrite Ht. by destruct marked.
Qed.

(** ** The scheduler, visit by visit *)

Lemma create_indexing_jobs_visits_eq existing_jobs :
  create_indexing_jobs existing_jobs
  = (ongoing ← create_indexing_jobs_ongoing existing_jobs;
     current ← get_current_db_embedding_model;
     secondary_embedding_model ← get_secondary_db_embedding_model;
     all_connectors ← fetch_connectors;
     create_indexing_jobs_visits ongoing all_connectors
       ([current] ++ match secondary_embedding_model with
                     | Some m => [m]
                     | None => []
                     end)).
Proof. reflexivity. Qed.

(** A call of [create_indexing_jobs]: the set [ongoing], then the visits, in
    the world the first loop left. *)
Lemma create_indexing_jobs_run (existing_jobs : Jobs) (w : World) :
  ∃ ongoing w0,
    (∀ t, t ∈ ongoing ↔ tracked_triple existing_jobs (db w) t)
    ∧ db w0 = db w
    ∧ effects w0
      = effects w
        ++ (missing_attempt_error
            <$> filter (λ attempt_id, lookup_index_attempt attempt_id (db w) = None)
                       (map_to_list existing_jobs).*1)
    ∧ create_indexing_jobs existing_jobs w
      = match find_model_with_status PRESENT (db w) with
        | None => (Raised (RuntimeError "No PRESENT embedding model in the store"), w0)
        | Some _ =>
          create_indexing_jobs_visits ongoing (connectors (db w))
            (scheduled_models (db w)) w0
        end.
Proof.
  destruct (create_indexing_jobs_ongoing_run (map_to_list existing_jobs).*1 ∅ w)
    as (ongoing & Hrun & Hon).
  exists ongoing,
    {| db := db w; config := config w; primary := primary w;
       secondary := secondary w;
       effects := effects w
         ++ (missing_attempt_error
             <$> filter (λ attempt_id, lookup_index_attempt attempt_id (db w) = None)
                        (map_to_list existing_jobs).*1) |}.
  split_and!; [| | |].
  - intros t. rewrite Hon. unfold tracked_triple. split.
    + intros [Ht|(j & r & Hj & Hr & ->)]; [by apply elem_of_empty in Ht|].
      exists j, r. by rewrite <- elem_of_tracked_ids.
    + intros (j & r & Hj & Hr & ->). right. exists j, r.
      by rewrite elem_of_tracked_ids.
  - reflexivity.
  - reflexivity.
  - rewrite create_indexing_jobs_visits_eq. unfold create_indexing_jobs_ongoing.
    rewrite run_bind, Hrun.
    unfold get_current_db_embedding_model, get_secondary_db_embedding_model,
      fetch_connectors, scheduled_models.
    rewrite run_bind. simpl.
    destruct (find_model_with_status PRESENT (db w)) as [current|]; [|done].
    by run.
Qed.

Lemma should_create_not_started connector last model db_session :
  IndexAttempt.status last = NOT_STARTED →
  _should_create_new_indexing connector (Some last) model db_session = false.
Proof.
  intros Hns. rewrite should_create_with_last.
  destruct (Connector.disabled connector); [done|]. simpl.
  destruct (Connector.refresh_freq connector); [|done].
  by rewrite (bool_decide_eq_true_2 _ Hns).
Qed.

Lemma should_create_same_time connector last_index model s s' :
  db_time s' = db_time s →
  _should_create_new_indexing connector last_index model s'
  = _should_create_new_indexing connector last_index model s.
Proof.
  intros Ht. unfold _should_create_new_indexing, get_db_current_time. by rewrite Ht.
Qed.

(** A disabled connector is due only for the first build of a FUTURE
    model. *)
Lemma should_create_disabled connector last_index model db_session :
  _should_create_new_indexing connector last_index model db_session = true →
  Connector.disabled connector = true →
  EmbeddingModel.status model = FUTURE ∧ Connector.id connector ≠ 0.
Proof.
  unfold _should_create_new_indexing. intros Hdue Hoff. rewrite Hoff in Hdue.
  destruct (decide (EmbeddingModel.status model = FUTURE)) as [Hf|Hf].
  - split; [done|]. rewrite (bool_decide_eq_true_2 _ Hf) in Hdue. simpl in Hdue.
    destruct (bool_decide (last_index = None)); [|done].
    by case_bool_decide.
  - by rewrite (bool_decide_eq_false_2 _ Hf) in Hdue.
Qed.

(** A visit that creates nothing. *)
Lemma create_indexing_jobs_visit_settled ongoing connector k model w :
  settled ongoing (db w) connector k model →
  create_indexing_jobs_visit ongoing connector k model w = (Returned (), w).
Proof.
  unfold settled, create_indexing_jobs_visit, get_last_attempt.
  intros [Hon|Hnot].
  - by rewrite (bool_decide_eq_true_2 _ Hon).
  - case_bool_decide; [done|]. run. by rewrite Hnot.
Qed.

(** A visit that creates an attempt. *)
Lemma create_indexing_jobs_visit_due ongoing connector k model w :
  let c := Connector.id connector in
  let m := EmbeddingModel.id model in
  ¬ settled ongoing (db w) connector k model →
  ((Some c, Some k, m) ∉ ongoing)
  ∧ _should_create_new_indexing connector (last (attempts_of_triple c k m (db w)))
      model (db w) = true
  ∧ ∃ w',
      create_indexing_jobs_visit ongoing connector k model w = (Returned (), w')
      ∧ index_attempts (db w') = index_attempts (db w) ++ [created_row c k m (db w)]
      ∧ db_time (db w') = db_time (db w)
      ∧ effects w'
        = effects w
          ++ CreateIndexAttempt c k m
             :: (if bool_decide (EmbeddingModel.status model = PRESENT)
                 then [UpdateConnectorCredentialPair c k NOT_STARTED] else []).
Proof.
  intros c m Hnot. unfold settled in Hnot. fold c m in Hnot.
  assert (Hon : (Some c, Some k, m) ∉ ongoing) by tauto.
  assert (Hdue : _should_create_new_indexing connector
                   (last (attempts_of_triple c k m (db w))) model (db w) = true).
  { destruct (_should_create_new_indexing _ _ _ _); [done|]. tauto. }
  split; [done|]. split; [done|].
  unfold create_indexing_jobs_visit, get_last_attempt, create_index_attempt,
    update_connector_credential_pair.
  fold c m. rewrite (bool_decide_eq_false_2 _ Hon). run.
  rewrite Hdue. simpl. run.
  case_bool_decide; run; eexists; (split; [done|]); simpl;
    by rewrite <- ?(assoc_L (++)).
Qed.

Lemma settled_dec ongoing db_session connector k model :
  Decision (settled ongoing db_session connector k model).
Proof. unfold settled. apply _. Defined.

Lemma attempts_of_triple_snoc c k m s s' r :
  index_attempts s' = index_attempts s ++ [r] →
  attempts_of_triple c k m s'
  = attempts_of_triple c k m s
    ++ (if decide (IndexAttempt.connector_id r = Some c
                   ∧ IndexAttempt.credential_id r = Some k
                   ∧ IndexAttempt.embedding_model_id r = m)
        then [r] else []).
Proof.
  intros Hrows. unfold attempts_of_triple. rewrite Hrows, filter_app. by f_equal.
Qed.

(** A visit leaves settled what was settled, and settles what it visits. *)
Lemma create_indexing_jobs_visit_preserves ongoing connector k model w
    connector' k' model' :
  settled ongoing (db w) connector' k' model' →
  settled ongoing (db (after (create_indexing_jobs_visit ongoing connector k model) w))
    connector' k' model'.
Proof.
  intros Hsettled.
  destruct (settled_dec ongoing (db w) connector k model) as [Hs|Hs].
  - unfold after. by rewrite create_indexing_jobs_visit_settled.
  - destruct (create_indexing_jobs_visit_due ongoing connector k model w Hs)
      as (_ & _ & w' & Hrun & Hrows & Htime & _).
    unfold after. rewrite Hrun. simpl.
    destruct Hsettled as [Hon|Hnot]; [by left|]. right.
    rewrite (attempts_of_triple_snoc _ _ _ (db w) (db w') _ Hrows).
    rewrite (should_create_same_time _ _ _ (db w) (db w') Htime).
    destruct (decide _) as [Hsame|Hother].
    + rewrite last_snoc. by apply should_create_not_started.
    + by rewrite app_nil_r.
Qed.

Lemma create_indexing_jobs_visit_settles ongoing connector k model w :
  settled ongoing (db (after (create_indexing_jobs_visit ongoing connector k model) w))
    connector k model.
Proof.
  destruct (settled_dec ongoing (db w) connector k model) as [Hs|Hs].
  - unfold after. by rewrite create_indexing_jobs_visit_settled.
  - destruct (create_indexing_jobs_visit_due ongoing connector k model w Hs)
      as (_ & _ & w' & Hrun & Hrows & Htime & _).
    unfold after. rewrite Hrun. simpl. right.
    rewrite (attempts_of_triple_snoc _ _ _ (db w) (db w') _ Hrows).
    rewrite decide_True by done. rewrite last_snoc.
    by apply should_create_not_started.
Qed.

Lemma create_indexing_jobs_visit_returns ongoing connector k model w :
  outcome (create_indexing_jobs_visit ongoing connector k model) w = Returned ().
Proof.
  destruct (settled_dec ongoing (db w) connector k model) as [Hs|Hs].
  - unfold outcome. by rewrite create_indexing_jobs_visit_settled.
  - destruct (create_indexing_jobs_visit_due ongoing connector k model w Hs)
      as (_ & _ & w' & Hrun & _).
    unfold outcome. by rewrite Hrun.
Qed.

(** Loops whose turns return, keep a property of the store that is stable,
    and establish it for what they cover. *)
Section for_stable.
Context {A T : Type} (stable : T → Store → Prop) (covers : A → T → Prop).
Context (body : A → M unit).
Hypothesis body_returns : ∀ x w, outcome (body x) w = Returned ().
Hypothesis body_preserves :
  ∀ x t w, stable t (db w) → stable t (db (after (body x) w)).
Hypothesis body_establishes :
  ∀ x t w, covers x t → stable t (db (after (body x) w)).

Lemma for_step (x : A) (xs : list A) (w : World) :
  for_ (x :: xs) body w = for_ xs body (after (body x) w).
Proof.
  rewrite for_cons. pose proof (body_returns x w) as Hret.
  unfold outcome, after in *. by destruct (body x w) as [[[]|e] w'].
Qed.

Lemma for_returns (xs : list A) (w : World) : outcome (for_ xs body) w = Returned ().
Proof.
  revert w. induction xs as [|x xs IH]; intros w; [done|].
  unfold outcome. rewrite for_step. apply IH.
Qed.

Lemma for_preserves (xs : list A) (t : T) (w : World) :
  stable t (db w) → stable t (db (after (for_ xs body) w)).
Proof.
  revert w. induction xs as [|x xs IH]; intros w Hw; [done|].
  unfold after. rewrite for_step. apply IH. by apply body_preserves.
Qed.

Lemma for_establishes (xs : list A) (x : A) (t : T) (w : World) :
  x ∈ xs → covers x t → stable t (db (after (for_ xs body) w)).
Proof.
  revert w. induction xs as [|y xs IH]; intros w Hx Hc;
    [by apply elem_of_nil in Hx|].
  unfold after. rewrite for_step. apply elem_of_cons in Hx as [->|Hx].
  - apply for_preserves. by apply body_establishes.
  - by apply IH.
Qed.
End for_stable.

Lemma emits_in_for {A} (P : Event → Prop) (xs : list A) (body : A → M unit) :
  (∀ x, x ∈ xs → emits_in P (body x)) → emits_in P (for_ xs body).
Proof.
  induction xs as [|x xs IH]; intros Hbody w.
  - exists []. by rewrite app_nil_r.
  - destruct (Hbody x (list_elem_of_here _ _) w) as (es1 & E1 & F1).
    unfold after in *. rewrite for_cons.
    destruct (body x w) as [[[]|e] w1]; simpl in *; [|by exists es1].
    destruct (IH (λ y Hy, Hbody y (list_elem_of_further _ _ _ Hy)) w1)
      as (es2 & E2 & F2).
    unfold after in E2.
    exists (es1 ++ es2). split; [by rewrite E2, E1, (assoc_L (++))|].
    by apply Forall_app.
Qed.

Lemma create_indexing_jobs_visit_scheduled ongoing cs models connector k model :
  connector ∈ cs → k ∈ Connector.credentials connector → model ∈ models →
  emits_in (scheduled ongoing cs models)
    (create_indexing_jobs_visit ongoing connector k model).
Proof.
  intros Hc Hk Hm w.
  destruct (settled_dec ongoing (db w) connector k model) as [Hs|Hs].
  - unfold after. rewrite create_indexing_jobs_visit_settled by done.
    exists []. by rewrite app_nil_r.
  - destruct (create_indexing_jobs_visit_due ongoing connector k model w Hs)
      as (Hon & Hdue & w' & Hrun & _ & _ & He).
    unfold after. rewrite Hrun. simpl. eexists. split; [exact He|].
    constructor.
    + simpl. split; [done|]. exists connector, model. split_and!; try done.
      by eapply should_create_disabled.
    + case_bool_decide; [|done]. constructor; [|done]. simpl. split; [done|].
      by exists connector, model.
Qed.

Lemma create_indexing_jobs_visits_scheduled ongoing cs models :
  emits_in (scheduled ongoing cs models) (create_indexing_jobs_visits ongoing cs models).
Proof.
  unfold create_indexing_jobs_visits.
  apply emits_in_for. intros connector Hc.
  apply emits_in_for. intros k Hk.
  apply emits_in_for. intros model Hm.
  by apply create_indexing_jobs_visit_scheduled.
Qed.

(** X15. What [create_indexing_jobs] creates: with [ongoing] the triples of the
    tracked attempts that have a row, every attempt it creates is for a
    connector of the store, one of the credentials of that connector, and the
    current or the secondary model; its triple is not in [ongoing]; and when
    the connector is disabled the model is FUTURE and the connector is not
    the ingestion pseudo-connector.  A pair is set to NOT_STARTED only, and
    only with a model that is PRESENT. *)
Theorem create_indexing_jobs_scheduled (existing_jobs : Jobs) (w : World) :
  ∃ ongoing : gset Triple,
    (∀ t, t ∈ ongoing ↔ tracked_triple existing_jobs (db w) t)
    ∧ Forall (scheduled ongoing (connectors (db w)) (scheduled_models (db w)))
             (emitted (create_indexing_jobs existing_jobs) w).
Proof.
  destruct (create_indexing_jobs_run existing_jobs w)
    as (ongoing & w0 & Hon & Hdb & He0 & Hrun).
  exists ongoing. split; [done|].
  assert (Herrors : Forall (scheduled ongoing (connectors (db w))
                              (scheduled_models (db w)))
                      (missing_attempt_error
                       <$> filter (λ attempt_id,
                                     lookup_index_attempt attempt_id (db w) = None)
                                  (map_to_list existing_jobs).*1)).
  { apply Forall_fmap, Forall_forall. by intros j _. }
  set (errors := missing_attempt_error <$> _) in *.
  destruct (find_model_with_status PRESENT (db w)) as [current|].
  - destruct (create_indexing_jobs_visits_scheduled ongoing (connectors (db w))
                (scheduled_models (db w)) w0) as (es & He & HP).
    rewrite (emitted_eq _ _ (errors ++ es)).
    + apply Forall_app. by split.
    + unfold after in *. rewrite Hrun, He, He0. by rewrite <- (assoc_L (++)).
  - rewrite (emitted_eq _ _ errors); [done|].
    unfold after. by rewrite Hrun.
Qed.

(** ** The scheduler, called again *)

Lemma create_indexing_jobs_visits_settle ongoing cs models w :
  outcome (create_indexing_jobs_visits ongoing cs models) w = Returned ()
  ∧ ∀ connector k model,
      connector ∈ cs → k ∈ Connector.credentials connector → model ∈ models →
      settled ongoing (db (after (create_indexing_jobs_visits ongoing cs models) w))
        connector k model.
Proof.
  set (stable := λ (t : Connector.t * Z * EmbeddingModel.t) (s : Store),
                   settled ongoing s t.1.1 t.1.2 t.2).
  set (body3 := λ connector k model,
                  create_indexing_jobs_visit ongoing connector k model).
  set (body2 := λ connector k, for_ models (body3 connector k)).
  set (body1 := λ connector, for_ (Connector.credentials connector) (body2 connector)).
  assert (R3 : ∀ connector k model w,
            outcome (body3 connector k model) w = Returned ())
    by (intros; apply create_indexing_jobs_visit_returns).
  assert (P3 : ∀ connector k model t w,
            stable t (db w) → stable t (db (after (body3 connector k model) w)))
    by (intros ? ? ? [[? ?] ?] ?; apply create_indexing_jobs_visit_preserves).
  assert (E3 : ∀ connector k model t w,
            t = (connector, k, model) →
            stable t (db (after (body3 connector k model) w)))
    by (intros ? ? ? ? ? ->; apply create_indexing_jobs_visit_settles).
  assert (R2 : ∀ connector k w, outcome (body2 connector k) w = Returned ())
    by (intros; apply for_returns; auto).
  assert (P2 : ∀ connector k t w,
            stable t (db w) → stable t (db (after (body2 connector k) w)))
    by (intros ? ? ? ?; apply (for_preserves stable); auto).
  assert (E2 : ∀ connector k t w,
            (∃ model, model ∈ models ∧ t = (connector, k, model)) →
            stable t (db (after (body2 connector k) w))).
  { intros connector k t w0 (model & Hm & ->).
    by apply (for_establishes stable (λ model t, t = (connector, k, model))
                (body3 connector k) (R3 connector k) (P3 connector k)
                (E3 connector k) models model). }
  assert (R1 : ∀ connector w, outcome (body1 connector) w = Returned ())
    by (intros; apply for_returns; auto).
  assert (P1 : ∀ connector t w,
            stable t (db w) → stable t (db (after (body1 connector) w)))
    by (intros ? ? ?; apply (for_preserves stable); auto).
  assert (E1 : ∀ connector t w,
            (∃ k model, k ∈ Connector.credentials connector ∧ model ∈ models
                        ∧ t = (connector, k, model)) →
            stable t (db (after (body1 connector) w))).
  { intros connector t w0 (k & model & Hk & Hm & ->).
    apply (for_establishes stable
             (λ k t, ∃ model, model ∈ models ∧ t = (connector, k, model))
             (body2 connector) (R2 connector) (P2 connector) (E2 connector)
             (Connector.credentials connector) k); [done|]. by exists model. }
  change (create_indexing_jobs_visits ongoing cs models) with (for_ cs body1).
  split; [by apply for_returns|].
  intros connector k model Hc Hk Hm.
  apply (for_establishes stable
           (λ connector t, ∃ k model, k ∈ Connector.credentials connector
                                      ∧ model ∈ models ∧ t = (connector, k, model))
           body1 R1 P1 E1 cs connector (connector, k, model)); [done|].
  by exists k, model.
Qed.

(** Visits that are all settled do nothing. *)
Lemma create_indexing_jobs_visits_settled ongoing cs models w :
  (∀ connector k model,
     connector ∈ cs → k ∈ Connector.credentials connector → model ∈ models →
     settled ongoing (db w) connector k model) →
  create_indexing_jobs_visits ongoing cs models w = (Returned (), w).
Proof.
  intros Hall. unfold create_indexing_jobs_visits.
  apply for_skip. intros connector Hc.
  apply for_skip. intros k Hk.
  apply for_skip. intros model Hm.
  apply create_indexing_jobs_visit_settled. auto.
Qed.

Lemma lookup_index_attempt_app i s s' created :
  index_attempts s' = index_attempts s ++ created →
  is_Some (lookup_index_attempt i s) →
  lookup_index_attempt i s' = lookup_index_attempt i s.
Proof.
  unfold lookup_index_attempt. intros -> [r Hr]. rewrite filter_app.
  destruct (filter _ (index_attempts s)); [done|]. done.
Qed.

(** X16. [create_indexing_jobs] is idempotent: called again with the same tracked
    jobs, in the store and at the time the first call left, it creates no
    attempt and sets no pair; all it emits are the errors for the tracked
    identifiers without a row, the store stays as it was, and it returns or
    raises as the first call did. *)
Theorem create_indexing_jobs_idempotent (existing_jobs : Jobs) (w : World) :
  let create := create_indexing_jobs existing_jobs in
  let w1 := after create w in
  db (after create w1) = db w1
  ∧ Forall (λ e, ∃ attempt_id, e = missing_attempt_error attempt_id)
           (emitted create w1)
  ∧ outcome create w1 = outcome create w.
Proof.
  intros create w1. subst create.
  destruct (create_indexing_jobs_run existing_jobs w)
    as (ongoing & w0 & Hon & Hdb & He0 & Hrun).
  pose proof (create_indexing_jobs_changes existing_jobs w) as Hchanges.
  fold w1 in Hchanges.
  destruct Hchanges as [Hcs _ Hmodels _ (created & Hrows & _) _].
  destruct (create_indexing_jobs_run existing_jobs w1)
    as (ongoing' & w0' & Hon' & Hdb' & He0' & Hrun').
  assert (Hpresent : find_model_with_status PRESENT (db w1)
                     = find_model_with_status PRESENT (db w))
    by (unfold find_model_with_status; by rewrite Hmodels).
  assert (Hscheduled : scheduled_models (db w1) = scheduled_models (db w))
    by (unfold scheduled_models, find_model_with_status; by rewrite Hmodels).
  assert (Herrors : Forall (λ e, ∃ attempt_id, e = missing_attempt_error attempt_id)
                      (missing_attempt_error
                       <$> filter (λ attempt_id,
                                     lookup_index_attempt attempt_id (db w1) = None)
                                  (map_to_list existing_jobs).*1)).
  { apply Forall_fmap, Forall_forall. intros j _. by exists j. }
  rewrite Hpresent, Hscheduled, Hcs in Hrun'.
  destruct (find_model_with_status PRESENT (db w)) as [current|].
  - destruct (create_indexing_jobs_visits_settle ongoing (connectors (db w))
                (scheduled_models (db w)) w0) as [Hret Hsettled].
    assert (Hw1 : w1 = after (create_indexing_jobs_visits ongoing (connectors (db w))
                               (scheduled_models (db w))) w0)
      by (unfold w1, after; by rewrite Hrun).
    rewrite <- Hw1 in Hsettled.
    rewrite create_indexing_jobs_visits_settled in Hrun'.
    + split_and!.
      * unfold after at 1. by rewrite Hrun'.
      * rewrite (emitted_eq _ _ _ (eq_trans (f_equal (λ r, effects r.2) Hrun') He0')).
        done.
      * unfold outcome in *. by rewrite Hrun', Hrun, Hret.
    + intros connector k model Hc Hk Hm. rewrite Hdb'.
      destruct (Hsettled connector k model Hc Hk Hm) as [Hin|Hnot]; [|by right].
      left. apply Hon'. apply Hon in Hin as (j & r & Hj & Hr & ->).
      exists j, r. split; [done|]. split; [|done].
      rewrite (lookup_index_attempt_app _ _ _ _ Hrows); [done|]. by rewrite Hr.
  - split_and!.
    + unfold after at 1. by rewrite Hrun'.
    + rewrite (emitted_eq _ _ _ (eq_trans (f_equal (λ r, effects r.2) Hrun') He0')).
      done.
    + unfold outcome. by rewrite Hrun', Hrun.
Qed.

(** ** The dispatcher, called again *)

(** X17. A job that a client accepted is not submitted again: after a submission
    that was answered with a handle, the attempt is tracked in the jobs
    [kickoff_indexing_jobs] returns, and a call with these jobs submits
    nothing for it, whatever the store has become. *)
Theorem kickoff_indexing_jobs_no_resubmission
    (existing_jobs tracked : Jobs) (client secondary_client : ClientRef)
    (w : World) (i : Z) (c : ClientRef) (n : Z) :
  let kickoff := kickoff_indexing_jobs existing_jobs client secondary_client in
  unique_ids (db w) →
  outcome kickoff w = Returned tracked →
  Submit c i n true ∈ emitted kickoff w →
  is_Some (tracked !! i)
  ∧ ∀ w2 c' n' accepted,
      Submit c' i n' accepted
        ∉ emitted (kickoff_indexing_jobs tracked client secondary_client) w2.
Proof.
  intros kickoff Hunique Hret Hin. subst kickoff.
  assert (Htracked : is_Some (tracked !! i)).
  { destruct (kickoff_indexing_jobs_steps existing_jobs client secondary_client w)
      as (tracked0 & w0 & es & Hrun0 & He0 & HP & _).
    assert (Hem : emitted (kickoff_indexing_jobs existing_jobs client
                             secondary_client) w = es).
    { apply emitted_eq. unfold after. by rewrite Hrun0. }
    rewrite Hem in Hin. rewrite Forall_forall in HP. apply HP in Hin as Hpicked.
    simpl in Hpicked. destruct Hpicked as [Hpicked _].
    apply kickoff_picked in Hpicked as (Hnone & a & Ha & <- & Hns).
    destruct (kickoff_indexing_jobs_run existing_jobs client secondary_client w a
                Hunique Ha Hns Hnone)
      as (tracked' & w' & pre & step & post & Hrun & He & Hpre & Hpost & Hcase).
    unfold outcome in Hret. rewrite Hrun in Hret. injection Hret as ->.
    rewrite Hrun in Hrun0. injection Hrun0 as _ <-.
    rewrite He in He0. apply app_inv_head in He0. subst es.
    rewrite (elem_of_quiet_sandwich (IndexAttempt.id a)) in Hin
      by auto using about_submit.
    destruct (attempt_connector a (db w)); [destruct (attempt_credential a (db w))|].
    - destruct Hcase as (n0 & run_ & -> & _ & ->).
      destruct run_ as [run_|]; [by eexists|].
      rewrite elem_of_cons, elem_of_nil in Hin.
      by destruct Hin as [[=]|[]].
    - destruct Hcase as (-> & _). rewrite !elem_of_cons, elem_of_nil in Hin.
      naive_solver.
    - destruct Hcase as (-> & _). rewrite !elem_of_cons, elem_of_nil in Hin.
      naive_solver. }
  split; [done|]. intros w2 c' n' accepted Hin2.
  destruct (kickoff_indexing_jobs_steps tracked client secondary_client w2)
    as (tracked2 & w2' & es2 & Hrun2 & He2 & HP2 & _).
  assert (Hem2 : emitted (kickoff_indexing_jobs tracked client secondary_client) w2
                 = es2).
  { apply emitted_eq. unfold after. by rewrite Hrun2. }
  rewrite Hem2 in Hin2. rewrite Forall_forall in HP2. apply HP2 in Hin2.
  simpl in Hin2. destruct Hin2 as [Hpicked _].
  apply kickoff_picked in Hpicked as [Hnone _].
  rewrite Hnone in Htracked. by destruct Htracked.
Qed.

(** ** A tick whose swap check raises *)

(** [check_index_swap] raises before it writes. *)
Lemma check_index_swap_raised w e :
  outcome check_index_swap w = Raised e → check_index_swap w = (Raised e, w).
Proof.
  unfold outcome, check_index_swap, get_connector_credential_pairs,
    get_secondary_db_embedding_model, count_unique_cc_pairs_with_index_attempts,
    get_current_db_embedding_model, update_embedding_model_status.
  run. destruct (find_model_with_status FUTURE (db w)) as [secondary|]; [|done].
  run. case_bool_decide; [by intros [= <-]|]. case_bool_decide; [|done].
  run. destruct (find_model_with_status PRESENT (db w)) as [current|];
    [|by intros [= <-]].
  run. match goal with |- context [for_ ?l resync_cc_pair ?w1] =>
    destruct (for_resync_cc_pair l w1) as (Ho & _) end.
  unfold outcome in Ho. by destruct (for_ _ _ _) as [[[]|] ?].
Qed.

(** X18. The four components of a tick share one [try]: when [check_index_swap]
    raises, the tick runs neither the reaper, nor the scheduler, nor the
    dispatcher.  It keeps the tracked jobs, leaves the store as it was, and
    all it emits are the log records that open it, the record of the
    exception, and the sleep. *)
Theorem tick_blocked_by_swap
    (timeout_hours : Z) (elapsed : nat → Z) (delay : Z) (n : nat)
    (existing_jobs : Jobs) (w : World) (e : Exn) :
  let one_tick :=
    tick check_index_swap
      (λ existing_jobs, cleanup_indexing_jobs existing_jobs timeout_hours)
      create_indexing_jobs
      (λ existing_jobs,
         kickoff_indexing_jobs existing_jobs client_primary client_secondary)
      elapsed delay in
  let sleep_time := delay * 1000000 - elapsed n in
  outcome check_index_swap w = Raised e →
  outcome (one_tick n existing_jobs) w = Returned existing_jobs
  ∧ db (after (one_tick n existing_jobs) w) = db w
  ∧ emitted (one_tick n existing_jobs) w
    = [Log INFO running_update]
      ++ (if bool_decide (existing_jobs = ∅) then []
          else [Log INFO (found_existing_jobs (map_to_list existing_jobs).*1)])
      ++ [Log EXCEPTION failed_to_run_update]
      ++ (if bool_decide (0 < sleep_time) then [Sleep sleep_time] else []).
Proof.
  intros one_tick sleep_time Hraised. subst one_tick.
  assert (Hswap : check_index_swap (tick_started existing_jobs w)
                  = (Raised e, tick_started existing_jobs w)).
  { apply check_index_swap_raised. rewrite check_index_swap_outcome.
    rewrite check_index_swap_outcome in Hraised.
    assert (Hdb : db (tick_started existing_jobs w) = db w)
      by (unfold tick_started, after, logger; run; by case_bool_decide).
    by rewrite Hdb. }
  assert (Hrun : tick check_index_swap
                   (λ existing_jobs, cleanup_indexing_jobs existing_jobs timeout_hours)
                   create_indexing_jobs
                   (λ existing_jobs,
                      kickoff_indexing_jobs existing_jobs client_primary
                        client_secondary)
                   elapsed delay n existing_jobs w
                 = (Returned existing_jobs,
                    slept elapsed delay n
                      (excepted (tick_started existing_jobs w)))).
  { rewrite tick_run. unfold tick_in_order, outcome, after. by rewrite Hswap. }
  unfold emitted. unfold outcome, after. rewrite Hrun. simpl.
  split; [done|]. fold sleep_time.
  unfold slept, excepted, tick_started, after, logger. fold sleep_time. run.
  destruct (bool_decide (existing_jobs = ∅)), (bool_decide (0 < sleep_time));
    simpl; (split; [done|]);
    rewrite <- ?(assoc_L (++)); by rewrite drop_app_length.
Qed.

(** ** The scheduler: one attempt per triple, none for the ingestion API *)

Lemma for_invariant_after {A} (I : World → Prop) (xs : list A) (body : A → M unit)
    (w : World) :
  I w →
  (∀ x w', x ∈ xs → I w' → I (after (body x) w')) →
  I (after (for_ xs body) w).
Proof.
  revert w. induction xs as [|x xs IH]; intros w Hw Hbody; [done|].
  pose proof (Hbody x w (list_elem_of_here _ _) Hw) as Hx.
  unfold after in *. rewrite for_cons.
  destruct (body x w) as [[[]|e] w1]; simpl in *; [|done].
  apply IH; [done|]. intros y w' Hy. by apply Hbody, list_elem_of_further.
Qed.

Lemma create_indexing_jobs_visits_invariant (I : World → Prop) ongoing cs models w :
  I w →
  (∀ connector k model w',
     connector ∈ cs → k ∈ Connector.credentials connector → model ∈ models →
     I w' → I (after (create_indexing_jobs_visit ongoing connector k model) w')) →
  I (after (create_indexing_jobs_visits ongoing cs models) w).
Proof.
  intros Hw Hvisit. unfold create_indexing_jobs_visits.
  apply for_invariant_after; [done|]. intros connector w1 Hc H1.
  apply for_invariant_after; [done|]. intros k w2 Hk H2.
  apply for_invariant_after; [done|]. intros model w3 Hm H3.
  by apply Hvisit.
Qed.

Lemma created_triples_app es1 es2 :
  created_triples (es1 ++ es2) = created_triples es1 ++ created_triples es2.
Proof. unfold created_triples. apply omap_app. Qed.

Lemma created_triples_errors (ids : list Z) :
  created_triples (missing_attempt_error <$> ids) = [].
Proof. induction ids as [|j ids IH]; [done|]. by rewrite fmap_cons. Qed.

Lemma queued_not_due connector model db_session k :
  queued db_session (Connector.id connector, k, EmbeddingModel.id model) →
  _should_create_new_indexing connector
    (last (attempts_of_triple (Connector.id connector) k (EmbeddingModel.id model)
             db_session))
    model db_session = false.
Proof. intros (r & Hlast & Hns). simpl in Hlast. rewrite Hlast. by apply should_create_not_started. Qed.

(** X19. In one call, [create_indexing_jobs] creates at most one attempt for a
    connector, a credential and a model, even if the connector or the
    credential is listed more than once. *)
Theorem create_indexing_jobs_once_per_triple (existing_jobs : Jobs) (w : World) :
  NoDup (created_triples (emitted (create_indexing_jobs existing_jobs) w)).
Proof.
  destruct (create_indexing_jobs_run existing_jobs w)
    as (ongoing & w0 & Hon & Hdb & He0 & Hrun).
  set (errors := missing_attempt_error <$> _) in *.
  destruct (find_model_with_status PRESENT (db w)) as [current|].
  2:{ rewrite (emitted_eq _ _ errors); [|unfold after; by rewrite Hrun].
      unfold errors. rewrite created_triples_errors. constructor. }
  set (I := λ w', ∃ es, effects w' = effects w0 ++ es
                      ∧ NoDup (created_triples es)
                      ∧ ∀ t, t ∈ created_triples es → queued (db w') t).
  assert (Hfinal : I (after (create_indexing_jobs_visits ongoing (connectors (db w))
                              (scheduled_models (db w))) w0)).
  { apply create_indexing_jobs_visits_invariant.
    - exists []. rewrite app_nil_r. split; [done|]. split; [constructor|].
      intros t Ht. by apply elem_of_nil in Ht.
    - intros connector k model w' _ _ _ (es & He & Hnd & Hqueued).
      destruct (settled_dec ongoing (db w') connector k model) as [Hs|Hs].
      { unfold after. rewrite create_indexing_jobs_visit_settled by done.
        by exists es. }
      destruct (create_indexing_jobs_visit_due ongoing connector k model w' Hs)
        as (_ & Hdue & w'' & Hvisit & Hrows & _ & He').
      unfold after. rewrite Hvisit. simpl.
      set (t := (Connector.id connector, k, EmbeddingModel.id model)).
      eexists. split; [by rewrite He', He, <- (assoc_L (++))|].
      assert (Hnew : created_triples
                       (CreateIndexAttempt (Connector.id connector) k
                          (EmbeddingModel.id model)
                        :: (if bool_decide (EmbeddingModel.status model = PRESENT)
                            then [UpdateConnectorCredentialPair
                                    (Connector.id connector) k NOT_STARTED]
                            else [])) = [t])
        by (by case_bool_decide).
      rewrite created_triples_app, Hnew. split.
      + apply NoDup_app. split; [done|]. split; [|apply NoDup_singleton].
        intros t' Ht' Heq. apply list_elem_of_singleton in Heq as ->.
        apply Hqueued, queued_not_due in Ht'. congruence.
      + intros t' Ht'. unfold queued.
        rewrite (attempts_of_triple_snoc _ _ _ (db w') (db w'') _ Hrows).
        destruct (decide _) as [Hsame|Hother].
        * rewrite last_snoc. by eexists.
        * rewrite app_nil_r. apply elem_of_app in Ht' as [Ht'|Ht'].
          -- by apply Hqueued.
          -- apply list_elem_of_singleton in Ht' as ->. destruct Hother. done. }
  destruct Hfinal as (es & He & Hnd & _).
  rewrite (emitted_eq _ _ (errors ++ es)).
  - rewrite created_triples_app. unfold errors.
    by rewrite created_triples_errors.
  - unfold after in *. rewrite Hrun, He, He0. by rewrite <- (assoc_L (++)).
Qed.

(** X20. The ingestion pseudo-connector is left out of a migration: as long as
    connector 0 has no attempt against the FUTURE model with a credential,
    [create_indexing_jobs] creates none, whatever its flags and the time. *)
Theorem create_indexing_jobs_spares_ingestion
    (existing_jobs : Jobs) (w : World) (secondary_model : EmbeddingModel.t) (k : Z) :
  let create := create_indexing_jobs existing_jobs in
  let m := EmbeddingModel.id secondary_model in
  find_model_with_status FUTURE (db w) = Some secondary_model →
  (∀ current, find_model_with_status PRESENT (db w) = Some current →
     EmbeddingModel.id current ≠ m) →
  attempts_of_triple 0 k m (db w) = [] →
  (CreateIndexAttempt 0 k m ∉ emitted create w)
  ∧ attempts_of_triple 0 k m (db (after create w)) = [].
Proof.
  intros create m Hsec Hids Hnone. subst create.
  destruct (create_indexing_jobs_run existing_jobs w)
    as (ongoing & w0 & Hon & Hdb & He0 & Hrun).
  set (errors := missing_attempt_error <$> _) in *.
  assert (Herrors : CreateIndexAttempt 0 k m ∉ errors).
  { unfold errors. intros Hin. by apply list_elem_of_fmap in Hin as (j & [=] & _). }
  destruct (find_model_with_status PRESENT (db w)) as [current|] eqn:Hcur.
  2:{ rewrite (emitted_eq _ _ errors); [|unfold after; by rewrite Hrun].
      split; [done|]. unfold after. rewrite Hrun. simpl.
      unfold attempts_of_triple in *. by rewrite Hdb. }
  set (I := λ w', attempts_of_triple 0 k m (db w') = []
                  ∧ ∃ es, effects w' = effects w0 ++ es
                        ∧ CreateIndexAttempt 0 k m ∉ es).
  assert (Hfinal : I (after (create_indexing_jobs_visits ongoing (connectors (db w))
                              (scheduled_models (db w))) w0)).
  { apply create_indexing_jobs_visits_invariant.
    - split; [unfold attempts_of_triple in *; by rewrite Hdb|].
      exists []. rewrite app_nil_r. split; [done|]. apply not_elem_of_nil.
    - intros connector k' model w' _ _ Hm (Hempty & es & He & Hnot).
      destruct (settled_dec ongoing (db w') connector k' model) as [Hs|Hs].
      { unfold after. rewrite create_indexing_jobs_visit_settled by done.
        split; [done|]. by exists es. }
      destruct (create_indexing_jobs_visit_due ongoing connector k' model w' Hs)
        as (_ & Hdue & w'' & Hvisit & Hrows & _ & He').
      unfold after. rewrite Hvisit. simpl.
      assert (Hother : ¬ (Connector.id connector = 0 ∧ k' = k
                          ∧ EmbeddingModel.id model = m)).
      { intros (Hc0 & -> & Hm0). rewrite Hc0, Hm0, Hempty in Hdue. simpl in Hdue.
        assert (model = secondary_model) as ->.
        { unfold scheduled_models in Hm. rewrite Hcur, Hsec in Hm. simpl in Hm.
          rewrite !elem_of_cons, elem_of_nil in Hm.
          destruct Hm as [->|[->|[]]]; [|done]. by destruct (Hids current). }
        apply find_model_with_status_elem in Hsec as [_ Hfuture].
        rewrite should_create_no_last in Hdue by done.
        by rewrite (bool_decide_eq_true_2 _ Hc0) in Hdue. }
      split.
      + rewrite (attempts_of_triple_snoc _ _ _ (db w') (db w'') _ Hrows), Hempty.
        rewrite decide_False; [done|]. simpl. naive_solver.
      + eexists. split; [by rewrite He', He, <- (assoc_L (++))|].
        rewrite not_elem_of_app. split; [done|].
        rewrite not_elem_of_cons. split; [naive_solver|].
        case_bool_decide; [|apply not_elem_of_nil].
        rewrite not_elem_of_cons. split; [done|apply not_elem_of_nil]. }
  destruct Hfinal as (Hempty & es & He & Hnot).
  split.
  - rewrite (emitted_eq _ _ (errors ++ es)).
    + rewrite not_elem_of_app. done.
    + unfold after in *. rewrite Hrun, He, He0. by rewrite <- (assoc_L (++)).
  - unfold after in *. by rewrite Hrun.
Qed.

(** ** What the reaper raises *)

Lemma raises_ret {A} E (a : A) : raises_only E (mret a).
Proof. by intros w e. Qed.

Lemma raises_gets {A} E (f : Store → A) : raises_only E (gets f).
Proof. by intros w e. Qed.

Lemma raises_emit E (e : Event) : raises_only E (emit e).
Proof. by intros w e'. Qed.

Lemma raises_write E (f : Store → Store) : raises_only E (write f).
Proof. by intros w e'. Qed.

Lemma raises_raise {A} (E : Exn → Prop) (e : Exn) : E e → raises_only E (raise e : M A).
Proof. intros He w e'. unfold outcome, raise. simpl. by intros [= <-]. Qed.

Lemma raises_bind {A B} E (m : M A) (f : A → M B) :
  raises_only E m → (∀ a, raises_only E (f a)) → raises_only E (m ≫= f).
Proof.
  intros Hm Hf w e. specialize (Hm w e). unfold outcome in *. rewrite run_bind.
  destruct (m w) as [[a|e'] w1]; simpl in *; [apply Hf|].
  intros [= <-]. by apply Hm.
Qed.

Lemma raises_for_fold {A S} E (xs : list A) (acc : S) (body : A → S → M S) :
  (∀ x acc, raises_only E (body x acc)) → raises_only E (for_fold xs acc body).
Proof.
  intros Hbody. revert acc. induction xs as [|x xs IH]; intros acc.
  - apply raises_ret.
  - rewrite for_fold_cons. apply raises_bind; [apply Hbody|apply IH].
Qed.

Lemma raises_for {A} E (xs : list A) (body : A → M unit) :
  (∀ x, raises_only E (body x)) → raises_only E (for_ xs body).
Proof. intros Hbody. unfold for_. apply raises_for_fold. auto. Qed.

(** Breaks a computation down to the places where it raises. *)
Ltac raises :=
  repeat first
    [ apply raises_ret
    | apply raises_gets
    | apply raises_emit
    | apply raises_write
    | apply raises_raise; reflexivity
    | apply raises_bind; [|intros ?]
    | apply raises_for_fold; intros ? ?
    | apply raises_for; intros ?
    | match goal with
      | |- raises_only _ (match ?x with _ => _ end) => destruct x
      | |- raises_only _ ((match ?x with _ => _ end) _) => destruct x
      end ].

Lemma raises_cleanup_indexing_jobs existing_jobs timeout_hours :
  raises_only (λ e, e = AttributeError "'NoneType' object has no attribute 'status'")
    (cleanup_indexing_jobs existing_jobs timeout_hours).
Proof.
  unfold cleanup_indexing_jobs, cleanup_tracked_job, cleanup_inprogress_attempt,
    get_index_attempt, fetch_connectors, get_inprogress_index_attempts,
    job_release, job_cancel, _mark_run_failed, mark_attempt_failed,
    update_connector_credential_pair, logger.
  raises.
Qed.

(** X21. The one exception [cleanup_indexing_jobs] can raise is the
    [AttributeError] of [index_attempt.embedding_model.status], and it raises
    only in a store in which some attempt has no embedding model. *)
Theorem cleanup_indexing_jobs_raises
    (existing_jobs : Jobs) (timeout_hours : Z) (w : World) (e : Exn) :
  outcome (cleanup_indexing_jobs existing_jobs timeout_hours) w = Raised e →
  e = AttributeError "'NoneType' object has no attribute 'status'"
  ∧ ∃ a, a ∈ index_attempts (db w) ∧ attempt_embedding_model a (db w) = None.
Proof.
  intros Hraised. split; [by eapply raises_cleanup_indexing_jobs|].
  destruct (decide (Forall (λ r, is_Some (attempt_embedding_model r (db w)))
                           (index_attempts (db w)))) as [Hall|Hnot].
  - rewrite Forall_forall in Hall.
    destruct (cleanup_indexing_jobs_returns existing_jobs timeout_hours w Hall)
      as [tracked Hret]. congruence.
  - apply not_Forall_Exists in Hnot; [|apply _].
    apply Exists_exists in Hnot as (a & Ha & Hnone). exists a. split; [done|].
    by apply eq_None_not_Some.
Qed.

(** ** The sweeps and the attempts no listed connector reaches *)

(** Closes a decidable goal by evaluating its decision procedure. *)
Ltac by_evaluation := apply (bool_decide_unpack _); vm_compute; exact I.

Lemma store_with_orphans_models : attempts_have_models store_with_orphans.
Proof.
  intros r Hr. unfold store_with_orphans in Hr. simpl in Hr.
  repeat (apply elem_of_cons in Hr as [->|Hr]; [by eexists|]).
  by apply elem_of_nil in Hr.
Defined.

(** [total_seconds()] is a float: from [2 ^ 34] seconds on the floats are
    more than a microsecond apart, and a connector is scheduled a microsecond
    before [refresh_freq] seconds have passed. *)
Lemma cadence_rounds_to_refresh_freq : ¬ cadence_as_stated.
Proof.
  intros Hclaim.
  destruct (Hclaim connector_of_centuries
              (IndexAttempt.mk 4 (Some 1) (Some 1) 10 SUCCESS 0 None)
              (EmbeddingModel.mk 10 PRESENT) store_of_centuries 20000000000)
    as [Hdue _]; [reflexivity|reflexivity|discriminate|by vm_compute|].
  specialize (Hdue ltac:(by vm_compute)). by vm_compute in Hdue.
Qed.

(** The gateway leaves a terminal row alone: the row of an attempt that has
    succeeded is still SUCCESS after [_mark_run_failed]. *)
Lemma mark_run_failed_keeps_finished_row : ¬ mark_run_failed_as_stated.
Proof.
  intros Hclaim.
  destruct (Hclaim attempt_5 "Stopped mid run"%string
              (world_of store_with_finished_attempt))
    as (r & Hr & Hfailed).
  - by_evaluation.
  - by_evaluation.
  - vm_compute in Hr. injection Hr as <-. discriminate Hfailed.
Qed.

(** The orphan sweep walks the connectors: an IN_PROGRESS attempt without a
    connector is not tracked, and stays IN_PROGRESS. *)
Lemma orphan_sweep_misses_attempt_without_connector : ¬ orphan_sweep_as_stated.
Proof.
  intros Hclaim.
  destruct (Hclaim ∅ 3 (world_of store_with_orphans) attempt_7)
    as (r & Hr & Hfailed & _).
  - by_evaluation.
  - apply store_with_orphans_models.
  - by_evaluation.
  - reflexivity.
  - reflexivity.
  - vm_compute in Hr. injection Hr as <-. discriminate Hfailed.
Qed.

(** The stall check walks the connectors: a tracked, stalled attempt without
    a connector is not cancelled. *)
Lemma stall_check_misses_attempt_without_connector : ¬ stall_check_as_stated.
Proof.
  intros Hclaim.
  destruct (Hclaim tracking_7_and_8 3 (world_of store_with_orphans) attempt_7
              (Job.mk running)) as [_ Hcancelled].
  - by_evaluation.
  - apply store_with_orphans_models.
  - by_evaluation.
  - reflexivity.
  - reflexivity.
  - reflexivity.
  - destruct Hcancelled as [Hcancel _]; [by vm_compute|].
    vm_compute in Hcancel.
    repeat (apply elem_of_cons in Hcancel as [Hcancel|Hcancel]; [discriminate|]).
    by apply elem_of_nil in Hcancel.
Qed.

(** ** The theorems at work *)

Lemma should_create_future_first_build_witness :
  _should_create_new_indexing (Connector.mk 1 true None [1]) None
    (EmbeddingModel.mk 20 FUTURE) store_in_migration = true
  ∧ _should_create_new_indexing (Connector.mk 0 false (Some 60) [0]) None
      (EmbeddingModel.mk 20 FUTURE) store_in_migration = false.
Proof.
  split.
  - apply (should_create_future_first_build (Connector.mk 1 true None [1])
             (EmbeddingModel.mk 20 FUTURE) store_in_migration eq_refl);
      [reflexivity|discriminate].
  - apply (should_create_future_first_build (Connector.mk 0 false (Some 60) [0])
             (EmbeddingModel.mk 20 FUTURE) store_in_migration eq_refl).
    reflexivity.
Defined.

Lemma should_create_cadence_witness :
  _should_create_new_indexing (Connector.mk 1 false (Some 60) [1])
    (Some (IndexAttempt.mk 4 (Some 1) (Some 1) 10 SUCCESS 40000000 None))
    (EmbeddingModel.mk 10 PRESENT) store_with_attempt_7 = true
  ∧ _should_create_new_indexing (Connector.mk 1 false (Some 60) [1])
      (Some (IndexAttempt.mk 4 (Some 1) (Some 1) 10 NOT_STARTED 0 None))
      (EmbeddingModel.mk 10 PRESENT) store_with_attempt_7 = false.
Proof.
  split.
  - destruct (should_create_cadence (Connector.mk 1 false (Some 60) [1])
                (IndexAttempt.mk 4 (Some 1) (Some 1) 10 SUCCESS 40000000 None)
                (EmbeddingModel.mk 10 PRESENT) store_with_attempt_7)
      as [_ Hcadence].
    destruct (Hcadence 60 eq_refl eq_refl) as (_ & Hexact & _); [discriminate|].
    destruct Hexact as [Hiff _]; [reflexivity|].
    apply Hiff. vm_compute. discriminate.
  - destruct (should_create_cadence (Connector.mk 1 false (Some 60) [1])
                (IndexAttempt.mk 4 (Some 1) (Some 1) 10 NOT_STARTED 0 None)
                (EmbeddingModel.mk 10 PRESENT) store_with_attempt_7)
      as [Hnot_started _].
    apply Hnot_started. reflexivity.
Defined.

Lemma check_index_swap_spec_witness :
  embedding_models (db (after check_index_swap (world_of store_in_migration)))
  = [EmbeddingModel.mk 10 PAST; EmbeddingModel.mk 20 PRESENT]
  ∧ emitted check_index_swap (world_of store_in_migration)
    = [UpdateEmbeddingModelStatus 10 PAST; UpdateEmbeddingModelStatus 20 PRESENT;
       ResyncCCPair 0 0; ResyncCCPair 1 1].
Proof.
  destruct (check_index_swap_spec (world_of store_in_migration))
    as (_ & Hswap & _).
  destruct (Hswap (EmbeddingModel.mk 20 FUTURE) eq_refl) as (_ & _ & Hequal).
  destruct (Hequal eq_refl (EmbeddingModel.mk 10 PRESENT) eq_refl)
    as (_ & Hemitted & Hmodels & _).
  split; [exact Hmodels|exact Hemitted].
Defined.

Lemma mark_run_failed_frame_witness :
  (∃ r, lookup_index_attempt 5
          (db (after (_mark_run_failed attempt_5 "Stopped mid run")
                     (world_of store_with_finished_attempt)))
        = Some r
      ∧ r = attempt_5)
  ∧ UpdateConnectorCredentialPair 1 1 FAILED
      ∈ emitted (_mark_run_failed attempt_5 "Stopped mid run")
                (world_of store_with_finished_attempt)
  ∧ cc_pairs (db (after (_mark_run_failed attempt_96 "stopped")
                        (world_of store_to_dispatch)))
    = cc_pairs store_to_dispatch.
Proof.
  split_and!.
  - destruct (mark_run_failed_frame attempt_5 "Stopped mid run"
                (world_of store_with_finished_attempt))
      as (_ & _ & _ & _ & Hrow & _).
    destruct (Hrow attempt_5 eq_refl) as (r & Hr & Hkept & _).
    exists r. split; [exact Hr|]. apply Hkept. reflexivity.
  - apply (mark_run_failed_frame attempt_5 "Stopped mid run"
             (world_of store_with_finished_attempt)).
    repeat split.
  - apply (mark_run_failed_frame attempt_96 "stopped" (world_of store_to_dispatch)).
    intros (_ & _ & Hpresent). vm_compute in Hpresent. discriminate Hpresent.
Defined.

Lemma cleanup_indexing_jobs_orphan_sweep_witness :
  ∃ r, lookup_index_attempt 8
         (db (after (cleanup_indexing_jobs ∅ 3) (world_of store_with_orphans)))
       = Some r
     ∧ IndexAttempt.status r = FAILED
     ∧ IndexAttempt.failure_reason r = Some _UNEXPECTED_STATE_FAILURE_REASON.
Proof.
  refine (proj1 (proj2 (cleanup_indexing_jobs_orphan_sweep ∅ 3
                          (world_of store_with_orphans) attempt_8 1 _ _ _ _ _ _ _))).
  - by_evaluation.
  - apply store_with_orphans_models.
  - by_evaluation.
  - reflexivity.
  - reflexivity.
  - reflexivity.
  - by_evaluation.
Defined.

Lemma cleanup_indexing_jobs_stall_check_witness :
  JobCancel 8
    ∈ emitted (cleanup_indexing_jobs tracking_7_and_8 3) (world_of store_with_orphans)
  ∧ ∃ r, lookup_index_attempt 8
           (db (after (cleanup_indexing_jobs tracking_7_and_8 3)
                      (world_of store_with_orphans)))
         = Some r
       ∧ IndexAttempt.status r = FAILED
       ∧ IndexAttempt.failure_reason r = Some _FROZEN_FAILURE_REASON.
Proof.
  destruct (cleanup_indexing_jobs_stall_check tracking_7_and_8 3
              (world_of store_with_orphans) attempt_8 1 (Job.mk running))
    as (_ & Hcancel & _ & Hfailed & _ & Hexact).
  - by_evaluation.
  - apply store_with_orphans_models.
  - by_evaluation.
  - reflexivity.
  - reflexivity.
  - reflexivity.
  - reflexivity.
  - by_evaluation.
  - destruct Hexact as [Hiff _]; [reflexivity|].
    assert (Hfrozen : 60 * 60 * 3 * 1000000
                      < get_db_current_time (db (world_of store_with_orphans))
                        - IndexAttempt.time_updated attempt_8) by reflexivity.
    apply Hiff in Hfrozen. split; [by apply Hcancel|by apply Hfailed].
Defined.

Lemma kickoff_indexing_jobs_dispatch_witness :
  let kickoff := kickoff_indexing_jobs ∅ client_primary client_secondary in
  let w := world_of store_to_dispatch in
  (∃ r, lookup_index_attempt 99 (db (after kickoff w)) = Some r
      ∧ IndexAttempt.status r = FAILED
      ∧ IndexAttempt.failure_reason r = Some "Connector is null"%string)
  ∧ (∀ c n accepted, Submit c 99 n accepted ∉ emitted kickoff w).
Proof.
  intros kickoff w.
  destruct (kickoff_indexing_jobs_dispatch ∅ client_primary client_secondary w
              attempt_99) as (tracked & _ & Hcase).
  - by_evaluation.
  - by_evaluation.
  - reflexivity.
  - reflexivity.
  - assert (Hmissing : attempt_connector attempt_99 (db w) = None) by reflexivity.
    rewrite Hmissing in Hcase. destruct Hcase as (Hfailed & _ & Hsubmit & _).
    split; [exact Hfailed|exact Hsubmit].
Defined.

Lemma kickoff_indexing_jobs_null_model_witness :
  let kickoff := kickoff_indexing_jobs ∅ client_primary client_secondary in
  let w := world_of store_to_dispatch in
  lookup_index_attempt 97 (db (after kickoff w)) = Some attempt_97
  ∧ ∃ num_threads accepted,
      ∀ c n b, Submit c 97 n b ∈ emitted kickoff w
               ↔ c = client_primary ∧ n = num_threads ∧ b = accepted.
Proof.
  intros kickoff w.
  destruct (kickoff_indexing_jobs_null_model ∅ client_primary client_secondary w
              attempt_97) as (_ & Hrow & n & accepted & Hsubmit & _).
  - by_evaluation.
  - by_evaluation.
  - reflexivity.
  - reflexivity.
  - reflexivity.
  - by_evaluation.
  - by_evaluation.
  - split; [exact Hrow|]. exists n, accepted. exact Hsubmit.
Defined.

Lemma should_create_outside_cadence_witness :
  _should_create_new_indexing (Connector.mk 1 true (Some 60) [1])
    (Some (IndexAttempt.mk 4 (Some 1) (Some 1) 10 SUCCESS 0 None))
    (EmbeddingModel.mk 20 FUTURE) store_in_migration = false
  ∧ _should_create_new_indexing (Connector.mk 0 false (Some 60) [0]) None
      (EmbeddingModel.mk 10 PRESENT) store_in_migration = true.
Proof.
  split.
  - apply (should_create_outside_cadence (Connector.mk 1 true (Some 60) [1])
             (Some (IndexAttempt.mk 4 (Some 1) (Some 1) 10 SUCCESS 0 None))
             (EmbeddingModel.mk 20 FUTURE) store_in_migration).
    + intros [_ Hnone]. discriminate Hnone.
    + left. reflexivity.
  - apply (should_create_outside_cadence (Connector.mk 0 false (Some 60) [0]) None
             (EmbeddingModel.mk 10 PRESENT) store_in_migration).
    + discriminate.
    + reflexivity.
    + exists 60. reflexivity.
Defined.

Lemma should_create_monotone_witness :
  _should_create_new_indexing (Connector.mk 1 false (Some 60) [1])
    (Some (IndexAttempt.mk 4 (Some 1) (Some 1) 10 SUCCESS 940000000 None))
    (EmbeddingModel.mk 10 PRESENT) store_with_orphans = true.
Proof.
  apply (should_create_monotone (Connector.mk 1 false (Some 60) [1])
           (Some (IndexAttempt.mk 4 (Some 1) (Some 1) 10 SUCCESS 940000000 None))
           (EmbeddingModel.mk 10 PRESENT) store_with_attempt_7 store_with_orphans).
  - vm_compute. discriminate.
  - vm_compute. reflexivity.
Defined.

Lemma mark_run_failed_raises_witness :
  emitted (_mark_run_failed attempt_97 "stopped") (world_of store_to_dispatch)
  = [Log WARNING (marking_attempt_as_failed (Some 1) (Some 1) "stopped");
     MarkAttemptFailed 97 "stopped"]
  ∧ db (after (_mark_run_failed attempt_97 "stopped") (world_of store_to_dispatch))
    = db (after (mark_attempt_failed attempt_97 "stopped") (world_of store_to_dispatch)).
Proof.
  apply (mark_run_failed_raises attempt_97 "stopped" (world_of store_to_dispatch)).
  reflexivity.
Defined.

Lemma check_index_swap_without_pairs_witness :
  outcome check_index_swap (world_of (set_cc_pairs (λ _, []) store_in_migration))
  = Raised (RuntimeError "More unique indexings than cc pairs, should not occur").
Proof.
  unfold outcome.
  rewrite (check_index_swap_without_pairs
             (world_of (set_cc_pairs (λ _, []) store_in_migration))
             (EmbeddingModel.mk 20 FUTURE)); reflexivity.
Defined.

Lemma check_index_swap_settles_witness :
  filter (λ m, EmbeddingModel.status m = PRESENT)
    (embedding_models (db (after check_index_swap (world_of store_in_migration))))
  = [EmbeddingModel.mk 20 PRESENT].
Proof.
  apply (check_index_swap_settles (world_of store_in_migration)
           (EmbeddingModel.mk 10 PRESENT) (EmbeddingModel.mk 20 FUTURE)).
  - by_evaluation.
  - reflexivity.
  - reflexivity.
  - reflexivity.
Defined.

Lemma cleanup_indexing_jobs_at_rest_witness :
  cleanup_indexing_jobs tracking_7 3 (world_of store_with_attempt_7)
  = (Returned tracking_7, world_of store_with_attempt_7).
Proof.
  apply (cleanup_indexing_jobs_at_rest tracking_7 3 (world_of store_with_attempt_7)).
  - intros i job Hi. unfold tracking_7 in Hi.
    apply lookup_singleton_Some in Hi as [<- <-]. split; reflexivity.
  - intros a x Ha _ _ _. apply list_elem_of_singleton in Ha as ->.
    split; [by eexists|]. vm_compute. discriminate.
Defined.

Lemma kickoff_indexing_jobs_extends_witness :
  kickoff_indexing_jobs tracking_7 client_primary client_secondary
    (world_of store_with_attempt_7)
  = (Returned tracking_7,
     after (logger INFO (found_new_indexing_tasks 0)) (world_of store_with_attempt_7)).
Proof.
  apply (kickoff_indexing_jobs_extends tracking_7 client_primary client_secondary
           (world_of store_with_attempt_7)).
  intros a Ha Hst. apply list_elem_of_singleton in Ha as ->. discriminate Hst.
Defined.

Lemma kickoff_indexing_jobs_submissions_witness :
  4 = Z.max (MIN_THREADS_ML_MODELS (config (world_of store_to_dispatch)))
            (torch_get_num_threads (config (world_of store_to_dispatch)))
  ∧ ∃ a, a ∈ index_attempts store_to_dispatch
       ∧ IndexAttempt.id a = 97 ∧ IndexAttempt.status a = NOT_STARTED.
Proof.
  destruct (kickoff_indexing_jobs_submissions ∅ client_primary client_secondary
              (world_of store_to_dispatch)) as [Hsubmit _].
  destruct (Hsubmit client_primary 97 4 true) as (Hthreads & _ & _ & Hrow).
  - by_evaluation.
  - split; [exact Hthreads|exact Hrow].
Defined.

Lemma cleanup_indexing_jobs_tracked_witness :
  ∃ tracked,
    outcome (cleanup_indexing_jobs {[ 8 := Job.mk finished ]} 3)
      (world_of store_with_orphans) = Returned tracked
    ∧ tracked !! 8 = None.
Proof.
  destruct (cleanup_indexing_jobs_tracked {[ 8 := Job.mk finished ]} 3
              (world_of store_with_orphans) store_with_orphans_models)
    as (tracked & Hret & Hkeys).
  exists tracked. split; [exact Hret|].
  specialize (Hkeys 8). rewrite lookup_singleton_eq in Hkeys. simpl in Hkeys.
  apply Hkeys.
Defined.

Lemma cleanup_indexing_jobs_dropped_handle_witness :
  ∃ r, lookup_index_attempt 8
         (db (after (cleanup_indexing_jobs {[ 8 := Job.mk finished ]} 3)
                (world_of store_with_orphans)))
       = Some r
     ∧ IndexAttempt.status r = FAILED
     ∧ IndexAttempt.failure_reason r = Some _UNEXPECTED_STATE_FAILURE_REASON.
Proof.
  destruct (cleanup_indexing_jobs_dropped_handle {[ 8 := Job.mk finished ]} 3
              (world_of store_with_orphans) attempt_8 (Job.mk finished))
    as (_ & _ & _ & _ & Hfailed & _).
  - by_evaluation.
  - apply store_with_orphans_models.
  - by_evaluation.
  - reflexivity.
  - left. reflexivity.
  - apply Hfailed; reflexivity.
Defined.

Lemma kickoff_indexing_jobs_no_resubmission_witness :
  ∃ tracked,
    outcome (kickoff_indexing_jobs ∅ client_primary client_secondary)
      (world_of store_to_dispatch) = Returned tracked
    ∧ is_Some (tracked !! 97).
Proof.
  destruct (kickoff_indexing_jobs_steps ∅ client_primary client_secondary
              (world_of store_to_dispatch)) as (tracked & w' & es & Hrun & _).
  assert (Hret : outcome (kickoff_indexing_jobs ∅ client_primary client_secondary)
                   (world_of store_to_dispatch) = Returned tracked)
    by (unfold outcome; rewrite Hrun; reflexivity).
  exists tracked. split; [exact Hret|].
  apply (kickoff_indexing_jobs_no_resubmission ∅ tracked client_primary
           client_secondary (world_of store_to_dispatch) 97 client_primary 4).
  - by_evaluation.
  - exact Hret.
  - by_evaluation.
Defined.

Lemma tick_blocked_by_swap_witness :
  outcome (tick check_index_swap
             (λ existing_jobs, cleanup_indexing_jobs existing_jobs 3)
             create_indexing_jobs
             (λ existing_jobs,
                kickoff_indexing_jobs existing_jobs client_primary client_secondary)
             (λ _, 0) 10 0%nat tracking_7)
    (world_of (set_cc_pairs (λ _, []) store_in_migration))
  = Returned tracking_7.
Proof.
  apply (tick_blocked_by_swap 3 (λ _, 0) 10 0%nat tracking_7
           (world_of (set_cc_pairs (λ _, []) store_in_migration))
           (RuntimeError "More unique indexings than cc pairs, should not occur")).
  reflexivity.
Defined.

Lemma create_indexing_jobs_spares_ingestion_witness :
  (CreateIndexAttempt 0 0 20
     ∉ emitted (create_indexing_jobs ∅) (world_of store_with_ingestion))
  ∧ attempts_of_triple 0 0 20
      (db (after (create_indexing_jobs ∅) (world_of store_with_ingestion))) = [].
Proof.
  apply (create_indexing_jobs_spares_ingestion ∅ (world_of store_with_ingestion)
           (EmbeddingModel.mk 20 FUTURE) 0).
  - reflexivity.
  - intros current Hcurrent. vm_compute in Hcurrent. injection Hcurrent as <-.
    discriminate.
  - reflexivity.
Defined.

Lemma cleanup_indexing_jobs_raises_witness :
  ∃ a, a ∈ index_attempts store_to_dispatch
     ∧ attempt_embedding_model a store_to_dispatch = None.
Proof.
  apply (cleanup_indexing_jobs_raises {[ 97 := Job.mk error ]} 3
           (world_of store_to_dispatch)
           (AttributeError "'NoneType' object has no attribute 'status'")).
  vm_compute. reflexivity.
Defined.
